(** * Paper-chat retrieval pipeline: a shallow embedding and its properties

    The development follows [paperChat.ts] and [pdfOutline.ts] of the plugin:
    text normalisation and chunking, the content hash, outline flattening and
    section page ranges, keyword/hybrid retrieval, the embedding cache, the
    JSON store with its conversation memory, evidence enforcement and the
    progress reports of a summarisation request.

    JavaScript strings are sequences of UTF-16 code units; they are modelled
    as [list N].  JavaScript numbers that hold offsets, counts and page
    numbers are integers and are modelled in [Z]; scores and embedding
    components are IEEE-754 doubles and are modelled by primitive floats. *)

From Stdlib Require Import ZArith NArith Floats Uint63 DecimalString Ascii.
From stdpp Require Import gmap strings list.

Set Warnings "-clear-no-such-hyp,-register-all,-inexact-float".

Local Open Scope Z_scope.

(* ===================================================================== *)
(** ** JavaScript strings *)
(* ===================================================================== *)

Module Js.

Abbreviation jsstring := (list N).

(** An ASCII literal as code units. *)
Definition lit (s : string) : jsstring :=
  map N_of_ascii (String.list_ascii_of_string s).

(** A source literal written in UTF-8, decoded to UTF-16 code units. *)
Fixpoint utf8_decode (bs : list N) : jsstring :=
  match bs with
  | [] => []
  | b0 :: r0 =>
    if (b0 <? 128)%N then b0 :: utf8_decode r0
    else match r0 with
      | [] => [b0]
      | b1 :: r1 =>
        if (b0 <? 224)%N then ((b0 - 192) * 64 + (b1 - 128))%N :: utf8_decode r1
        else match r1 with
          | [] => [b0; b1]
          | b2 :: r2 =>
            if (b0 <? 240)%N
            then ((b0 - 224) * 4096 + (b1 - 128) * 64 + (b2 - 128))%N :: utf8_decode r2
            else match r2 with
              | [] => [b0; b1; b2]
              | b3 :: r3 =>
                let cp := ((b0 - 240) * 262144 + (b1 - 128) * 4096
                           + (b2 - 128) * 64 + (b3 - 128))%N in
                let v := (cp - 65536)%N in
                (55296 + v / 1024)%N :: (56320 + v mod 1024)%N :: utf8_decode r3
              end
          end
      end
  end.

Definition utf16 (s : string) : jsstring := utf8_decode (lit s).

(** [String(n)] for a non-negative integer. *)
Definition decimal (n : Z) : jsstring :=
  lit (NilEmpty.string_of_uint (N.to_uint (Z.to_N n))).

Definition len {A} (s : list A) : Z := Z.of_nat (length s).

(** [s.slice(b, e)] with JavaScript's treatment of negative and
    out-of-range indices. *)
Definition rel_index (n k : Z) : Z :=
  if k <? 0 then Z.max (n + k) 0 else Z.min k n.

Definition slice {A} (s : list A) (b e : Z) : list A :=
  let from := rel_index (len s) b in
  let to := rel_index (len s) e in
  take (Z.to_nat (to - from)) (drop (Z.to_nat from) s).

Definition slice_from {A} (s : list A) (b : Z) : list A :=
  slice s b (len s).

(** WhiteSpace and LineTerminator code units: what [trim] strips and
    what [\s] matches. *)
Definition isWhiteSpace (c : N) : bool :=
  ((9 <=? c) && (c <=? 13) || (c =? 32) || (c =? 160) || (c =? 5760)
   || (8192 <=? c) && (c <=? 8202) || (c =? 8232) || (c =? 8233)
   || (c =? 8239) || (c =? 8287) || (c =? 12288) || (c =? 65279))%N.

Fixpoint dropWhile {A} (p : A → bool) (l : list A) : list A :=
  match l with
  | [] => []
  | x :: r => if p x then dropWhile p r else l
  end.

Definition trimStart (s : jsstring) : jsstring := dropWhile isWhiteSpace s.
Definition trimEnd (s : jsstring) : jsstring :=
  reverse (dropWhile isWhiteSpace (reverse s)).
Definition trim (s : jsstring) : jsstring := trimEnd (trimStart s).

(** [parts.join(sep)] *)
Fixpoint join (sep : jsstring) (parts : list jsstring) : jsstring :=
  match parts with
  | [] => []
  | [p] => p
  | p :: rest => p ++ sep ++ join sep rest
  end.

(** A global replace of every maximal run of code units satisfying [p];
    [repl n] is what a run of length [n] becomes. *)
Fixpoint replaceRuns (p : N → bool) (repl : nat → jsstring)
         (run : nat) (s : jsstring) : jsstring :=
  match s with
  | [] => match run with O => [] | _ => repl run end
  | c :: r =>
    if p c then replaceRuns p repl (S run) r
    else match run with O => [] | _ => repl run end
         ++ c :: replaceRuns p repl O r
  end.

(** Is [needle] an infix of [s]?  ([s.includes(needle)]) *)
Fixpoint isPrefixOf (p s : jsstring) : bool :=
  match p, s with
  | [], _ => true
  | _ :: _, [] => false
  | a :: p', b :: s' => (a =? b)%N && isPrefixOf p' s'
  end.

Fixpoint includes (s needle : jsstring) : bool :=
  isPrefixOf needle s ||
  match s with
  | [] => false
  | _ :: r => includes r needle
  end.

(** *** Facts about [trim] *)

Lemma dropWhile_nil_iff {A} (p : A → bool) l :
  dropWhile p l = [] ↔ Forall (λ x, p x = true) l.
Proof.
  induction l as [|x r IH]; simpl.
  - split; auto.
  - destruct (p x) eqn:E.
    + rewrite IH. split; [intros; by constructor | by inversion 1].
    + split; [done | inversion 1; congruence].
Qed.

Lemma dropWhile_head {A} (p : A → bool) l x r :
  dropWhile p l = x :: r → p x = false.
Proof.
  induction l as [|y t IH]; simpl; [done|].
  destruct (p y) eqn:E; [done|]. intros [= -> _]. done.
Qed.

Lemma dropWhile_suffix {A} (p : A → bool) l :
  ∃ k, l = k ++ dropWhile p l ∧ Forall (λ x, p x = true) k.
Proof.
  induction l as [|y t [k [IH1 IH2]]]; simpl.
  - by exists [].
  - destruct (p y) eqn:E.
    + exists (y :: k). split; [simpl; congruence | by constructor].
    + by exists [].
Qed.

Lemma dropWhile_idem {A} (p : A → bool) l :
  dropWhile p (dropWhile p l) = dropWhile p l.
Proof.
  induction l as [|y t IH]; simpl; [done|].
  destruct (p y) eqn:E; [done|]. simpl. by rewrite E.
Qed.

(** A string has a non-blank code unit. *)
Definition hasInk (s : jsstring) : Prop :=
  Exists (λ c, isWhiteSpace c = false) s.

Lemma not_hasInk s : ¬ hasInk s ↔ Forall (λ c, isWhiteSpace c = true) s.
Proof.
  unfold hasInk. rewrite <- Forall_Exists_neg.
  split; intros H; (eapply Forall_impl; [exact H|]); intros c; simpl;
    destruct (isWhiteSpace c); naive_solver.
Qed.

Lemma trimEnd_nil_iff s : trimEnd s = [] ↔ Forall (λ c, isWhiteSpace c = true) s.
Proof.
  unfold trimEnd. rewrite <- (Forall_reverse _ s), <- dropWhile_nil_iff.
  split; intros H.
  - apply (f_equal reverse) in H. by rewrite reverse_involutive in H.
  - by rewrite H.
Qed.

Lemma trim_nil_iff s : trim s = [] ↔ ¬ hasInk s.
Proof.
  unfold trim, trimStart. rewrite trimEnd_nil_iff, not_hasInk.
  destruct (dropWhile_suffix isWhiteSpace s) as [k [Hk Hws]].
  split.
  - intros H. rewrite Hk. apply Forall_app. done.
  - intros H. rewrite Hk in H. by apply Forall_app in H as [_ H].
Qed.

Lemma trim_last_ink s c : last (trim s) = Some c → isWhiteSpace c = false.
Proof.
  unfold trim, trimEnd. rewrite last_reverse.
  destruct (dropWhile isWhiteSpace (reverse (trimStart s))) as [|x r] eqn:E;
    simpl; [done|].
  intros [= ->]. by apply dropWhile_head in E.
Qed.

Lemma trim_head_ink s c : head (trim s) = Some c → isWhiteSpace c = false.
Proof.
  unfold trim, trimEnd, trimStart.
  destruct (dropWhile isWhiteSpace s) as [|x r] eqn:E; [done|].
  apply dropWhile_head in E.
  destruct (dropWhile_suffix isWhiteSpace (reverse (x :: r))) as [k [Hk Hws]].
  destruct (dropWhile isWhiteSpace (reverse (x :: r))) as [|y t] eqn:E2.
  - rewrite app_nil_r in Hk. subst k. rewrite Forall_reverse in Hws.
    inversion Hws; congruence.
  - apply (f_equal reverse) in Hk. rewrite reverse_involutive in Hk.
    rewrite reverse_app in Hk.
    destruct (reverse (y :: t)) as [|z u] eqn:E3.
    + apply (f_equal reverse) in E3. rewrite reverse_involutive in E3. done.
    + simpl in Hk. injection Hk as -> _. by intros [= ->].
Qed.

Lemma trim_idem s : trim (trim s) = trim s.
Proof.
  destruct (trim s) as [|x r] eqn:E; [done|].
  assert (Hh : isWhiteSpace x = false) by (apply (trim_head_ink s); by rewrite E).
  destruct (last (x :: r)) as [z|] eqn:El.
  2:{ by apply last_None in El. }
  assert (Hl : isWhiteSpace z = false) by (apply (trim_last_ink s); by rewrite E).
  unfold trim, trimStart, trimEnd. simpl. rewrite Hh.
  rewrite <- head_reverse in El.
  destruct (reverse (x :: r)) as [|y t] eqn:E2; [done|].
  simpl in El. injection El as ->. simpl. rewrite Hl.
  by rewrite <- E2, reverse_involutive.
Qed.

(** *** Facts about [slice] *)

Lemma slice_in_range {A} (s : list A) (b e : Z) :
  0 ≤ b ≤ e → e ≤ len s →
  slice s b e = take (Z.to_nat (e - b)) (drop (Z.to_nat b) s).
Proof.
  intros Hb He. unfold slice, rel_index.
  destruct (Z.ltb_spec b 0); [lia|]. destruct (Z.ltb_spec e 0); [lia|].
  by rewrite !Z.min_l by lia.
Qed.

Lemma slice_prefix {A} (l : list A) (n : Z) :
  0 ≤ n → slice l 0 n = take (Z.to_nat n) l.
Proof.
  intros Hn. unfold slice, rel_index.
  destruct (Z.ltb_spec n 0); [lia|]. cbn [Z.ltb Z.compare].
  rewrite (Z.min_l 0) by (unfold len; lia). rewrite Z.sub_0_r.
  change (Z.to_nat 0) with O. rewrite drop_0.
  destruct (Z.le_ge_cases n (len l)).
  - by rewrite Z.min_l.
  - rewrite Z.min_r by done. unfold len in *.
    rewrite !take_ge; [done | lia | lia].
Qed.

Lemma slice_nonneg {A} (s : list A) (b e : Z) :
  0 ≤ b ≤ e → b ≤ len s →
  slice s b e = take (Z.to_nat (e - b)) (drop (Z.to_nat b) s).
Proof.
  intros Hb Hl. unfold slice, rel_index.
  destruct (Z.ltb_spec b 0); [lia|]. destruct (Z.ltb_spec e 0); [lia|].
  rewrite (Z.min_l b) by lia.
  destruct (Z.le_ge_cases e (len s)).
  - by rewrite Z.min_l.
  - rewrite Z.min_r by done. unfold len in *.
    rewrite !take_ge; [done | rewrite length_drop; lia | rewrite length_drop; lia].
Qed.

Lemma len_slice_from_tail {A} (l : list A) (n : Z) :
  0 < n → len (slice_from l (- n)) = Z.min (len l) n.
Proof.
  intros Hn. unfold slice_from, slice, rel_index.
  destruct (Z.ltb_spec (- n) 0); [|lia].
  destruct (Z.ltb_spec (len l) 0); [unfold len in *; lia|].
  rewrite Z.min_id. unfold len.
  rewrite length_take, length_drop. lia.
Qed.

End Js.

(* ===================================================================== *)
(** ** Text normalisation, hashing and chunking *)
(* ===================================================================== *)

Module Text.
Import Js.

(** [TextChunk]: a window of the normalised paper text. *)
Record TextChunk := mkChunk {
  id : jsstring;
  text : jsstring;
  start : Z;
  end_ : Z;
}.

Definition CHUNK_SIZE : Z := 1600.
Definition CHUNK_OVERLAP : Z := 260.
Definition MAX_CONTEXT_CHARS : Z := 12000.

(** [normalizeText]: the six rewriting steps, in source order. *)
Definition normalizeText (input : jsstring) : jsstring :=
  let s1 := map (λ c, if (c =? 13)%N then 10%N else c) input in
  let s2 := replaceRuns (λ c, (c =? 9) || (c =? 12) || (c =? 11))%N
                        (λ _, [32%N]) O s1 in
  let s3 := filter (λ c, c ≠ 0%N) s2 in
  let s4 := replaceRuns (λ c, (c =? 32)%N) (λ _, [32%N]) O s3 in
  let s5 := replaceRuns (λ c, (c =? 10)%N)
                        (λ n, replicate (Nat.min n 2) 10%N) O s4 in
  trim s5.

(** [input.replace(/<[^>]+>/g, " ")]: a tag is a [<], at least one code
    unit other than [>], and the first [>] that follows. *)
Fixpoint skipToGt (s : jsstring) : option jsstring :=
  match s with
  | [] => None
  | c :: r => if (c =? 62)%N then Some r else skipToGt r
  end.

Definition afterTag (r : jsstring) : option jsstring :=
  match r with
  | [] => None
  | c :: r' => if (c =? 62)%N then None else skipToGt r'
  end.

Fixpoint replaceTags (fuel : nat) (s : jsstring) : jsstring :=
  match fuel with
  | O => s
  | S fuel' =>
    match s with
    | [] => []
    | c :: r =>
      if (c =? 60)%N then
        match afterTag r with
        | Some rest => 32%N :: replaceTags fuel' rest
        | None => c :: replaceTags fuel' r
        end
      else c :: replaceTags fuel' r
    end
  end.

Definition stripHTML (input : jsstring) : jsstring :=
  normalizeText (replaceTags (length input) input).

(** [hashText]: the FNV-1a loop as JavaScript evaluates it.  [^=] and
    [<<] work on the 32-bit two's-complement value of their operands;
    the additions are exact in a double. *)
Definition toInt32 (z : Z) : Z := (z + 2147483648) mod 4294967296 - 2147483648.
Definition toUint32 (z : Z) : Z := z mod 4294967296.
Definition shl32 (x k : Z) : Z := toInt32 (Z.shiftl (toInt32 x) k).

Definition hashStep (hash : Z) (code : N) : Z :=
  let h := Z.lxor (toInt32 hash) (toInt32 (Z.of_N code)) in
  h + (shl32 h 1 + shl32 h 4 + shl32 h 7 + shl32 h 8 + shl32 h 24).

Definition hashText (value : jsstring) : jsstring :=
  decimal (toUint32 (fold_left hashStep value 2166136261)).

(** [chunkText].  The [while] loop is run with fuel; [text.length]
    iterations are always enough because [start] grows by at least one
    per iteration ([chunkLoop_fuel] below). *)
Definition overlap : Z := Z.min CHUNK_OVERLAP (Z.max 0 (CHUNK_SIZE - 1)).

Definition window (txt : jsstring) (s : Z) : jsstring :=
  trim (slice txt s (Z.min (len txt) (s + CHUNK_SIZE))).

Fixpoint chunkLoop (fuel : nat) (txt : jsstring) (chunks : list TextChunk)
         (index s : Z) : list TextChunk :=
  match fuel with
  | O => chunks
  | S fuel' =>
    if s <? len txt then
      let e := Z.min (len txt) (s + CHUNK_SIZE) in
      let chunkText := trim (slice txt s e) in
      let pushed :=
        match chunkText with
        | [] => (chunks, index)
        | _ :: _ =>
          (chunks ++ [mkChunk (lit "chunk-" ++ decimal (index + 1)) chunkText s e],
           index + 1)
        end in
      if e >=? len txt then pushed.1
      else chunkLoop fuel' txt pushed.1 pushed.2 (Z.max (s + 1) (e - overlap))
    else chunks
  end.

Definition chunkText (txt : jsstring) : list TextChunk :=
  match txt with
  | [] => []
  | _ :: _ => chunkLoop (length txt) txt [] 0 0
  end.

Example hashText_a : hashText (lit "a") = lit "3826002220".
Proof. reflexivity. Qed.

Example hashText_foobar : hashText (lit "foobar") = lit "3214735720".
Proof. reflexivity. Qed.

Example normalizeText_ex :
  normalizeText (lit "  a" ++ [9; 9; 13; 13; 10; 10; 0; 32; 32]%N ++ lit "b  ")
  = lit "a " ++ [10; 10; 32]%N ++ lit "b".
Proof. reflexivity. Qed.

Example stripHTML_ex :
  stripHTML (lit "<p>x <> y</p> <b") = lit "x <> y <b".
Proof. reflexivity. Qed.

Example chunkText_small :
  chunkText (lit "hello") = [mkChunk (lit "chunk-1") (lit "hello") 0 5].
Proof. reflexivity. Qed.

End Text.


(* ===================================================================== *)
(** ** The chunking loop *)
(* ===================================================================== *)

Module Chunking.
Import Js Text.

Lemma overlap_val : overlap = 260.
Proof. reflexivity. Qed.

Lemma last_drop {A} (l : list A) (n : nat) :
  (n < length l)%nat → last (drop n l) = last l.
Proof.
  intros Hn. rewrite !last_lookup, lookup_drop, length_drop. f_equal. lia.
Qed.

Lemma last_hasInk (s : jsstring) c :
  last s = Some c → isWhiteSpace c = false → hasInk s.
Proof.
  intros Hl Hc. apply Exists_exists. exists c. split; [|done].
  rewrite last_lookup in Hl. by eapply list_elem_of_lookup_2.
Qed.

(** The chunk the loop pushes for the window that starts at [s], if any. *)
Definition emit (txt : jsstring) (index s : Z) : list TextChunk :=
  match window txt s with
  | [] => []
  | _ :: _ =>
    [mkChunk (lit "chunk-" ++ decimal (index + 1)) (window txt s) s
             (Z.min (len txt) (s + CHUNK_SIZE))]
  end.

Lemma chunkLoop_unfold txt fuel chunks index s :
  s < len txt →
  chunkLoop (S fuel) txt chunks index s =
    if Z.min (len txt) (s + CHUNK_SIZE) >=? len txt
    then chunks ++ emit txt index s
    else chunkLoop fuel txt (chunks ++ emit txt index s)
           (index + len (emit txt index s))
           (Z.max (s + 1) (Z.min (len txt) (s + CHUNK_SIZE) - overlap)).
Proof.
  intros Hs. cbn [chunkLoop]. destruct (Z.ltb_spec s (len txt)); [|lia].
  unfold emit, window.
  destruct (trim (slice txt s (Z.min (len txt) (s + CHUNK_SIZE)))) eqn:E;
    cbn [fst snd length len]; rewrite ?app_nil_r, ?Z.add_0_r; reflexivity.
Qed.

Lemma chunkLoop_acc txt fuel chunks index s :
  chunkLoop fuel txt chunks index s = chunks ++ chunkLoop fuel txt [] index s.
Proof.
  revert chunks index s. induction fuel as [|f IH]; intros chunks index s.
  - by rewrite app_nil_r.
  - destruct (Z.ltb_spec s (len txt)) as [Hs|Hs].
    + rewrite !chunkLoop_unfold by done.
      destruct (_ >=? _); [done|].
      rewrite IH, (IH ([] ++ _)). by rewrite app_assoc.
    + cbn [chunkLoop]. destruct (Z.ltb_spec s (len txt)); [lia|].
      by rewrite app_nil_r.
Qed.

(** Fuel: any amount at least [text.length - start] gives the same list,
    so the loop has run to its own exit. *)
Lemma chunkLoop_fuel txt f1 f2 chunks index s :
  0 ≤ s → len txt - s ≤ Z.of_nat f1 → len txt - s ≤ Z.of_nat f2 →
  chunkLoop f1 txt chunks index s = chunkLoop f2 txt chunks index s.
Proof.
  revert f2 chunks index s.
  induction f1 as [|f1 IH]; intros f2 chunks index s H0 H1 H2.
  - destruct f2; [done|]. cbn [chunkLoop].
    destruct (Z.ltb_spec s (len txt)); [lia|done].
  - destruct f2 as [|f2].
    + cbn [chunkLoop]. destruct (Z.ltb_spec s (len txt)); [lia|done].
    + destruct (Z.ltb_spec s (len txt)) as [Hs|Hs].
      * rewrite !chunkLoop_unfold by done.
        destruct (_ >=? _); [done|]. apply IH; lia.
      * cbn [chunkLoop]. destruct (Z.ltb_spec s (len txt)); [lia|done].
Qed.

(** What the list pushed from window [lo] on looks like: every chunk is a
    non-blank window of the text, numbered from [index + 1]; a chunk
    starts at [lo] unless the window at [lo] was blank and skipped; and
    the next window starts [overlap] before the chunk's end. *)
Fixpoint chain (txt : jsstring) (index lo : Z) (R : list TextChunk) : Prop :=
  match R with
  | [] => True
  | c :: R' =>
    id c = lit "chunk-" ++ decimal (index + 1)
    ∧ text c = trim (slice txt (start c) (end_ c))
    ∧ text c ≠ []
    ∧ end_ c = Z.min (len txt) (start c + CHUNK_SIZE)
    ∧ lo ≤ start c < len txt
    ∧ (start c = lo ∨ (window txt lo = [] ∧ lo < start c))
    ∧ (R' ≠ [] → end_ c < len txt)
    ∧ chain txt (index + 1) (end_ c - overlap) R'
  end.

Lemma chain_skip txt index lo lo' R :
  chain txt index lo' R → window txt lo = [] → lo < lo' →
  chain txt index lo R.
Proof.
  destruct R as [|c R']; [done|]. cbn [chain].
  intros (Hid & Ht & Hne & He & Hr & Hs & Hn & Hc) Hw Hlt.
  repeat split; try done; try lia. right. split; [done|lia].
Qed.

Lemma chunkLoop_chain txt fuel index s :
  0 ≤ s → chain txt index s (chunkLoop fuel txt [] index s).
Proof.
  revert index s. induction fuel as [|f IH]; intros index s H0; [done|].
  destruct (Z.ltb_spec s (len txt)) as [Hs|Hs].
  2:{ cbn [chunkLoop]. destruct (Z.ltb_spec s (len txt)); [lia|done]. }
  rewrite chunkLoop_unfold by done. rewrite app_nil_l.
  pose proof overlap_val as Ho.
  destruct (Z.geb_spec (Z.min (len txt) (s + CHUNK_SIZE)) (len txt)) as [Hf|Hf].
  - unfold emit. destruct (window txt s) eqn:E; [done|].
    cbn [chain start end_ text id]. rewrite <- E.
    repeat split; try done; try lia. rewrite E. done.
  - rewrite chunkLoop_acc.
    assert (He : Z.min (len txt) (s + CHUNK_SIZE) = s + CHUNK_SIZE) by lia.
    rewrite He in *. unfold CHUNK_SIZE in *.
    replace (Z.max (s + 1) (s + 1600 - overlap)) with (s + 1600 - overlap) by lia.
    unfold emit. destruct (window txt s) eqn:E.
    + cbn [len length app]. rewrite Z.add_0_r.
      eapply chain_skip; [apply IH; lia | done | lia].
    + cbn [app chain start end_ text id len length]. rewrite <- E.
      unfold CHUNK_SIZE. rewrite He. change (Z.of_nat 1) with 1.
      repeat split; try done; try lia.
      * unfold window, CHUNK_SIZE. by rewrite He.
      * by rewrite E.
      * apply IH. lia.
Qed.

(** When the text ends in a non-blank code unit, the window that reaches
    the end of the text is pushed, so the list is non-empty and its last
    chunk ends at [text.length]. *)
Lemma chunkLoop_last txt fuel index s c0 :
  last txt = Some c0 → isWhiteSpace c0 = false →
  0 ≤ s < len txt → len txt - s ≤ Z.of_nat fuel →
  ∃ c, last (chunkLoop fuel txt [] index s) = Some c ∧ end_ c = len txt.
Proof.
  intros Hl Hc. revert index s.
  induction fuel as [|f IH]; intros index s Hs Hf; [lia|].
  rewrite chunkLoop_unfold by lia. rewrite app_nil_l.
  pose proof overlap_val as Ho.
  destruct (Z.geb_spec (Z.min (len txt) (s + CHUNK_SIZE)) (len txt)) as [Hfin|Hfin].
  - assert (He : Z.min (len txt) (s + CHUNK_SIZE) = len txt) by lia.
    unfold emit. destruct (window txt s) eqn:E.
    + exfalso. unfold window in E. rewrite He in E.
      apply trim_nil_iff in E. apply E.
      rewrite slice_in_range by lia.
      rewrite take_ge by (rewrite length_drop; unfold len; lia).
      apply (last_hasInk _ c0); [|done].
      rewrite last_drop; [done | unfold len in *; lia].
    + eexists. split; [reflexivity|]. done.
  - rewrite chunkLoop_acc.
    unfold CHUNK_SIZE in *.
    replace (Z.max (s + 1) (Z.min (len txt) (s + 1600) - overlap))
      with (s + 1340) by lia.
    destruct (IH (index + len (emit txt index s)) (s + 1340)) as (c & Hlast & Hend);
      [lia | lia |].
    exists c. split; [|done]. rewrite last_app, Hlast. done.
Qed.

Lemma chain_ids txt index lo R i c :
  chain txt index lo R → R !! i = Some c →
  id c = lit "chunk-" ++ decimal (index + Z.of_nat i + 1).
Proof.
  revert index lo i. induction R as [|c0 R' IH]; intros index lo i HR Hi; [done|].
  destruct HR as (Hid & _ & _ & _ & _ & _ & _ & Hc).
  destruct i as [|i]; simpl in Hi.
  - injection Hi as <-. by rewrite Z.add_0_r.
  - rewrite (IH _ _ _ Hc Hi). do 2 f_equal. lia.
Qed.

Lemma chain_elem txt index lo R c :
  chain txt index lo R → 0 ≤ lo → c ∈ R →
  text c = trim (slice txt (start c) (end_ c)) ∧ text c ≠ []
  ∧ end_ c = Z.min (len txt) (start c + CHUNK_SIZE)
  ∧ 0 ≤ start c < end_ c.
Proof.
  revert index lo. induction R as [|c0 R' IH]; intros index lo HR Hlo Hin.
  - by apply elem_of_nil in Hin.
  - destruct HR as (_ & Ht & Hne & He & Hr & _ & Hn & Hc).
    apply elem_of_cons in Hin as [->|Hin].
    + unfold CHUNK_SIZE in *. repeat split; try done; lia.
    + eapply IH; [exact Hc | | done].
      assert (R' ≠ []) as HR' by (intros ->; by apply elem_of_nil in Hin).
      specialize (Hn HR'). rewrite overlap_val. unfold CHUNK_SIZE in *. lia.
Qed.

Lemma chain_consecutive txt index lo R i c d :
  chain txt index lo R → R !! i = Some c → R !! S i = Some d →
  start c < start d ∧ end_ c < end_ d
  ∧ (start d = end_ c - overlap
     ∨ (window txt (end_ c - overlap) = [] ∧ end_ c - overlap < start d)).
Proof.
  revert index lo i. induction R as [|c0 R' IH]; intros index lo i HR Hi Hj; [done|].
  destruct HR as (_ & _ & _ & He & Hr & _ & Hn & Hc).
  destruct i as [|i]; simpl in Hi, Hj.
  - injection Hi as <-. destruct R' as [|d0 R'']; [done|].
    simpl in Hj. injection Hj as <-.
    specialize (Hn ltac:(done)).
    destruct Hc as (_ & _ & _ & He' & Hr' & Hs' & _ & _).
    rewrite overlap_val in *. unfold CHUNK_SIZE in *.
    repeat split; [lia | lia |].
    destruct Hs' as [->|[Hw Hlt]]; [by left | by right].
  - by eapply IH.
Qed.

(** The text that shows a skipped window: one letter, 3000 no-break
    spaces, one letter.  [normalizeText] leaves it as it is. *)
Definition gapText : jsstring := lit "a" ++ replicate 3000 160%N ++ lit "b".

(** C1, as stated, fails: on the normalised text [gapText] the window
    [1340, 2940) is blank and is skipped, so the two chunks that are
    pushed, [0, 1600) and [2680, 3002), do not overlap by 260 code units
    (they do not even touch). *)
Lemma chunkText_gap_no_overlap :
  normalizeText gapText = gapText
  ∧ map (λ c, (id c, start c, end_ c)) (chunkText gapText)
    = [(lit "chunk-1", 0, 1600); (lit "chunk-2", 2680, 3002)]
  ∧ ¬ (∀ i c d, chunkText gapText !! i = Some c →
                chunkText gapText !! S i = Some d →
                start d = end_ c - CHUNK_OVERLAP).
Proof.
  assert (E : map (λ c, (id c, start c, end_ c)) (chunkText gapText)
              = [(lit "chunk-1", 0, 1600); (lit "chunk-2", 2680, 3002)])
    by (vm_compute; reflexivity).
  split; [vm_compute; reflexivity|]. split; [exact E|].
  intros H.
  destruct (chunkText gapText) as [|c [|d [|? ?]]]; try discriminate E.
  injection E as _ _ Hec _ Hsd _.
  specialize (H 0%nat c d eq_refl eq_refl).
  rewrite Hec, Hsd in H. discriminate H.
Qed.

(** C1 (amended).  For a non-empty normalised text, [chunkText] returns
    a non-empty list in which the ids are [chunk-1], [chunk-2], ... in
    order; every chunk holds the trimmed, non-empty content of the window
    [start, min(length, start + 1600)); starts and ends increase strictly;
    a chunk starts exactly 260 code units before the end of the chunk
    pushed before it unless the window at that position was blank and
    skipped, in which case it starts later; and the last chunk ends at the
    text's length.  The empty text gives the empty list. *)
Theorem chunkText_spec (raw : jsstring) :
  normalizeText raw ≠ [] →
  let txt := normalizeText raw in
  chunkText [] = []
  ∧ chunkText txt ≠ []
  ∧ (∀ i c, chunkText txt !! i = Some c →
       id c = lit "chunk-" ++ decimal (Z.of_nat i + 1))
  ∧ (∀ c, c ∈ chunkText txt →
       text c = trim (slice txt (start c) (end_ c))
       ∧ trim (text c) ≠ []
       ∧ end_ c = Z.min (len txt) (start c + CHUNK_SIZE)
       ∧ 0 ≤ start c < end_ c)
  ∧ (∀ i c d, chunkText txt !! i = Some c → chunkText txt !! S i = Some d →
       start c < start d ∧ end_ c < end_ d
       ∧ (start d = end_ c - CHUNK_OVERLAP
          ∨ (window txt (end_ c - CHUNK_OVERLAP) = []
             ∧ end_ c - CHUNK_OVERLAP < start d)))
  ∧ (∃ c, last (chunkText txt) = Some c ∧ end_ c = len txt)
  ∧ 0 < CHUNK_OVERLAP < CHUNK_SIZE.
Proof.
  intros Hne txt. split; [done|].
  assert (Hchain : chain txt 0 0 (chunkText txt)).
  { unfold chunkText. destruct txt; [done|]. by apply chunkLoop_chain. }
  assert (Hlast : ∃ c, last (chunkText txt) = Some c ∧ end_ c = len txt).
  { destruct (last txt) as [c0|] eqn:El.
    2:{ apply last_None in El. done. }
    assert (isWhiteSpace c0 = false) as Hc0.
    { apply (trim_last_ink _ c0 El). }
    unfold chunkText. destruct txt as [|x t] eqn:Et; [done|]. rewrite <- Et in *.
    eapply chunkLoop_last; eauto; unfold len; [|lia].
    rewrite Et. simpl. lia. }
  split.
  { destruct Hlast as (c & Hl & _). intros E. by rewrite E in Hl. }
  split.
  { intros i c Hi. by rewrite (chain_ids _ _ _ _ _ _ Hchain Hi). }
  split.
  { intros c Hc. destruct (chain_elem _ _ _ _ _ Hchain ltac:(done) Hc)
      as (Ht & Hn & He & Hr).
    repeat split; try done; try lia.
    rewrite Ht, trim_idem, <- Ht. done. }
  split.
  { intros i c d Hi Hj. apply (chain_consecutive _ _ _ _ _ _ _ Hchain Hi Hj). }
  split; [done|]. done.
Qed.

Lemma chunkText_spec_witness :
  normalizeText (lit " two  words ") ≠ []
  ∧ ∃ c, last (chunkText (normalizeText (lit " two  words "))) = Some c
         ∧ end_ c = len (normalizeText (lit " two  words ")).
Proof.
  assert (H : normalizeText (lit " two  words ") ≠ []) by (vm_compute; discriminate).
  split; [exact H|].
  destruct (chunkText_spec (lit " two  words ") H) as (_ & _ & _ & _ & _ & Hl & _).
  exact Hl.
Defined.

End Chunking.

(* ===================================================================== *)
(** ** PDF outline: flattening and section page ranges *)
(* ===================================================================== *)

Module Outline.
Import Js.

(** [PdfOutlineNode]: a bookmark with its children.  [pageNumber] is
    [pageIndex + 1] for a finite [pageIndex >= 0], or undefined. *)
Inductive PdfOutlineNode :=
  OutlineNode (title : jsstring) (pageNumber : option Z) (url : option jsstring)
              (children : list PdfOutlineNode) (depth : Z).

Record FlattenedOutlineNode := mkFlat {
  title : jsstring;
  depth : Z;
  pageNumber : option Z;
  url : option jsstring;
  path : jsstring;
}.

(** The range a section gets; both ends are undefined together. *)
Record PageRange := mkRange {
  startPageNumber : option Z;
  endPageNumber : option Z;
}.

(** [flattenOutlineWithPath]: depth-first, source order; the path of the
    [index]-th child is [parentPath.(index+1)], or [(index+1)] at the top. *)
Fixpoint walkItem (parentPath : jsstring) (index : Z) (item : PdfOutlineNode)
  : list FlattenedOutlineNode :=
  match item with
  | OutlineNode t p u ch d =>
    let path :=
      match parentPath with
      | [] => decimal (index + 1)
      | _ :: _ => parentPath ++ lit "." ++ decimal (index + 1)
      end in
    mkFlat t d p u path ::
    (fix walkFrom (items : list PdfOutlineNode) (i : Z) :=
       match items with
       | [] => []
       | it :: rest => walkItem path i it ++ walkFrom rest (i + 1)
       end) ch 0
  end.

Fixpoint walk (items : list PdfOutlineNode) (parentPath : jsstring) (index : Z)
  : list FlattenedOutlineNode :=
  match items with
  | [] => []
  | it :: rest => walkItem parentPath index it ++ walk rest parentPath (index + 1)
  end.

Definition flattenOutlineWithPath (nodes : list PdfOutlineNode)
  : list FlattenedOutlineNode :=
  walk nodes [] 0.

(** The test of the [for] loop in [resolveSectionPageRange]: a later node
    at the same or a shallower depth with a positive page number. *)
Definition closes (current next : FlattenedOutlineNode) : bool :=
  (depth next <=? depth current)
  && match pageNumber next with Some q => 0 <? q | None => false end.

(** The loop over the later nodes, with its [break]. *)
Fixpoint scanLater (later : list FlattenedOutlineNode)
         (current : FlattenedOutlineNode) (endPageNumber : Z) : Z :=
  match later with
  | [] => endPageNumber
  | next :: rest =>
    if closes current next
    then default 0 (pageNumber next) - 1
    else scanLater rest current endPageNumber
  end.

(** [resolveSectionPageRange].  Page numbers are integers, so
    [Math.floor] leaves them as they are.  [None] is the [TypeError] of
    reading [pageNumber] of an index outside the array. *)
Definition resolveSectionPageRange (flattened : list FlattenedOutlineNode)
           (currentIndex : nat) (numPages : Z) : option PageRange :=
  match flattened !! currentIndex with
  | None => None
  | Some current =>
    match pageNumber current with
    | None => Some (mkRange None None)
    | Some p =>
      if p <=? 0 then Some (mkRange None None)
      else
        let safeNumPages := if 0 <? numPages then numPages else p in
        let startPageNumber := Z.max 1 p in
        let endPageNumber := Z.max startPageNumber safeNumPages in
        let endPageNumber :=
          scanLater (drop (S currentIndex) flattened) current endPageNumber in
        let endPageNumber :=
          if endPageNumber <? startPageNumber then startPageNumber
          else endPageNumber in
        Some (mkRange (Some startPageNumber) (Some endPageNumber))
    end
  end.

(** [resolveDocumentPageCount], given [pdf.numPages] when it is a
    positive number. *)
Definition resolveDocumentPageCount (pdfPageCount : option Z)
           (flattened : list FlattenedOutlineNode) : Z :=
  match pdfPageCount with
  | Some n => if 0 <? n then n else
      let m := foldl (λ m node, match pageNumber node with
                                | Some p => if p <=? 0 then m else Z.max m p
                                | None => m end) 0 flattened in
      if 0 <? m then m else 1
  | None =>
      let m := foldl (λ m node, match pageNumber node with
                                | Some p => if p <=? 0 then m else Z.max m p
                                | None => m end) 0 flattened in
      if 0 <? m then m else 1
  end.

Definition bookmark (t : jsstring) (page : Z) : PdfOutlineNode :=
  OutlineNode t (Some page) None [] 0.

Example flatten_nested :
  map path (flattenOutlineWithPath
    [OutlineNode (lit "A") (Some 1) None
       [OutlineNode (lit "A1") None None [] 1;
        OutlineNode (lit "A2") (Some 3) None
          [OutlineNode (lit "A2x") (Some 4) None [] 2] 1] 0;
     bookmark (lit "B") 9])
  = [lit "1"; lit "1.1"; lit "1.2"; lit "1.2.1"; lit "2"].
Proof. reflexivity. Qed.

Lemma scanLater_none later current e :
  Forall (λ n, closes current n = false) later →
  scanLater later current e = e.
Proof.
  induction 1 as [|n later Hn _ IH]; simpl; [done|]. by rewrite Hn.
Qed.

Lemma scanLater_first pre next post current e :
  Forall (λ n, closes current n = false) pre →
  closes current next = true →
  scanLater (pre ++ next :: post) current e = default 0 (pageNumber next) - 1.
Proof.
  intros Hpre Hn. induction Hpre as [|n pre Hc _ IH]; simpl.
  - by rewrite Hn.
  - by rewrite Hc.
Qed.

Lemma later_split {A} (l : list A) (i j : nat) (x : A) :
  (i < j)%nat → l !! j = Some x →
  drop (S i) l = take (j - S i) (drop (S i) l) ++ x :: drop (S j) l.
Proof.
  intros Hij Hj.
  rewrite <- (take_drop (j - S i) (drop (S i) l)) at 1. f_equal.
  rewrite drop_drop. replace (S i + (j - S i))%nat with j by lia.
  by apply drop_S.
Qed.

(** The loop test, in the words of the claim: [next] stops the scan for
    [current] exactly when its depth is at most that of [current] and its
    page number is resolved and positive. *)
Lemma closes_iff current next :
  closes current next = true ↔
  depth next ≤ depth current ∧ ∃ q, pageNumber next = Some q ∧ 0 < q.
Proof.
  unfold closes. rewrite andb_true_iff, Z.leb_le.
  destruct (pageNumber next) as [q|].
  - rewrite Z.ltb_lt. naive_solver.
  - naive_solver.
Qed.

Lemma closes_not current next :
  closes current next = false ↔
  ¬ (depth next ≤ depth current ∧ ∃ q, pageNumber next = Some q ∧ 0 < q).
Proof. rewrite <- closes_iff. by destruct (closes current next). Qed.

(** C2.  For a node with a resolved (hence positive) page number [p]:
    the range starts at [p]; it ends at [q - 1], where [q] is the page of
    the first later node whose depth is at most the depth of the node and
    whose page number is resolved and positive, and at the document's last
    page when there is no such node; either way the end is clamped so
    that it is not before the start.  Depth-0 bookmarks at pages 1, 5 and
    12 get [1,4], [5,11] and [12, lastPage].  A node without a page
    number, or with one that is not positive, gets the undefined range. *)
Theorem resolveSectionPageRange_spec
    (flattened : list FlattenedOutlineNode) (i : nat)
    (current : FlattenedOutlineNode) (numPages : Z) :
  flattened !! i = Some current → 0 < numPages →
  (∀ p, pageNumber current = Some p → 0 < p →
     (∀ j next q,
        (i < j)%nat → flattened !! j = Some next →
        depth next ≤ depth current → pageNumber next = Some q → 0 < q →
        (∀ k n, (i < k < j)%nat → flattened !! k = Some n →
                depth current < depth n
                ∨ pageNumber n = None
                ∨ ∃ q', pageNumber n = Some q' ∧ q' ≤ 0) →
        resolveSectionPageRange flattened i numPages
        = Some (mkRange (Some p) (Some (Z.max p (q - 1)))))
     ∧ ((∀ k n, (i < k)%nat → flattened !! k = Some n →
                depth current < depth n
                ∨ pageNumber n = None
                ∨ ∃ q', pageNumber n = Some q' ∧ q' ≤ 0) →
        resolveSectionPageRange flattened i numPages
        = Some (mkRange (Some p) (Some (Z.max p numPages))))
     ∧ (∃ e, resolveSectionPageRange flattened i numPages
             = Some (mkRange (Some p) (Some e)) ∧ p ≤ e))
  ∧ (pageNumber current = None ∨ (∃ p, pageNumber current = Some p ∧ p ≤ 0) →
     resolveSectionPageRange flattened i numPages = Some (mkRange None None))
  ∧ (∀ t1 t2 t3 lastPage, 12 ≤ lastPage →
       let fl := flattenOutlineWithPath
                   [bookmark t1 1; bookmark t2 5; bookmark t3 12] in
       map (λ k, resolveSectionPageRange fl k lastPage) [0; 1; 2]%nat
       = [Some (mkRange (Some 1) (Some 4));
          Some (mkRange (Some 5) (Some 11));
          Some (mkRange (Some 12) (Some lastPage))]).
Proof.
  intros Hi Hn.
  assert (Hopen : ∀ n,
    depth current < depth n ∨ pageNumber n = None
    ∨ (∃ q', pageNumber n = Some q' ∧ q' ≤ 0) →
    closes current n = false).
  { intros n Hcase. apply closes_not. intros (Hd & q & Hq & Hpos).
    destruct Hcase as [?|[?|(q' & ? & ?)]]; [lia | congruence |].
    assert (q' = q) by congruence. lia. }
  split; [|split].
  - intros p Hp Hpos.
    assert (Hunfold : ∀ e,
      scanLater (drop (S i) flattened) current (Z.max (Z.max 1 p) numPages) = e →
      resolveSectionPageRange flattened i numPages
      = Some (mkRange (Some p) (Some (Z.max p e)))).
    { intros e He. unfold resolveSectionPageRange. rewrite Hi, Hp.
      destruct (Z.leb_spec p 0); [lia|].
      destruct (Z.ltb_spec 0 numPages); [|lia].
      rewrite He. rewrite (Z.max_r 1 p) by lia.
      destruct (Z.ltb_spec e p); do 3 f_equal; lia. }
    split; [|split].
    + intros j next q Hij Hj Hd Hq Hqpos Hbetween.
      rewrite (Hunfold (q - 1)); [done|].
      rewrite (later_split flattened i j next Hij Hj).
      rewrite scanLater_first; [by rewrite Hq | |].
      * apply Forall_lookup. intros k n Hk.
        apply lookup_take_Some in Hk as [Hk Hlt].
        rewrite lookup_drop in Hk.
        apply Hopen, (Hbetween (S i + k)%nat); [lia | done].
      * apply closes_iff. split; [done|]. by exists q.
    + intros Hnone. rewrite (Hunfold (Z.max (Z.max 1 p) numPages)).
      * do 3 f_equal. lia.
      * apply scanLater_none. apply Forall_lookup. intros k n Hk.
        rewrite lookup_drop in Hk.
        apply Hopen, (Hnone (S i + k)%nat); [lia | done].
    + eexists. split; [by apply Hunfold | lia].
  - intros [Hp|(p & Hp & Hle)]; unfold resolveSectionPageRange; rewrite Hi, Hp;
      [done|]. by destruct (Z.leb_spec p 0); [|lia].
  - intros t1 t2 t3 lastPage Hl. cbn.
    unfold resolveSectionPageRange. cbn.
    destruct (Z.ltb_spec 0 lastPage); [|lia].
    change (1 `max` 12) with 12. change (1 `max` 5) with 5.
    change (1 `max` 1) with 1. cbn.
    rewrite (Z.max_r 12 lastPage) by lia.
    destruct (Z.ltb_spec lastPage 12); [lia|]. done.
Qed.

(** A section followed by a bookmark without a page and a deeper one
    with a page: neither ends it; the bookmark on page 9 does. *)
Lemma resolveSectionPageRange_spec_witness :
  let fl := flattenOutlineWithPath
              [OutlineNode (lit "Intro") (Some 2) None
                 [OutlineNode (lit "Scope") (Some 3) None [] 1] 0;
               OutlineNode (lit "Notes") None None [] 0;
               bookmark (lit "Method") 9] in
  resolveSectionPageRange fl 0 20 = Some (mkRange (Some 2) (Some 8)).
Proof.
  cbv zeta.
  set (fl := flattenOutlineWithPath _).
  destruct (resolveSectionPageRange_spec fl 0
              (mkFlat (lit "Intro") 0 (Some 2) None (lit "1")) 20
              eq_refl eq_refl) as (H & _ & _).
  destruct (H 2 eq_refl eq_refl) as (Hnext & _ & _).
  apply (Hnext 3%nat (mkFlat (lit "Method") 0 (Some 9) None (lit "3")) 9);
    [lia | reflexivity | reflexivity | reflexivity | reflexivity |].
  intros k n Hk Hn.
  assert (k = 1%nat ∨ k = 2%nat) as [-> | ->] by lia; injection Hn as <-.
  - left. reflexivity.
  - right. left. reflexivity.
Defined.

End Outline.

(* ===================================================================== *)
(** ** Evidence enforcement *)
(* ===================================================================== *)

Module Evidence.
Import Js Text.

Definition isDigit (c : N) : bool := ((48 <=? c) && (c <=? 57))%N.

(** [/\[C\d+\]/.test(s)]: after ["[C"], one or more digits and ["]"]. *)
Fixpoint digitsThenClose (s : jsstring) : bool :=
  match s with
  | [] => false
  | c :: r => if (c =? 93)%N then true
              else if isDigit c then digitsThenClose r else false
  end.

Definition markerAt (s : jsstring) : bool :=
  match s with
  | a :: b :: d :: r =>
    (a =? 91)%N && (b =? 67)%N && isDigit d && digitsThenClose r
  | _ => false
  end.

Fixpoint hasEvidenceMarker (s : jsstring) : bool :=
  markerAt s ||
  match s with
  | [] => false
  | _ :: r => hasEvidenceMarker r
  end.

(** [clipText] *)
Definition clipText (t : jsstring) (maxChars : Z) : jsstring :=
  if len t <=? maxChars then t
  else trim (slice t 0 maxChars) ++ lit "...".

Definition disclaimer : jsstring :=
  utf16 "근거 인용이 누락되어 답변 신뢰도를 보장하기 어렵습니다.".

Definition contextHeader : jsstring := utf16 "검토용 컨텍스트:".

Definition snippet (index : nat) (chunk : TextChunk) : jsstring :=
  lit "[C" ++ decimal (Z.of_nat index + 1) ++ lit "] " ++ clipText (text chunk) 220.

(** [enforceEvidence]; [required] is what [isEvidenceRequired()] reads
    from the preferences. *)
Definition enforceEvidence (required : bool) (answer : jsstring)
           (chunks : list TextChunk) : jsstring :=
  let clean := trim answer in
  if negb required || bool_decide (chunks = []) || hasEvidenceMarker clean
  then clean
  else
    let snippets := join [10%N] (imap snippet (slice chunks 0 3)) in
    join [10%N] [disclaimer; clean; []; contextHeader; snippets].

Example disclaimer_length : len disclaimer = 31 ∧ len contextHeader = 9.
Proof. split; reflexivity. Qed.

Example marker_examples :
  hasEvidenceMarker (lit "see [C12].") = true
  ∧ hasEvidenceMarker (lit "see [C].") = false
  ∧ hasEvidenceMarker (lit "see [C1 ].") = false
  ∧ clipText (lit "ab  cd") 3 = lit "ab...".
Proof. repeat split; reflexivity. Qed.

Lemma ws_not_marker_char c :
  isWhiteSpace c = true →
  (c =? 91)%N = false ∧ (c =? 93)%N = false ∧ isDigit c = false.
Proof.
  intros H. unfold isDigit. repeat split.
  - destruct (N.eqb_spec c 91); [subst; discriminate H | done].
  - destruct (N.eqb_spec c 93); [subst; discriminate H | done].
  - destruct (N.leb_spec 48 c), (N.leb_spec c 57); try done.
    exfalso. unfold isWhiteSpace in H.
    repeat match type of H with
    | context [(?a <=? ?b)%N] => destruct (N.leb_spec a b); try lia
    | context [(?a =? ?b)%N] => destruct (N.eqb_spec a b); try lia
    end; simpl in H; try discriminate H.
Qed.

Lemma hasEvidenceMarker_dropWhile s :
  hasEvidenceMarker (dropWhile isWhiteSpace s) = hasEvidenceMarker s.
Proof.
  induction s as [|c r IH]; [done|]. cbn [dropWhile].
  destruct (isWhiteSpace c) eqn:E; [|done].
  rewrite IH. cbn [hasEvidenceMarker].
  destruct (ws_not_marker_char c E) as (H1 & _ & _).
  unfold markerAt. destruct r as [|b [|d r']]; try done. by rewrite H1.
Qed.

Lemma digitsThenClose_snoc_ws r c :
  isWhiteSpace c = true → digitsThenClose (r ++ [c]) = digitsThenClose r.
Proof.
  intros E. destruct (ws_not_marker_char c E) as (_ & H2 & H3).
  induction r as [|x r IH]; simpl.
  - by rewrite H2, H3.
  - destruct (x =? 93)%N; [done|]. destruct (isDigit x); [apply IH | done].
Qed.

Lemma markerAt_snoc_ws s c :
  isWhiteSpace c = true → markerAt (s ++ [c]) = markerAt s.
Proof.
  intros E. destruct (ws_not_marker_char c E) as (_ & H2 & H3).
  destruct s as [|a [|b [|d r]]]; simpl; try done.
  - by rewrite H3, !andb_false_r.
  - by rewrite digitsThenClose_snoc_ws.
Qed.

Lemma hasEvidenceMarker_snoc_ws s c :
  isWhiteSpace c = true → hasEvidenceMarker (s ++ [c]) = hasEvidenceMarker s.
Proof.
  intros E. induction s as [|a s IH].
  - done.
  - change ((a :: s) ++ [c]) with (a :: (s ++ [c])).
    cbn [hasEvidenceMarker]. rewrite IH. f_equal.
    by apply (markerAt_snoc_ws (a :: s)).
Qed.

Lemma hasEvidenceMarker_app_ws s k :
  Forall (λ c, isWhiteSpace c = true) k →
  hasEvidenceMarker (s ++ k) = hasEvidenceMarker s.
Proof.
  intros Hk. revert s. induction Hk as [|c k Hc _ IH]; intros s.
  - by rewrite app_nil_r.
  - rewrite (cons_middle c s k), app_assoc, IH.
    by apply hasEvidenceMarker_snoc_ws.
Qed.

Lemma trimEnd_suffix s :
  ∃ k, s = trimEnd s ++ k ∧ Forall (λ c, isWhiteSpace c = true) k.
Proof.
  destruct (dropWhile_suffix isWhiteSpace (reverse s)) as (k & Hk & Hws).
  exists (reverse k). split.
  - apply (f_equal reverse) in Hk.
    by rewrite reverse_involutive, reverse_app in Hk.
  - by apply Forall_reverse.
Qed.

(** Trimming cannot create or destroy a citation marker. *)
Lemma hasEvidenceMarker_trim s :
  hasEvidenceMarker (trim s) = hasEvidenceMarker s.
Proof.
  unfold trim. destruct (trimEnd_suffix (trimStart s)) as (k & Hk & Hws).
  rewrite <- (hasEvidenceMarker_dropWhile s). fold (trimStart s).
  rewrite Hk at 2. by rewrite hasEvidenceMarker_app_ws.
Qed.

Lemma isPrefixOf_app p s : isPrefixOf p (p ++ s) = true.
Proof. induction p as [|a p IH]; simpl; [done|]. by rewrite N.eqb_refl. Qed.

Lemma includes_app before s after : includes (before ++ s ++ after) s = true.
Proof.
  induction before as [|c before IH].
  - simpl. destruct (s ++ after) eqn:E; simpl;
      rewrite <- ?E, isPrefixOf_app; done.
  - change ((c :: before) ++ ?x) with (c :: (before ++ x)).
    cbn [includes]. rewrite IH. apply orb_true_r.
Qed.

(** *** The marker, in the words of the claim *)

(** A marker [[C<digits>]] somewhere in the text: ["[C"], one or more
    decimal digits, ["]"]. *)
Definition containsMarker (s : jsstring) : Prop :=
  ∃ before digits after,
    s = before ++ lit "[C" ++ digits ++ lit "]" ++ after
    ∧ digits ≠ [] ∧ Forall (λ c, (48 ≤ c ≤ 57)%N) digits.

Lemma isDigit_iff c : isDigit c = true ↔ (48 ≤ c ≤ 57)%N.
Proof. unfold isDigit. rewrite andb_true_iff, !N.leb_le. done. Qed.

Lemma digitsThenClose_iff r :
  digitsThenClose r = true ↔
  ∃ digits after, r = digits ++ lit "]" ++ after
                  ∧ Forall (λ c, (48 ≤ c ≤ 57)%N) digits.
Proof.
  split.
  - induction r as [|c r IH]; simpl; [done|].
    destruct (N.eqb_spec c 93) as [->|Hc].
    + intros _. by exists [], r.
    + destruct (isDigit c) eqn:Ed; [|done]. intros H.
      destruct (IH H) as (digits & after & -> & Hd).
      exists (c :: digits), after. split; [done|].
      constructor; [by apply isDigit_iff | done].
  - intros (digits & after & -> & Hd).
    induction Hd as [|c digits Hc _ IH]; simpl; [done|].
    destruct (N.eqb_spec c 93) as [->|_]; [lia|].
    apply isDigit_iff in Hc. by rewrite Hc.
Qed.

Lemma markerAt_iff s :
  markerAt s = true ↔
  ∃ digits after, s = lit "[C" ++ digits ++ lit "]" ++ after
                  ∧ digits ≠ [] ∧ Forall (λ c, (48 ≤ c ≤ 57)%N) digits.
Proof.
  split.
  - destruct s as [|a [|b [|d r]]]; simpl; try done.
    rewrite !andb_true_iff. intros [[[Ha Hb] Hd] Hr].
    apply N.eqb_eq in Ha as ->. apply N.eqb_eq in Hb as ->.
    apply digitsThenClose_iff in Hr as (digits & after & -> & Hds).
    exists (d :: digits), after. split; [done|]. split; [done|].
    constructor; [by apply isDigit_iff | done].
  - intros (digits & after & -> & Hne & Hd).
    destruct Hd as [|d digits Hdd Hd]; [done|]. simpl.
    apply isDigit_iff in Hdd. rewrite Hdd. simpl.
    apply digitsThenClose_iff. by exists digits, after.
Qed.

(** The test of the code finds exactly the markers of the claim. *)
Lemma hasEvidenceMarker_iff s : hasEvidenceMarker s = true ↔ containsMarker s.
Proof.
  unfold containsMarker. split.
  - induction s as [|c s IH].
    + simpl. done.
    + cbn [hasEvidenceMarker]. intros H. apply orb_true_iff in H as [H|H].
      * apply markerAt_iff in H as (digits & after & -> & Hne & Hd).
        by exists [], digits, after.
      * destruct (IH H) as (before & digits & after & -> & Hne & Hd).
        by exists (c :: before), digits, after.
  - intros (before & digits & after & -> & Hne & Hd).
    induction before as [|c before IH].
    + assert (Hm : markerAt ([] ++ lit "[C" ++ digits ++ lit "]" ++ after) = true).
      { apply markerAt_iff. by exists digits, after. }
      revert Hm. simpl. intros ->. done.
    + change ((c :: before) ++ ?x) with (c :: (before ++ x)).
      cbn [hasEvidenceMarker]. rewrite IH. apply orb_true_r.
Qed.

Lemma hasEvidenceMarker_not s : hasEvidenceMarker s = false ↔ ¬ containsMarker s.
Proof. rewrite <- hasEvidenceMarker_iff. by destruct (hasEvidenceMarker s). Qed.

Definition someChunk : TextChunk := mkChunk (lit "chunk-1") (lit "text") 0 4.

(** What the function does with any string, trimmed or not: with
    evidence required, no marker in the answer and a non-empty chunk
    list, the result is the disclaimer, the trimmed answer, an empty line,
    the header and one snippet line for each of the first three chunks; in
    every other case it is the trimmed answer. *)
Lemma enforceEvidence_cases (required : bool) (answer : jsstring)
      (chunks : list TextChunk) :
  (required = true → hasEvidenceMarker answer = false → chunks ≠ [] →
     enforceEvidence required answer chunks
     = disclaimer ++ [10%N] ++ trim answer ++ [10%N; 10%N]
       ++ contextHeader ++ [10%N] ++ join [10%N] (imap snippet (take 3 chunks))
     ∧ (1 ≤ length (take 3 chunks) ≤ 3)%nat
     ∧ ∀ i c, take 3 chunks !! i = Some c →
         imap snippet (take 3 chunks) !! i
         = Some (lit "[C" ++ decimal (Z.of_nat i + 1) ++ lit "] "
                 ++ clipText (text c) 220))
  ∧ (required = false ∨ chunks = [] ∨ hasEvidenceMarker answer = true →
     enforceEvidence required answer chunks = trim answer).
Proof.
  split.
  - intros -> Hm Hc. split; [|split].
    + unfold enforceEvidence. rewrite hasEvidenceMarker_trim, Hm.
      rewrite bool_decide_eq_false_2 by done. cbn [negb orb].
      rewrite slice_prefix by lia. reflexivity.
    + rewrite length_take. destruct chunks; [done|]. cbn [length]. lia.
    + intros i c Hi. rewrite list_lookup_imap, Hi. done.
  - intros H. unfold enforceEvidence. rewrite hasEvidenceMarker_trim.
    destruct H as [-> | [-> | ->]]; [done | |].
    + by rewrite bool_decide_eq_true_2, orb_true_r.
    + by rewrite orb_true_r.
Qed.

(** On a string with white space around it, which the one caller never
    passes, the function works on the trimmed string. *)
Example enforceEvidence_trims :
  enforceEvidence true (lit " [C1] ok ") [someChunk] = lit "[C1] ok"
  ∧ includes (enforceEvidence true (lit "  so") [someChunk]) (lit "so") = true.
Proof. split; reflexivity. Qed.

(** C6.  [enforceEvidence] is called with the answer of the model as
    [requestLLM] returns it, which has no white space at either end.  For
    such an answer: when evidence is required, the answer contains no
    marker [[C<digits>]] and the chunk list is not empty, the result is
    the disclaimer, then the whole answer, then an empty line, the header
    and one snippet line for each of the first three chunks, at least one
    and at most three, labelled [[C1]], [[C2]], [[C3]]; when the answer
    contains a marker, or evidence is not required, or there is no chunk,
    the result is the answer, unmodified. *)
Theorem enforceEvidence_spec (required : bool) (answer : jsstring)
        (chunks : list TextChunk) :
  trim answer = answer →
  (required = true → ¬ containsMarker answer → chunks ≠ [] →
     enforceEvidence required answer chunks
     = disclaimer ++ [10%N] ++ answer ++ [10%N; 10%N]
       ++ contextHeader ++ [10%N] ++ join [10%N] (imap snippet (take 3 chunks))
     ∧ (1 ≤ length (take 3 chunks) ≤ 3)%nat
     ∧ (∀ i c, take 3 chunks !! i = Some c →
          imap snippet (take 3 chunks) !! i
          = Some (lit "[C" ++ decimal (Z.of_nat i + 1) ++ lit "] "
                  ++ clipText (text c) 220))
     ∧ includes (enforceEvidence required answer chunks) answer = true)
  ∧ (required = false ∨ chunks = [] ∨ containsMarker answer →
     enforceEvidence required answer chunks = answer).
Proof.
  intros Htrim.
  destruct (enforceEvidence_cases required answer chunks) as [Hadd Hplain].
  rewrite Htrim in Hadd, Hplain. split.
  - intros Hr Hm Hc. apply hasEvidenceMarker_not in Hm.
    destruct (Hadd Hr Hm Hc) as (Heq & Hlen & Hsn).
    split; [exact Heq|]. split; [done|]. split; [done|].
    rewrite Heq, (app_assoc disclaimer). apply includes_app.
  - intros H. apply Hplain. by rewrite hasEvidenceMarker_iff.
Qed.

Lemma enforceEvidence_spec_witness :
  enforceEvidence true (lit "It uses attention.") [someChunk]
  = disclaimer ++ [10%N] ++ lit "It uses attention." ++ [10%N; 10%N]
    ++ contextHeader ++ [10%N] ++ lit "[C1] text"
  ∧ enforceEvidence true (lit "It uses attention [C1].") [someChunk]
    = lit "It uses attention [C1].".
Proof.
  split.
  - destruct (enforceEvidence_spec true (lit "It uses attention.") [someChunk]
                eq_refl) as (H & _).
    assert (Hno : ¬ containsMarker (lit "It uses attention.")).
    { apply hasEvidenceMarker_not. reflexivity. }
    destruct (H eq_refl Hno ltac:(discriminate)) as (-> & _). reflexivity.
  - destruct (enforceEvidence_spec true (lit "It uses attention [C1].")
                [someChunk] eq_refl) as (_ & H).
    apply H. right. right. apply hasEvidenceMarker_iff. reflexivity.
Defined.

End Evidence.

(* ===================================================================== *)
(** ** The store, its world and the effects of the program *)
(* ===================================================================== *)

Module Store.
Import Js Text.

Inductive ChatRole := user | assistant.

Record ChatSectionLink := mkLink {
  linkTitle : jsstring;
  linkPath : option jsstring;
  linkPageNumber : option Z;
  linkAttachmentItemID : option Z;
}.

Record ChatMessage := mkMessage {
  role : ChatRole;
  content : jsstring;
  createdAt : jsstring;
  sectionLinks : option (list ChatSectionLink);
}.

Record PaperIndex := mkIndex {
  hash : jsstring;
  title : jsstring;
  source : jsstring;
  chunks : list TextChunk;
  updatedAt : jsstring;
}.

Record ConversationMemory := mkMemory {
  summary : jsstring;
  memoryUpdatedAt : jsstring;
  turnCount : Z;
}.

Record PaperEmbeddings := mkEmbeddings {
  endpoint : jsstring;
  model : jsstring;
  chunkHashes : gmap jsstring jsstring;
  vectors : gmap jsstring (list float);
  embeddingsUpdatedAt : jsstring;
}.

(** [PaperStore] (its [version] is the constant 2).  The four records
    are objects keyed by [paperID]. *)
Record PaperStore := mkStore {
  papers : gmap jsstring PaperIndex;
  conversations : gmap jsstring (list ChatMessage);
  memories : gmap jsstring ConversationMemory;
  embeddings : gmap jsstring PaperEmbeddings;
}.

Definition emptyStore : PaperStore := mkStore ∅ ∅ ∅ ∅.

Record ServiceConfig := mkConfig {
  cfgEndpoint : jsstring;
  cfgModel : jsstring;
}.

(** A Zotero item, as far as the index manager reads it: two fields, and
    for an attachment the content of the [.zotero-ft-cache] file beside
    it (empty when there is none). *)
Record Item := mkItem {
  itemID : Z;
  fieldTitle : jsstring;
  fieldAbstractNote : jsstring;
  ftCache : jsstring;
}.

Record ResolvedPaper := mkResolved {
  paperID : jsstring;
  resolvedTitle : jsstring;
  paperItem : Item;
  attachmentItem : option Item;
}.

Record SummaryProgress := mkProgress {
  percent : float;
  stage : jsstring;
}.

(** [PdfSectionContext], produced by the outline module. *)
Record PdfSectionContext := mkContext {
  ctxTitle : jsstring;
  ctxDepth : Z;
  ctxPageNumber : option Z;
  ctxStartPageNumber : option Z;
  ctxEndPageNumber : option Z;
  ctxPath : jsstring;
  ctxContextText : jsstring;
}.

Inductive Exn := Error (message : string).

Inductive Result (A : Type) :=
| Ok (a : A)
| Throw (e : Exn).
Arguments Ok {A} a.
Arguments Throw {A} e.

(** Everything outside the functions that they read or change: the
    module-level caches, the store file, the preferences, the clock, the
    remote services (their replies are given in the order of the calls),
    the log and the progress handler. *)
Record World := mkWorld {
  storeCache : option PaperStore;
  diskFile : option PaperStore;
  writes : list PaperStore;
  indexCache : gmap jsstring PaperIndex;
  dataDirectory : bool;
  clock : jsstring;
  embeddingConfig : ServiceConfig;
  hybridSearch : bool;
  embedServer : nat → list jsstring → Result (list (list float));
  embedRequests : list (list jsstring);
  llmConfig : ServiceConfig;
  llmServer : nat → Result jsstring;
  llmCalls : nat;
  pdfSections : Z → Result (list PdfSectionContext);
  logs : list string;
  progress : list SummaryProgress;
}.

Definition set_storeCache (v : option PaperStore) (w : World) : World :=
  mkWorld v (diskFile w) (writes w) (indexCache w) (dataDirectory w) (clock w)
          (embeddingConfig w) (hybridSearch w) (embedServer w) (embedRequests w)
          (llmConfig w) (llmServer w) (llmCalls w) (pdfSections w) (logs w)
          (progress w).

Definition write_file (payload : PaperStore) (w : World) : World :=
  mkWorld (storeCache w) (Some payload) (writes w ++ [payload]) (indexCache w)
          (dataDirectory w) (clock w)
          (embeddingConfig w) (hybridSearch w) (embedServer w) (embedRequests w)
          (llmConfig w) (llmServer w) (llmCalls w) (pdfSections w) (logs w)
          (progress w).

Definition set_indexCache (v : gmap jsstring PaperIndex) (w : World) : World :=
  mkWorld (storeCache w) (diskFile w) (writes w) v (dataDirectory w) (clock w)
          (embeddingConfig w) (hybridSearch w) (embedServer w) (embedRequests w)
          (llmConfig w) (llmServer w) (llmCalls w) (pdfSections w) (logs w)
          (progress w).

Definition add_embedRequest (texts : list jsstring) (w : World) : World :=
  mkWorld (storeCache w) (diskFile w) (writes w) (indexCache w) (dataDirectory w)
          (clock w) (embeddingConfig w) (hybridSearch w) (embedServer w)
          (embedRequests w ++ [texts])
          (llmConfig w) (llmServer w) (llmCalls w) (pdfSections w) (logs w)
          (progress w).

Definition count_llmCall (w : World) : World :=
  mkWorld (storeCache w) (diskFile w) (writes w) (indexCache w) (dataDirectory w)
          (clock w) (embeddingConfig w) (hybridSearch w) (embedServer w)
          (embedRequests w) (llmConfig w) (llmServer w) (S (llmCalls w))
          (pdfSections w) (logs w) (progress w).

Definition add_log (entry : string) (w : World) : World :=
  mkWorld (storeCache w) (diskFile w) (writes w) (indexCache w) (dataDirectory w)
          (clock w) (embeddingConfig w) (hybridSearch w) (embedServer w)
          (embedRequests w) (llmConfig w) (llmServer w) (llmCalls w)
          (pdfSections w) (logs w ++ [entry]) (progress w).

Definition add_progress (p : SummaryProgress) (w : World) : World :=
  mkWorld (storeCache w) (diskFile w) (writes w) (indexCache w) (dataDirectory w)
          (clock w) (embeddingConfig w) (hybridSearch w) (embedServer w)
          (embedRequests w) (llmConfig w) (llmServer w) (llmCalls w)
          (pdfSections w) (logs w) (progress w ++ [p]).

(** *** The monad of an [async] function: state and exceptions *)

Definition M (A : Type) : Type := World → Result A * World.

#[global] Instance M_ret : MRet M := λ A a w, (Ok a, w).

#[global] Instance M_bind : MBind M := λ A B f m w,
  match m w with
  | (Ok a, w') => f a w'
  | (Throw e, w') => (Throw e, w')
  end.

Definition throw {A} (message : string) : M A := λ w, (Throw (Error message), w).
Definition getWorld : M World := λ w, (Ok w, w).
Definition modify (f : World → World) : M unit := λ w, (Ok tt, f w).

(** [try { body } catch (e) { handler }] *)
Definition tryCatch {A} (body : M A) (handler : Exn → M A) : M A := λ w,
  match body w with
  | (Ok a, w') => (Ok a, w')
  | (Throw e, w') => handler e w'
  end.

Definition log (entry : string) : M unit := modify (add_log entry).

(** *** The JSON store *)

(** [getStorePath] fails when Zotero's data directory is unavailable. *)
Definition getStorePath : M unit :=
  w ← getWorld;
  if dataDirectory w then mret tt
  else throw "Zotero data directory is unavailable.".

(** [loadStore]: the cached object, or the file's content; a missing,
    empty or unparsable file gives the empty store. *)
Definition loadStore : M PaperStore :=
  w ← getWorld;
  match storeCache w with
  | Some store => mret store
  | None =>
    _ ← getStorePath;
    let store := default emptyStore (diskFile w) in
    _ ← modify (set_storeCache (Some store));
    mret store
  end.

(** [persistStore]: the payload is the store as it is when the write is
    queued; a failing write is caught inside the queue.  Calls are run one
    after the other here, so the write has landed when the call returns. *)
Definition persistStore (store : PaperStore) : M unit :=
  _ ← modify (set_storeCache (Some store));
  _ ← getStorePath;
  modify (write_file store).

(** An assignment to a property of the store object.  The object is the
    one [storeCache] refers to, so the cache sees the change at once. *)
Definition assignStore (f : PaperStore → PaperStore) : M PaperStore :=
  w ← getWorld;
  let store := f (default emptyStore (storeCache w)) in
  _ ← modify (set_storeCache (Some store));
  mret store.

Definition set_papers (v : gmap jsstring PaperIndex) (s : PaperStore) :=
  mkStore v (conversations s) (memories s) (embeddings s).
Definition set_conversations (v : gmap jsstring (list ChatMessage)) (s : PaperStore) :=
  mkStore (papers s) v (memories s) (embeddings s).
Definition set_memories (v : gmap jsstring ConversationMemory) (s : PaperStore) :=
  mkStore (papers s) (conversations s) v (embeddings s).
Definition set_embeddings (v : gmap jsstring PaperEmbeddings) (s : PaperStore) :=
  mkStore (papers s) (conversations s) (memories s) v.

End Store.

(* ===================================================================== *)
(** ** Paper index manager *)
(* ===================================================================== *)

Module IndexManager.
Import Js Text Store.

(** [loadPaperText]: the PDF's cached text, else the abstract, else the
    title; the pair is [(text, source)]. *)
Definition loadPaperText (resolved : ResolvedPaper) : jsstring * jsstring :=
  let pdfText :=
    match attachmentItem resolved with
    | Some attachment => normalizeText (ftCache attachment)
    | None => []
    end in
  match pdfText with
  | _ :: _ => (pdfText, lit "pdf-cache")
  | [] =>
    let abstractText := stripHTML (fieldAbstractNote (paperItem resolved)) in
    match abstractText with
    | _ :: _ => (abstractText, lit "abstract")
    | [] =>
      match fieldTitle (paperItem resolved) with
      | _ :: _ => (fieldTitle (paperItem resolved), lit "title")
      | [] => ([], lit "none")
      end
    end
  end.

Definition buildPaperIndex (resolved : ResolvedPaper) (src normalizedText : jsstring)
  : M PaperIndex :=
  match chunkText normalizedText with
  | [] => throw "No readable paper content found. Index the PDF in Zotero first."
  | chunks =>
    w ← getWorld;
    mret (mkIndex (hashText normalizedText) (resolvedTitle resolved) src chunks
                  (clock w))
  end.

(** The three-way comparison that lets a stored index be reused. *)
Definition unchanged (existing : PaperIndex) (resolved : ResolvedPaper)
           (src normalizedText : jsstring) : bool :=
  bool_decide (hash existing = hashText normalizedText)
  && bool_decide (source existing = src)
  && bool_decide (title existing = resolvedTitle resolved).

Definition cacheIndex (id : jsstring) (index : PaperIndex) : M unit :=
  modify (λ w, set_indexCache (<[id := index]> (indexCache w)) w).

(** [ensurePaperIndex], after the look into [indexCache]. *)
Definition ensureFromStore (resolved : ResolvedPaper) : M PaperIndex :=
  store ← loadStore;
  let existing := papers store !! paperID resolved in
  let paperText := loadPaperText resolved in
  let normalizedText := normalizeText paperText.1 in
  let rebuild : M PaperIndex :=
    index ← buildPaperIndex resolved paperText.2 normalizedText;
    store ← assignStore (λ s, set_papers (<[paperID resolved := index]> (papers s)) s);
    _ ← cacheIndex (paperID resolved) index;
    _ ← persistStore store;
    mret index in
  match existing with
  | Some existing =>
    if unchanged existing resolved paperText.2 normalizedText
    then _ ← cacheIndex (paperID resolved) existing; mret existing
    else rebuild
  | None => rebuild
  end.

Definition ensurePaperIndex (resolved : ResolvedPaper) : M PaperIndex :=
  w ← getWorld;
  match indexCache w !! paperID resolved with
  | Some cached =>
    if bool_decide (source cached = lit "pdf-cache") then mret cached
    else ensureFromStore resolved
  | None => ensureFromStore resolved
  end.

(** The store object a call would load. *)
Definition storeOf (w : World) : PaperStore :=
  default (default emptyStore (diskFile w)) (storeCache w).

(** Does [indexCache] hold an index built from the PDF text? *)
Definition cachedPdf (w : World) (id : jsstring) : bool :=
  match indexCache w !! id with
  | Some cached => bool_decide (source cached = lit "pdf-cache")
  | None => false
  end.

(** A world to start from: nothing cached or stored, and remote services
    that fail. *)
Definition world0 : World :=
  mkWorld None None [] ∅ true (lit "2024-01-01T00:00:00.000Z")
          (mkConfig (lit "http://e/embeddings") (lit "embed"))
          false
          (λ _ _, Throw (Error "offline")) []
          (mkConfig (lit "http://e/chat/completions") (lit "chat"))
          (λ _, Throw (Error "offline")) O
          (λ _, Throw (Error "no outline")) [] [].

Definition paperWith (cache : string) : ResolvedPaper :=
  mkResolved (lit "42") (lit "A paper")
             (mkItem 42 (lit "A paper") [] [])
             (Some (mkItem 43 [] [] (lit cache))).

(** Unfold the monad's plumbing in the goal. *)
Ltac run_monad :=
  repeat (progress (unfold mbind, M_bind, mret, M_ret, getWorld, getStorePath,
                      modify, throw, log, tryCatch; simpl)).

#[local] Arguments chunkText : simpl never.
#[local] Arguments normalizeText : simpl never.
#[local] Arguments hashText : simpl never.
#[local] Arguments loadPaperText : simpl never.

Lemma set_storeCache_id w s : storeCache w = Some s → set_storeCache (Some s) w = w.
Proof. destruct w; simpl; by intros ->. Qed.

Lemma set_indexCache_id w : set_indexCache (indexCache w) w = w.
Proof. by destruct w. Qed.

Lemma unchanged_true existing resolved src norm :
  unchanged existing resolved src norm = true ↔
  hash existing = hashText norm ∧ source existing = src
  ∧ title existing = resolvedTitle resolved.
Proof.
  unfold unchanged. rewrite !andb_true_iff, !bool_decide_eq_true. tauto.
Qed.

Lemma unchanged_false existing resolved src norm :
  unchanged existing resolved src norm = false ↔
  hash existing ≠ hashText norm ∨ source existing ≠ src
  ∨ title existing ≠ resolvedTitle resolved.
Proof.
  unfold unchanged. rewrite !andb_false_iff, !bool_decide_eq_false. tauto.
Qed.

Lemma loadStore_run w :
  dataDirectory w = true ∨ is_Some (storeCache w) →
  loadStore w = (Ok (storeOf w), set_storeCache (Some (storeOf w)) w).
Proof.
  intros H. unfold loadStore, storeOf. run_monad.
  destruct (storeCache w) as [s|] eqn:E; simpl.
  - by rewrite set_storeCache_id.
  - destruct H as [->|[? ?]]; [done|congruence].
Qed.

Lemma loadStore_ok w store wl :
  loadStore w = (Ok store, wl) →
  store = storeOf w
  ∧ wl = set_storeCache (Some (storeOf w)) w.
Proof.
  unfold loadStore, storeOf. run_monad.
  destruct (storeCache w) as [s|] eqn:Ec.
  - intros [= <- <-]. by rewrite set_storeCache_id.
  - destruct (dataDirectory w); [|done]. by intros [= <- <-].
Qed.

(** The outcome of [ensureFromStore] when the stored index is reused. *)
Lemma ensureFromStore_reuse resolved w existing :
  dataDirectory w = true ∨ is_Some (storeCache w) →
  papers (storeOf w) !! paperID resolved = Some existing →
  unchanged existing resolved (loadPaperText resolved).2
            (normalizeText (loadPaperText resolved).1) = true →
  ensureFromStore resolved w
  = (Ok existing,
     set_indexCache (<[paperID resolved := existing]> (indexCache w))
                    (set_storeCache (Some (storeOf w)) w)).
Proof.
  intros Hd He Hu. unfold ensureFromStore.
  unfold mbind at 1. unfold M_bind at 1. rewrite loadStore_run by done.
  cbv zeta. rewrite He, Hu. reflexivity.
Qed.

(** The outcome of [ensureFromStore] when the index is built anew. *)
Lemma ensureFromStore_rebuild resolved w :
  dataDirectory w = true →
  (∀ existing, papers (storeOf w) !! paperID resolved = Some existing →
     unchanged existing resolved (loadPaperText resolved).2
               (normalizeText (loadPaperText resolved).1) = false) →
  chunkText (normalizeText (loadPaperText resolved).1) ≠ [] →
  let index :=
    mkIndex (hashText (normalizeText (loadPaperText resolved).1))
            (resolvedTitle resolved) (loadPaperText resolved).2
            (chunkText (normalizeText (loadPaperText resolved).1)) (clock w) in
  let store' :=
    set_papers (<[paperID resolved := index]> (papers (storeOf w))) (storeOf w) in
  ensureFromStore resolved w
  = (Ok index,
     write_file store'
       (set_indexCache (<[paperID resolved := index]> (indexCache w))
                       (set_storeCache (Some store') w))).
Proof.
  intros Hd He Hc index store'. unfold ensureFromStore.
  unfold mbind at 1. unfold M_bind at 1. rewrite loadStore_run by auto.
  cbv zeta.
  assert (Hrun :
    (index0 ← buildPaperIndex resolved (loadPaperText resolved).2
                (normalizeText (loadPaperText resolved).1);
     store0 ← assignStore
       (λ s, set_papers (<[paperID resolved := index0]> (papers s)) s);
     _ ← cacheIndex (paperID resolved) index0;
     _ ← persistStore store0; mret index0)
      (set_storeCache (Some (storeOf w)) w)
    = (Ok index,
       write_file store'
         (set_indexCache (<[paperID resolved := index]> (indexCache w))
                         (set_storeCache (Some store') w)))).
  { unfold buildPaperIndex. subst index store'.
    destruct (chunkText (normalizeText (loadPaperText resolved).1)) eqn:Ec; [done|].
    unfold assignStore, cacheIndex, persistStore. run_monad.
    rewrite Hd. by destruct w. }
  destruct (papers (storeOf w) !! paperID resolved) as [ex|] eqn:E.
  - rewrite (He ex eq_refl). exact Hrun.
  - exact Hrun.
Qed.

(** A second call with the same resolved paper changes nothing and
    returns the same index. *)
Lemma ensurePaperIndex_again resolved w index w1 :
  ensurePaperIndex resolved w = (Ok index, w1) →
  ensurePaperIndex resolved w1 = (Ok index, w1).
Proof.
  (* After a successful call: the index is in [indexCache], and, unless
     it came from the PDF text, it is the stored one and is unchanged. *)
  assert (Hgoal : indexCache w1 !! paperID resolved = Some index →
    (source index = lit "pdf-cache"
     ∨ (is_Some (storeCache w1)
        ∧ papers (storeOf w1) !! paperID resolved = Some index
        ∧ unchanged index resolved (loadPaperText resolved).2
                    (normalizeText (loadPaperText resolved).1) = true)) →
    ensurePaperIndex resolved w1 = (Ok index, w1)).
  { intros Hc Hcase. unfold ensurePaperIndex. run_monad.
    rewrite Hc. destruct (bool_decide (source index = lit "pdf-cache")) eqn:Eb.
    - reflexivity.
    - destruct Hcase as [Hs|(Hsome & He & Hu)].
      { apply bool_decide_eq_false in Eb. done. }
      rewrite (ensureFromStore_reuse resolved w1 index) by auto.
      f_equal. rewrite insert_id by done.
      destruct Hsome as [s Hs]. unfold storeOf. rewrite Hs. simpl.
      rewrite set_storeCache_id by done. apply set_indexCache_id. }
  unfold ensurePaperIndex. unfold mbind at 1. unfold M_bind at 1.
  unfold getWorld. cbn beta iota.
  assert (Hstore : ∀ w, ensureFromStore resolved w = (Ok index, w1) →
    ensurePaperIndex resolved w1 = (Ok index, w1)).
  { clear w. intros w. unfold ensureFromStore. unfold mbind at 1. unfold M_bind at 1.
    destruct (loadStore w) as [[store|e] wl] eqn:El; [|done].
    assert (Hwl : storeCache wl = Some store ∧ indexCache wl = indexCache w
                  ∧ storeOf wl = store).
    { revert El. unfold loadStore. run_monad.
      destruct (storeCache w) as [s|] eqn:Ec.
      - intros [= <- <-]. unfold storeOf. by rewrite Ec.
      - destruct (dataDirectory w); [|done]. by intros [= <- <-]. }
    destruct Hwl as (Hc & Hi & Hso). cbv zeta.
    set (src := (loadPaperText resolved).2).
    set (norm := normalizeText (loadPaperText resolved).1).
    assert (Hbuild :
      (index0 ← buildPaperIndex resolved src norm;
       store0 ← assignStore
         (λ s, set_papers (<[paperID resolved := index0]> (papers s)) s);
       _ ← cacheIndex (paperID resolved) index0;
       _ ← persistStore store0; mret index0) wl = (Ok index, w1) →
      ensurePaperIndex resolved w1 = (Ok index, w1)).
    { unfold buildPaperIndex.
      destruct (chunkText norm) as [|c cs] eqn:Ech; [done|].
      unfold assignStore, cacheIndex, persistStore. run_monad.
      destruct (dataDirectory wl); simpl; [|done].
      intros [= <- <-]. apply Hgoal; simpl.
      - by rewrite lookup_insert_eq.
      - right. split; [done|]. unfold storeOf. simpl.
        rewrite lookup_insert_eq. split; [done|].
        apply unchanged_true. done. }
    destruct (papers store !! paperID resolved) as [ex|] eqn:Ee; [|exact Hbuild].
    destruct (unchanged ex resolved src norm) eqn:Eu; [|exact Hbuild].
    unfold cacheIndex. run_monad.
    intros [= <- <-]. apply Hgoal; simpl.
    - by rewrite lookup_insert_eq.
    - right. split; [by rewrite Hc|]. unfold storeOf in *. simpl.
      rewrite Hso. done. }
  destruct (indexCache w !! paperID resolved) as [cached|] eqn:Ec; [|apply Hstore].
  destruct (bool_decide (source cached = lit "pdf-cache")) eqn:Eb; [|apply Hstore].
  unfold mret, M_ret. intros [= <- <-].
  apply Hgoal; [done|]. left. by apply bool_decide_eq_true in Eb.
Qed.

Definition indexAlpha : PaperIndex :=
  mkIndex (hashText (lit "alpha beta")) (lit "A paper") (lit "pdf-cache")
          [mkChunk (lit "chunk-1") (lit "alpha beta") 0 10] (clock world0).

(** C4, as stated, fails: once an index built from the PDF text is in
    [indexCache], a call returns it without reading the paper again.
    After the text of the paper has changed, the call still returns the
    old index, whose hash is not that of the new text, and writes
    nothing. *)
Lemma ensurePaperIndex_keeps_cached_pdf :
  let first := ensurePaperIndex (paperWith "alpha beta") world0 in
  let second := ensurePaperIndex (paperWith "gamma delta") first.2 in
  first.1 = Ok indexAlpha
  ∧ loadPaperText (paperWith "gamma delta") = (lit "gamma delta", lit "pdf-cache")
  ∧ papers (storeOf first.2) !! lit "42" = Some indexAlpha
  ∧ hash indexAlpha ≠ hashText (normalizeText (lit "gamma delta"))
  ∧ second.1 = Ok indexAlpha
  ∧ writes second.2 = writes first.2
  ∧ length (writes first.2) = 1%nat.
Proof.
  cbv zeta. repeat split; try (vm_compute; reflexivity).
  vm_compute. discriminate.
Qed.

(** The outcome of [ensureFromStore] when an index would be built and
    the text gives no chunk: the call throws after loading the store. *)
Lemma ensureFromStore_no_content resolved w :
  dataDirectory w = true ∨ is_Some (storeCache w) →
  (∀ existing, papers (storeOf w) !! paperID resolved = Some existing →
     unchanged existing resolved (loadPaperText resolved).2
               (normalizeText (loadPaperText resolved).1) = false) →
  chunkText (normalizeText (loadPaperText resolved).1) = [] →
  ensureFromStore resolved w
  = (Throw (Error "No readable paper content found. Index the PDF in Zotero first."),
     set_storeCache (Some (storeOf w)) w).
Proof.
  intros Hd He Hc. unfold ensureFromStore.
  unfold mbind at 1. unfold M_bind at 1. rewrite loadStore_run by done.
  cbv zeta. unfold buildPaperIndex. rewrite Hc.
  destruct (papers (storeOf w) !! paperID resolved) as [ex|] eqn:E.
  - by rewrite (He ex eq_refl).
  - done.
Qed.

(** C4 (amended).  A second call for the same paper with unchanged
    text, source and title returns the index of the first call and
    changes nothing, so nothing is written.  An index built from the PDF
    text that is held in [indexCache] is returned as it is.  Otherwise the
    stored index is returned without a write when its hash, source and
    title are those of the paper now, and else (none stored, or one of
    the three differs) the index is built anew from the current text, put
    in the store under the paper's id in place of the old entry, cached
    and written, provided the text gives at least one chunk; when it
    gives none, the call fails, nothing is written and the stored and the
    cached indexes stay as they are. *)
Theorem ensurePaperIndex_spec (resolved : ResolvedPaper) (w : World) :
  let id := paperID resolved in
  let src := (loadPaperText resolved).2 in
  let norm := normalizeText (loadPaperText resolved).1 in
  (∀ index w1, ensurePaperIndex resolved w = (Ok index, w1) →
     ensurePaperIndex resolved w1 = (Ok index, w1))
  ∧ (∀ cached, indexCache w !! id = Some cached →
       source cached = lit "pdf-cache" →
       ensurePaperIndex resolved w = (Ok cached, w))
  ∧ (dataDirectory w = true → cachedPdf w id = false →
     (∀ existing, papers (storeOf w) !! id = Some existing →
        hash existing = hashText norm → source existing = src →
        title existing = resolvedTitle resolved →
        ∃ w', ensurePaperIndex resolved w = (Ok existing, w')
              ∧ writes w' = writes w ∧ diskFile w' = diskFile w
              ∧ storeCache w' = Some (storeOf w))
     ∧ ((∀ existing, papers (storeOf w) !! id = Some existing →
           hash existing ≠ hashText norm ∨ source existing ≠ src
           ∨ title existing ≠ resolvedTitle resolved) →
        chunkText norm ≠ [] →
        let index := mkIndex (hashText norm) (resolvedTitle resolved) src
                             (chunkText norm) (clock w) in
        let store' := set_papers (<[id := index]> (papers (storeOf w)))
                                 (storeOf w) in
        ∃ w', ensurePaperIndex resolved w = (Ok index, w')
              ∧ writes w' = writes w ++ [store']
              ∧ diskFile w' = Some store'
              ∧ storeCache w' = Some store'
              ∧ indexCache w' !! id = Some index)
     ∧ ((∀ existing, papers (storeOf w) !! id = Some existing →
           hash existing ≠ hashText norm ∨ source existing ≠ src
           ∨ title existing ≠ resolvedTitle resolved) →
        chunkText norm = [] →
        ∃ e w', ensurePaperIndex resolved w = (Throw e, w')
                ∧ writes w' = writes w ∧ diskFile w' = diskFile w
                ∧ storeCache w' = Some (storeOf w)
                ∧ indexCache w' = indexCache w)).
Proof.
  intros id src norm. split; [|split].
  - intros index w1. apply ensurePaperIndex_again.
  - intros cached Hc Hs. unfold ensurePaperIndex. run_monad.
    fold id. rewrite Hc. by rewrite bool_decide_eq_true_2.
  - intros Hd Hcp.
    assert (Hskip : ensurePaperIndex resolved w = ensureFromStore resolved w).
    { unfold ensurePaperIndex. run_monad. unfold cachedPdf in Hcp. fold id.
      destruct (indexCache w !! id); [|done]. by rewrite Hcp. }
    rewrite Hskip. split; [|split].
    + intros existing He Hh Hsrc Ht.
      rewrite (ensureFromStore_reuse resolved w existing); auto.
      * eexists. split; [reflexivity|]. by destruct w.
      * apply unchanged_true. done.
    + intros He Hch index store'.
      rewrite ensureFromStore_rebuild; auto.
      * eexists. split; [reflexivity|]. simpl.
        split; [done|]. split; [done|]. split; [done|].
        apply lookup_insert_eq.
      * intros existing Hex. apply unchanged_false. by apply He.
    + intros He Hch. rewrite ensureFromStore_no_content; auto.
      * eexists _, _. split; [reflexivity|]. done.
      * intros existing Hex. apply unchanged_false. by apply He.
Qed.

(** A paper known by its abstract only, and one of which nothing can be
    read. *)
Definition paperAbstract : ResolvedPaper :=
  mkResolved (lit "7") (lit "Attention")
             (mkItem 7 (lit "Attention") (lit "<p>Attention is all you need.</p>") [])
             None.

Definition paperBlank : ResolvedPaper :=
  mkResolved (lit "9") [] (mkItem 9 [] [] []) None.

(** The first call for [paperAbstract] builds and writes an index, the
    second returns it and writes nothing; the call for [paperBlank]
    fails and writes nothing. *)
Lemma ensurePaperIndex_spec_witness :
  (∃ index w1,
     ensurePaperIndex paperAbstract world0 = (Ok index, w1)
     ∧ source index = lit "abstract"
     ∧ length (writes w1) = 1%nat
     ∧ ensurePaperIndex paperAbstract w1 = (Ok index, w1))
  ∧ (∃ e w1, ensurePaperIndex paperBlank world0 = (Throw e, w1)
             ∧ writes w1 = [] ∧ diskFile w1 = None).
Proof.
  split.
  - destruct (ensurePaperIndex_spec paperAbstract world0) as (Hagain & _ & Hstore).
    destruct (Hstore eq_refl eq_refl) as (_ & Hbuild & _).
    destruct Hbuild as (w1 & Hrun & Hw & _).
    + intros existing Hex. vm_compute in Hex. discriminate.
    + vm_compute. discriminate.
    + eexists _, w1. split; [exact Hrun|]. split; [reflexivity|].
      split; [by rewrite Hw|]. by apply Hagain.
  - destruct (ensurePaperIndex_spec paperBlank world0) as (_ & _ & Hstore).
    destruct (Hstore eq_refl eq_refl) as (_ & _ & Hfail).
    destruct Hfail as (e & w1 & Hrun & Hw & Hd & _).
    + intros existing Hex. vm_compute in Hex. discriminate.
    + vm_compute. reflexivity.
    + by exists e, w1.
Defined.

End IndexManager.

(* ===================================================================== *)
(** ** Embedding cache manager *)
(* ===================================================================== *)

Module Embeddings.
Import Js Text Store.

Definition EMBEDDING_BATCH_SIZE : Z := 12.

(** [requestEmbeddings]: the configuration check, the POST (recorded in
    [embedRequests]; the server's reply is the list of vectors read from
    the response, or a failure), and the size check. *)
Definition requestEmbeddings (texts : list jsstring) : M (list (list float)) :=
  match texts with
  | [] => mret []
  | _ :: _ =>
    w ← getWorld;
    let config := embeddingConfig w in
    if bool_decide (cfgEndpoint config = []) || bool_decide (cfgModel config = [])
    then throw "Set embedding endpoint/model in plugin preferences before hybrid search."
    else
      _ ← modify (add_embedRequest texts);
      match embedServer w (length (embedRequests w)) texts with
      | Throw (Error message) => throw message
      | Ok vectors =>
        if bool_decide (length vectors = length texts) then mret vectors
        else throw "Embedding response size mismatch."
      end
  end.

Definition requestEmbedding (t : jsstring) : M (list float) :=
  vectors ← requestEmbeddings [t];
  mret (default [] (head vectors)).

(** The loop over [Object.keys(working.vectors)]: a key that is not a
    chunk id of the index loses its vector and its hash. *)
Definition prune (ids : list jsstring) (st : PaperEmbeddings * bool)
           (key : jsstring) : PaperEmbeddings * bool :=
  if bool_decide (key ∈ ids) then st
  else (mkEmbeddings (endpoint st.1) (model st.1)
                     (delete key (chunkHashes st.1))
                     (delete key (vectors st.1))
                     (embeddingsUpdatedAt st.1), true).

(** The test that puts a chunk on the [missing] list. *)
Definition needsEmbedding (working : PaperEmbeddings) (chunk : TextChunk) : bool :=
  bool_decide (chunkHashes working !! id chunk ≠ Some (hashText (text chunk)))
  || match vectors working !! id chunk with
     | None => true
     | Some [] => true
     | Some (_ :: _) => false
     end.

(** The inner [for] loop: [vectors[j]] goes to [batch[j]]. *)
Definition storeOne (st : PaperEmbeddings * bool)
           (pair : TextChunk * list float) : PaperEmbeddings * bool :=
  (mkEmbeddings (endpoint st.1) (model st.1)
                (<[id pair.1 := hashText (text pair.1)]> (chunkHashes st.1))
                (<[id pair.1 := pair.2]> (vectors st.1))
                (embeddingsUpdatedAt st.1), true).

Definition storeBatch (batch : list TextChunk) (vecs : list (list float))
           (st : PaperEmbeddings * bool) : PaperEmbeddings * bool :=
  foldl storeOne st (zip batch vecs).

(** The outer [for] loop, [i += EMBEDDING_BATCH_SIZE]; [missing.length]
    rounds of fuel are more than it takes. *)
Fixpoint embedBatches (fuel : nat) (missing : list TextChunk) (i : Z)
         (st : PaperEmbeddings * bool) : M (PaperEmbeddings * bool) :=
  match fuel with
  | O => mret st
  | S fuel' =>
    if i <? len missing then
      let batch := slice missing i (i + EMBEDDING_BATCH_SIZE) in
      vecs ← requestEmbeddings (map text batch);
      embedBatches fuel' missing (i + EMBEDDING_BATCH_SIZE) (storeBatch batch vecs st)
    else mret st
  end.

Definition isReset (entry : option PaperEmbeddings) (config : ServiceConfig) : bool :=
  match entry with
  | None => true
  | Some e => bool_decide (endpoint e ≠ cfgEndpoint config)
              || bool_decide (model e ≠ cfgModel config)
  end.

Definition startWorking (entry : option PaperEmbeddings) (config : ServiceConfig)
           (now : jsstring) : PaperEmbeddings :=
  match entry with
  | Some e => if isReset entry config
              then mkEmbeddings (cfgEndpoint config) (cfgModel config) ∅ ∅ now
              else e
  | None => mkEmbeddings (cfgEndpoint config) (cfgModel config) ∅ ∅ now
  end.

Definition keysOf {V} (m : gmap jsstring V) : list jsstring :=
  (map_to_list m).*1.

Definition nonEmptyVectors (m : gmap jsstring (list float)) : gmap jsstring (list float) :=
  filter (λ kv, kv.2 ≠ []) m.

Definition getOrCreateChunkEmbeddings (paperID : jsstring) (index : PaperIndex)
  : M (gmap jsstring (list float)) :=
  store ← loadStore;
  w ← getWorld;
  let embeddingConfig := embeddingConfig w in
  let entry := embeddings store !! paperID in
  let reset := isReset entry embeddingConfig in
  let working := startWorking entry embeddingConfig (clock w) in
  let validChunkIDs := map id (chunks index) in
  let pruned := foldl (prune validChunkIDs) (working, reset) (keysOf (vectors working)) in
  let missing := filter (λ chunk, needsEmbedding pruned.1 chunk = true) (chunks index) in
  '(working, dirty) ← embedBatches (length missing) missing 0 pruned;
  if dirty : bool then
    w ← getWorld;
    let working := mkEmbeddings (endpoint working) (model working)
                                (chunkHashes working) (vectors working) (clock w) in
    store ← assignStore (λ s, set_embeddings (<[paperID := working]> (embeddings s)) s);
    _ ← persistStore store;
    mret (nonEmptyVectors (vectors working))
  else mret (nonEmptyVectors (vectors working)).

(** *** What one round of embedding does to the working cache *)

(** [Embedded cs st r]: [r] is [st] after the chunks [cs] got fresh
    vectors and hashes; every other key is as it was. *)
Definition Embedded (cs : list TextChunk) (st r : PaperEmbeddings * bool) : Prop :=
  endpoint r.1 = endpoint st.1 ∧ model r.1 = model st.1
  ∧ embeddingsUpdatedAt r.1 = embeddingsUpdatedAt st.1
  ∧ (∀ k, k ∉ map id cs →
       vectors r.1 !! k = vectors st.1 !! k
       ∧ chunkHashes r.1 !! k = chunkHashes st.1 !! k)
  ∧ (∀ c, c ∈ cs →
       is_Some (vectors r.1 !! id c)
       ∧ ∃ c', c' ∈ cs ∧ id c' = id c
               ∧ chunkHashes r.1 !! id c = Some (hashText (text c')))
  ∧ r.2 = st.2 || bool_decide (cs ≠ []).

Lemma Embedded_nil st : Embedded [] st st.
Proof.
  unfold Embedded. split_and!; try done.
  - intros c Hc. by apply elem_of_nil in Hc.
  - by rewrite bool_decide_eq_false_2, orb_false_r by (intros H; by apply H).
Qed.

Lemma Embedded_app a b st m r :
  Embedded a st m → Embedded b m r → Embedded (a ++ b) st r.
Proof.
  intros (Ha1 & Ha2 & Ha3 & Ha4 & Ha5 & Ha6) (Hb1 & Hb2 & Hb3 & Hb4 & Hb5 & Hb6).
  unfold Embedded. split_and!; try congruence.
  - intros k H. rewrite map_app, not_elem_of_app in H. destruct H as [H1 H2].
    destruct (Ha4 k H1) as [<- <-]. by destruct (Hb4 k H2) as [<- <-].
  - intros c H. destruct (decide (id c ∈ map id b)) as [Hin|Hout].
    + apply list_elem_of_fmap in Hin as (c0 & Hid & Hc0).
      destruct (Hb5 c0 Hc0) as (Hv & c' & Hc' & Hid' & Hh).
      rewrite Hid. split; [done|].
      exists c'. split; [apply elem_of_app; by right|]. done.
    + destruct (Hb4 _ Hout) as [-> ->].
      apply elem_of_app in H as [H|H].
      * destruct (Ha5 c H) as (Hv & c' & Hc' & Hid' & Hh). split; [done|].
        exists c'. split; [apply elem_of_app; by left|]. done.
      * exfalso. apply Hout. by apply list_elem_of_fmap_2.
  - rewrite Hb6, Ha6. destruct st.2; [done|]. simpl.
    destruct a, b; done.
Qed.

Lemma Embedded_one c v st : Embedded [c] st (storeOne st (c, v)).
Proof.
  unfold Embedded, storeOne. simpl. split_and!; try done.
  - intros k H.
    assert (id c ≠ k) by (intros E; apply H; rewrite E; by left).
    by rewrite !lookup_insert_ne.
  - intros c0 H. apply list_elem_of_singleton in H as ->.
    rewrite !lookup_insert_eq. split; [by eexists|].
    exists c. split; [by left|]. done.
  - by rewrite orb_true_r.
Qed.

Lemma storeBatch_spec batch vecs st :
  length vecs = length batch → Embedded batch st (storeBatch batch vecs st).
Proof.
  revert vecs st. induction batch as [|c batch IH]; intros vecs st Hl.
  - apply Embedded_nil.
  - destruct vecs as [|v vecs]; [done|]. injection Hl as Hl.
    change (c :: batch) with ([c] ++ batch).
    eapply Embedded_app; [apply (Embedded_one c v)|].
    unfold storeBatch. simpl. by apply IH.
Qed.

(** *** The request *)

Lemma requestEmbeddings_ok texts w vecs w' :
  requestEmbeddings texts w = (Ok vecs, w') →
  length vecs = length texts
  ∧ (texts = [] → w' = w)
  ∧ (texts ≠ [] → w' = add_embedRequest texts w).
Proof.
  unfold requestEmbeddings. destruct texts as [|t texts].
  - intros [= <- <-]. done.
  - IndexManager.run_monad.
    destruct (bool_decide (cfgEndpoint (embeddingConfig w) = [])
              || bool_decide (cfgModel (embeddingConfig w) = [])); [done|].
    destruct (embedServer w (length (embedRequests w)) (t :: texts))
      as [vectors|[message]]; [|done].
    case_bool_decide as E; [|done].
    intros [= <- <-]. done.
Qed.

(** The requests a run of the loop adds to the world. *)
Definition sent (reqs : list (list jsstring)) (w : World) : World :=
  foldl (λ w q, add_embedRequest q w) w reqs.

(** [answered w reqs replies]: the service, asked [reqs] one after the
    other from the world [w] on, gave [replies], each with one vector for
    each text of its request. *)
Definition answered (w : World) (reqs : list (list jsstring))
           (replies : list (list (list float))) : Prop :=
  length replies = length reqs
  ∧ ∀ j q, reqs !! j = Some q →
      ∃ vs, replies !! j = Some vs ∧ length vs = length q
            ∧ embedServer w (length (embedRequests w) + j)%nat q = Ok vs.

Lemma answered_nil w : answered w [] [].
Proof. split; [done|]. intros j q H. by rewrite lookup_nil in H. Qed.

Lemma answered_cons w q vs reqs replies :
  length vs = length q →
  embedServer w (length (embedRequests w)) q = Ok vs →
  answered (add_embedRequest q w) reqs replies →
  answered w (q :: reqs) (vs :: replies).
Proof.
  intros Hl Hq [Hlen Hrest]. split; [simpl; by rewrite Hlen|].
  intros [|j] q' Hj; simpl in Hj.
  - injection Hj as <-. exists vs. by rewrite Nat.add_0_r.
  - destruct (Hrest j q' Hj) as (vs' & H1 & H2 & H3).
    exists vs'. split; [done|]. split; [done|].
    revert H3. simpl. rewrite length_app. simpl.
    by replace (length (embedRequests w) + 1 + j)%nat
      with (length (embedRequests w) + S j)%nat by lia.
Qed.

(** The reply to a request that [requestEmbeddings] lets through. *)
Lemma requestEmbeddings_reply texts w vecs w' :
  requestEmbeddings texts w = (Ok vecs, w') → texts ≠ [] →
  embedServer w (length (embedRequests w)) texts = Ok vecs.
Proof.
  unfold requestEmbeddings. destruct texts as [|t texts]; [done|].
  IndexManager.run_monad.
  destruct (bool_decide (cfgEndpoint (embeddingConfig w) = [])
            || bool_decide (cfgModel (embeddingConfig w) = [])); [done|].
  destruct (embedServer w (length (embedRequests w)) (t :: texts))
    as [vectors|[message]]; [|done].
  case_bool_decide as E; [|done].
  by intros [= <- <-].
Qed.

Lemma embedBatches_ok fuel missing i st w r w' :
  embedBatches fuel missing i st w = (Ok r, w') →
  0 ≤ i → len missing - i ≤ Z.of_nat fuel →
  Embedded (drop (Z.to_nat i) missing) st r
  ∧ ∃ reqs replies,
      w' = sent reqs w
      ∧ concat reqs = map text (drop (Z.to_nat i) missing)
      ∧ Forall (λ q, (1 ≤ length q ≤ 12)%nat) reqs
      ∧ answered w reqs replies
      ∧ length (concat replies) = length (drop (Z.to_nat i) missing)
      ∧ r = foldl storeOne st (zip (drop (Z.to_nat i) missing) (concat replies)).
Proof.
  revert i st w. induction fuel as [|fuel IH]; intros i st w Hrun Hi Hf.
  - injection Hrun as <- <-.
    rewrite drop_ge by (unfold len in *; lia).
    split; [apply Embedded_nil|]. exists [], [].
    split_and!; first [done | apply answered_nil].
  - cbn [embedBatches] in Hrun.
    destruct (Z.ltb_spec i (len missing)) as [Hlt|Hge].
    2:{ injection Hrun as <- <-.
        rewrite drop_ge by (unfold len in *; lia).
        split; [apply Embedded_nil|]. exists [], [].
        split_and!; first [done | apply answered_nil]. }
    revert Hrun. unfold mbind at 1. unfold M_bind at 1.
    rewrite slice_nonneg by (unfold EMBEDDING_BATCH_SIZE; lia).
    replace (i + EMBEDDING_BATCH_SIZE - i) with 12 by (unfold EMBEDDING_BATCH_SIZE; lia).
    set (rest := drop (Z.to_nat i) missing).
    set (batch := take (Z.to_nat 12) rest).
    destruct (requestEmbeddings (map text batch) w) as [[vecs|e] w1] eqn:Ereq; [|done].
    intros Hrun.
    assert (Hrest : (0 < length rest)%nat).
    { subst rest. rewrite length_drop. unfold len in *. lia. }
    assert (Hbatch : (1 ≤ length batch ≤ 12)%nat).
    { subst batch. rewrite length_take. lia. }
    destruct (requestEmbeddings_ok _ _ _ _ Ereq) as (Hlen & _ & Hw1).
    assert (map text batch ≠ []) as Hne.
    { intros E. apply (f_equal length) in E. rewrite length_map in E. simpl in E. lia. }
    pose proof (requestEmbeddings_reply _ _ _ _ Ereq Hne) as Hreply.
    specialize (Hw1 Hne). subst w1.
    destruct (IH _ _ _ Hrun)
      as (Hemb & reqs & replies & Hw' & Hcat & Hall & Hans & Hcl & Hr);
      [unfold EMBEDDING_BATCH_SIZE; lia | unfold EMBEDDING_BATCH_SIZE; lia |].
    assert (Hdrop : drop (Z.to_nat (i + EMBEDDING_BATCH_SIZE)) missing
                    = drop (Z.to_nat 12) rest).
    { subst rest. rewrite drop_drop. f_equal. unfold EMBEDDING_BATCH_SIZE. lia. }
    rewrite Hdrop in *.
    split.
    + rewrite <- (take_drop (Z.to_nat 12) rest).
      eapply Embedded_app; [|exact Hemb]. apply storeBatch_spec.
      by rewrite Hlen, length_map.
    + exists (map text batch :: reqs), (vecs :: replies). split; [done|]. split.
      { simpl. rewrite Hcat, <- map_app. f_equal. apply take_drop. }
      split; [constructor; [by rewrite length_map | done]|].
      split; [by apply answered_cons|].
      rewrite length_map in Hlen. split.
      { simpl. rewrite length_app, Hcl, Hlen. subst batch.
        by rewrite <- length_app, take_drop. }
      rewrite Hr. unfold storeBatch. rewrite <- foldl_app. f_equal.
      transitivity (zip (batch ++ drop (Z.to_nat 12) rest) (vecs ++ concat replies)).
      { symmetry. by apply zip_with_app. }
      subst batch. by rewrite take_drop.
Qed.

(** *** Where a stored vector comes from *)

Lemma foldl_storeOne_other pairs st k :
  (∀ p, p ∈ pairs → id p.1 ≠ k) →
  vectors (foldl storeOne st pairs).1 !! k = vectors st.1 !! k
  ∧ chunkHashes (foldl storeOne st pairs).1 !! k = chunkHashes st.1 !! k.
Proof.
  revert st. induction pairs as [|p pairs IH]; intros st Hk; [done|].
  cbn [foldl]. destruct (IH (storeOne st p)) as [-> ->].
  { intros p' Hp'. apply Hk. by right. }
  assert (id p.1 ≠ k) by (apply Hk; by left).
  unfold storeOne. simpl. by rewrite !lookup_insert_ne.
Qed.

(** The pair of a chunk id that comes last in the loop decides what is
    stored under the id: the vector of the pair and the hash of the
    chunk's text. *)
Lemma foldl_storeOne_last pairs st i c v :
  pairs !! i = Some (c, v) →
  (∀ j p, (i < j)%nat → pairs !! j = Some p → id p.1 ≠ id c) →
  vectors (foldl storeOne st pairs).1 !! id c = Some v
  ∧ chunkHashes (foldl storeOne st pairs).1 !! id c = Some (hashText (text c)).
Proof.
  revert st i. induction pairs as [|p pairs IH]; intros st i Hi Hlater.
  - by rewrite lookup_nil in Hi.
  - cbn [foldl]. destruct i as [|i]; simpl in Hi.
    + injection Hi as ->.
      destruct (foldl_storeOne_other pairs (storeOne st (c, v)) (id c)) as [-> ->].
      { intros p' Hp'. apply list_elem_of_lookup_1 in Hp' as [j Hj].
        apply (Hlater (S j)); [lia | done]. }
      unfold storeOne. simpl. by rewrite !lookup_insert_eq.
    + apply (IH _ i); [done|]. intros j p' Hij Hj.
      apply (Hlater (S j)); [lia | done].
Qed.

Lemma sent_fields reqs w :
  storeCache (sent reqs w) = storeCache w ∧ diskFile (sent reqs w) = diskFile w
  ∧ writes (sent reqs w) = writes w ∧ dataDirectory (sent reqs w) = dataDirectory w
  ∧ clock (sent reqs w) = clock w
  ∧ embedRequests (sent reqs w) = embedRequests w ++ reqs.
Proof.
  revert w. induction reqs as [|q reqs IH]; intros w; simpl.
  - by rewrite app_nil_r.
  - destruct (IH (add_embedRequest q w)) as (-> & -> & -> & -> & -> & ->).
    simpl. by rewrite <- app_assoc.
Qed.

Lemma elem_of_keysOf {V} (m : gmap jsstring V) k :
  k ∈ keysOf m ↔ is_Some (m !! k).
Proof.
  unfold keysOf. rewrite list_elem_of_fmap. split.
  - intros ([k' v] & -> & H). apply elem_of_map_to_list in H. by eexists.
  - intros [v H]. exists (k, v). split; [done|]. by apply elem_of_map_to_list.
Qed.

Lemma prune_lookup {V} (m m' : gmap jsstring V) (ids keys : list jsstring)
      (k0 k : jsstring) :
  ((k0 ∈ ids) ∧ m' = m) ∨ ((k0 ∉ ids) ∧ m' = delete k0 m) →
  (if bool_decide (k ∈ keys ∧ k ∉ ids) then None else m' !! k)
  = if bool_decide (k ∈ k0 :: keys ∧ k ∉ ids) then None else m !! k.
Proof.
  intros Hm. destruct (decide (k ∈ keys ∧ k ∉ ids)) as [HA|HA].
  - rewrite !bool_decide_eq_true_2; [done | | done].
    destruct HA; split; [by right | done].
  - rewrite (bool_decide_eq_false_2 _ HA).
    destruct Hm as [[H0 ->]|[H0 ->]].
    + rewrite bool_decide_eq_false_2; [done|].
      intros [Hin Hnot]. apply elem_of_cons in Hin as [->|Hin]; [done|].
      by apply HA.
    + destruct (decide (k = k0)) as [->|Hne].
      * rewrite lookup_delete_eq, bool_decide_eq_true_2; [done|].
        split; [by left|done].
      * rewrite lookup_delete_ne by done.
        rewrite bool_decide_eq_false_2; [done|].
        intros [Hin Hnot]. apply elem_of_cons in Hin as [?|Hin]; [done|].
        by apply HA.
Qed.

Lemma prune_fold ids keys st :
  let r := foldl (prune ids) st keys in
  endpoint r.1 = endpoint st.1 ∧ model r.1 = model st.1
  ∧ embeddingsUpdatedAt r.1 = embeddingsUpdatedAt st.1
  ∧ (∀ k, vectors r.1 !! k
          = if bool_decide (k ∈ keys ∧ k ∉ ids) then None else vectors st.1 !! k)
  ∧ (∀ k, chunkHashes r.1 !! k
          = if bool_decide (k ∈ keys ∧ k ∉ ids) then None
            else chunkHashes st.1 !! k)
  ∧ r.2 = st.2 || bool_decide (filter (λ k, k ∉ ids) keys ≠ []).
Proof.
  revert st. induction keys as [|k0 keys IH]; intros st; cbn zeta.
  - split_and!; try done.
    cbn [foldl]. rewrite bool_decide_eq_false_2, orb_false_r; [done|].
    intros H. by apply H.
  - cbn [foldl]. destruct (IH (prune ids st k0)) as (H1 & H2 & H3 & H4 & H5 & H6).
    rewrite H1, H2, H3, H6. rewrite filter_cons.
    destruct (decide (k0 ∈ ids)) as [H0|H0].
    + assert (prune ids st k0 = st) as Hp.
      { unfold prune. by rewrite bool_decide_eq_true_2. }
      rewrite Hp in *. rewrite decide_False by (intros H; by apply H).
      split_and!; try done.
      * intros k. rewrite H4. apply prune_lookup. by left.
      * intros k. rewrite H5. apply prune_lookup. by left.
    + assert (prune ids st k0
              = (mkEmbeddings (endpoint st.1) (model st.1)
                   (delete k0 (chunkHashes st.1)) (delete k0 (vectors st.1))
                   (embeddingsUpdatedAt st.1), true)) as Hp.
      { unfold prune. by rewrite bool_decide_eq_false_2. }
      rewrite Hp in *. rewrite decide_True by done. simpl.
      split_and!; try done.
      * intros k. rewrite H4. apply prune_lookup. by right.
      * intros k. rewrite H5. apply prune_lookup. by right.
      * by rewrite orb_true_r.
Qed.

Lemma filter_ext_in {A} (P Q : A → Prop) `{∀ x, Decision (P x)}
      `{∀ x, Decision (Q x)} (l : list A) :
  (∀ x, x ∈ l → P x ↔ Q x) → filter P l = filter Q l.
Proof.
  induction l as [|x l IH]; intros Hext; [done|].
  rewrite !filter_cons.
  rewrite IH by (intros y Hy; apply Hext; by right).
  destruct (decide (P x)) as [HP|HP], (decide (Q x)) as [HQ|HQ]; try done.
  - exfalso. apply HQ, Hext; [by left | done].
  - exfalso. apply HP, Hext; [by left | done].
Qed.

(** *** The cache a call works from, and what it has to do *)

(** The stored entry, or the empty cache after a reset. *)
Definition cacheInUse (w : World) (paperID : jsstring) : PaperEmbeddings :=
  startWorking (embeddings (IndexManager.storeOf w) !! paperID)
               (embeddingConfig w) (clock w).

Definition wasReset (w : World) (paperID : jsstring) : bool :=
  isReset (embeddings (IndexManager.storeOf w) !! paperID) (embeddingConfig w).

(** The chunks of the index that are embedded again. *)
Definition missingChunks (w : World) (paperID : jsstring) (index : PaperIndex)
  : list TextChunk :=
  filter (λ c, needsEmbedding (cacheInUse w paperID) c = true) (chunks index).

(** The keys with a vector that are no chunk id of the index. *)
Definition staleKeys (w : World) (paperID : jsstring) (index : PaperIndex)
  : list jsstring :=
  filter (λ k, k ∉ map id (chunks index)) (keysOf (vectors (cacheInUse w paperID))).

Definition changed (w : World) (paperID : jsstring) (index : PaperIndex) : bool :=
  wasReset w paperID
  || bool_decide (staleKeys w paperID index ≠ [])
  || bool_decide (missingChunks w paperID index ≠ []).

(** Every id with a hash has a vector entry.  The empty cache has the
    property and [getOrCreateChunkEmbeddings] keeps it. *)
Definition hashesHaveVectors (e : PaperEmbeddings) : Prop :=
  ∀ k, is_Some (chunkHashes e !! k) → is_Some (vectors e !! k).

Lemma needsEmbedding_iff cache c :
  needsEmbedding cache c = true ↔
  chunkHashes cache !! id c ≠ Some (hashText (text c))
  ∨ vectors cache !! id c = None ∨ vectors cache !! id c = Some [].
Proof.
  unfold needsEmbedding. rewrite orb_true_iff, bool_decide_eq_true.
  destruct (vectors cache !! id c) as [[|x v]|]; naive_solver.
Qed.

Lemma cacheInUse_config w paperID :
  endpoint (cacheInUse w paperID) = cfgEndpoint (embeddingConfig w)
  ∧ model (cacheInUse w paperID) = cfgModel (embeddingConfig w).
Proof.
  unfold cacheInUse, startWorking, isReset.
  destruct (embeddings (IndexManager.storeOf w) !! paperID) as [e|]; [|done].
  destruct (bool_decide (endpoint e ≠ cfgEndpoint (embeddingConfig w))) eqn:E1;
    [done|].
  destruct (bool_decide (model e ≠ cfgModel (embeddingConfig w))) eqn:E2; [done|].
  simpl. apply bool_decide_eq_false in E1, E2.
  split; [by destruct (decide (endpoint e = cfgEndpoint (embeddingConfig w)))
         | by destruct (decide (model e = cfgModel (embeddingConfig w)))].
Qed.

Lemma wasReset_iff w paperID :
  wasReset w paperID = true ↔
  embeddings (IndexManager.storeOf w) !! paperID = None
  ∨ ∃ e, embeddings (IndexManager.storeOf w) !! paperID = Some e
         ∧ (endpoint e ≠ cfgEndpoint (embeddingConfig w)
            ∨ model e ≠ cfgModel (embeddingConfig w)).
Proof.
  unfold wasReset, isReset.
  destruct (embeddings (IndexManager.storeOf w) !! paperID) as [e|].
  - rewrite orb_true_iff, !bool_decide_eq_true. naive_solver.
  - naive_solver.
Qed.

Lemma wasReset_cache w paperID index :
  wasReset w paperID = true →
  vectors (cacheInUse w paperID) = ∅ ∧ chunkHashes (cacheInUse w paperID) = ∅
  ∧ missingChunks w paperID index = chunks index.
Proof.
  unfold wasReset, missingChunks, cacheInUse, startWorking. intros Hr.
  assert (Hcache : ∃ a b t,
    match embeddings (IndexManager.storeOf w) !! paperID with
    | Some e => if isReset (embeddings (IndexManager.storeOf w) !! paperID)
                           (embeddingConfig w)
                then mkEmbeddings (cfgEndpoint (embeddingConfig w))
                                  (cfgModel (embeddingConfig w)) ∅ ∅ (clock w)
                else e
    | None => mkEmbeddings (cfgEndpoint (embeddingConfig w))
                           (cfgModel (embeddingConfig w)) ∅ ∅ (clock w)
    end = mkEmbeddings a b ∅ ∅ t).
  { rewrite Hr. destruct (embeddings _ !! _); by eexists _, _, _. }
  destruct Hcache as (a & b & t & ->). simpl. split; [done|]. split; [done|].
  induction (chunks index) as [|c l IH]; [done|].
  rewrite filter_cons, IH. rewrite decide_True; [done|].
  unfold needsEmbedding. simpl. rewrite !lookup_empty.
  by rewrite bool_decide_eq_true_2.
Qed.

Lemma wasReset_false w paperID :
  wasReset w paperID = false →
  embeddings (IndexManager.storeOf w) !! paperID = Some (cacheInUse w paperID).
Proof.
  unfold wasReset, cacheInUse, startWorking. intros Hr. rewrite Hr.
  destruct (embeddings _ !! _); [done|]. done.
Qed.

(** The state the call reaches before it decides whether to persist. *)
Lemma getOrCreate_loop paperID index w result w' :
  getOrCreateChunkEmbeddings paperID index w = (Ok result, w') →
  let wl := set_storeCache (Some (IndexManager.storeOf w)) w in
  let cache := cacheInUse w paperID in
  let ids := map id (chunks index) in
  let pruned := foldl (prune ids) (cache, wasReset w paperID)
                      (keysOf (vectors cache)) in
  ∃ working reqs replies,
    Embedded (missingChunks w paperID index) pruned
             (working, changed w paperID index)
    ∧ concat reqs = map text (missingChunks w paperID index)
    ∧ Forall (λ q, (1 ≤ length q ≤ 12)%nat) reqs
    ∧ answered w reqs replies
    ∧ length (concat replies) = length (missingChunks w paperID index)
    ∧ working = (foldl storeOne pruned
                       (zip (missingChunks w paperID index) (concat replies))).1
    ∧ (if changed w paperID index then
         let e' := mkEmbeddings (endpoint working) (model working)
                     (chunkHashes working) (vectors working) (clock w) in
         let store' := set_embeddings
                         (<[paperID := e']> (embeddings (IndexManager.storeOf w)))
                         (IndexManager.storeOf w) in
         result = nonEmptyVectors (vectors working)
         ∧ w' = write_file store' (set_storeCache (Some store') (sent reqs wl))
       else result = nonEmptyVectors (vectors working) ∧ w' = sent reqs wl).
Proof.
  intros Hrun wl cache ids pruned. revert Hrun.
  unfold getOrCreateChunkEmbeddings. unfold mbind at 1. unfold M_bind at 1.
  destruct (loadStore w) as [[store|e] wl0] eqn:El; [|done].
  apply IndexManager.loadStore_ok in El as [-> ->]. fold wl.
  unfold mbind at 1. unfold M_bind at 1. unfold getWorld at 1. cbv zeta.
  change (embeddingConfig wl) with (embeddingConfig w).
  change (clock wl) with (clock w).
  fold (cacheInUse w paperID). fold cache. fold (wasReset w paperID). fold ids.
  fold pruned.
  pose proof (prune_fold ids (keysOf (vectors cache)) (cache, wasReset w paperID))
    as (P1 & P2 & P3 & P4 & P5 & P6). fold pruned in P1, P2, P3, P4, P5, P6.
  assert (Hmissing :
    filter (λ chunk, needsEmbedding pruned.1 chunk = true) (chunks index)
    = missingChunks w paperID index).
  { unfold missingChunks. fold cache. apply filter_ext_in. intros c Hc.
    unfold needsEmbedding. rewrite P4, P5. simpl.
    rewrite (bool_decide_eq_false_2 (id c ∈ keysOf (vectors cache) ∧ id c ∉ ids));
      [done|].
    intros [_ Hn]. apply Hn. by apply list_elem_of_fmap_2. }
  rewrite Hmissing. set (missing := missingChunks w paperID index).
  unfold mbind at 1. unfold M_bind at 1.
  destruct (embedBatches (length missing) missing 0 pruned wl)
    as [[[working dirty]|e] w2] eqn:Eb; [|done].
  apply embedBatches_ok in Eb
    as (Hemb & reqs & replies & -> & Hcat & Hall & Hans & Hcl & Hr);
    [|lia|unfold len; lia].
  change (Z.to_nat 0) with O in *. rewrite drop_0 in *.
  assert (Hdirty : dirty = changed w paperID index).
  { destruct Hemb as (_ & _ & _ & _ & _ & Hd). simpl in Hd. rewrite Hd, P6.
    unfold changed, staleKeys. fold cache. fold ids. done. }
  subst dirty. intros Hrun. exists working, reqs, replies.
  split; [done|]. split; [done|]. split; [done|]. split; [exact Hans|].
  split; [done|]. split; [by rewrite <- Hr|].
  destruct (sent_fields reqs wl) as (S1 & S2 & S3 & S4 & S5 & S6).
  destruct (changed w paperID index).
  - revert Hrun. unfold assignStore, persistStore. IndexManager.run_monad.
    rewrite S1, S4, S5. simpl.
    destruct (dataDirectory w); [|done]. by intros [= <- <-].
  - revert Hrun. IndexManager.run_monad. by intros [= <- <-].
Qed.

(** C5.  [getOrCreateChunkEmbeddings], when it returns: the cache it
    works from is the stored entry, or the empty cache when there is no
    entry or its endpoint or model is not the configured one (then every
    chunk is embedded again); a chunk is sent to the embedding service
    exactly when its hash is not the cached one or its cached vector is
    missing or empty, in requests of at most 12 texts, and what is then
    stored for the chunk is the vector the service returned at the chunk's
    place in the request, with the hash of the chunk's text (for two
    chunks with one id, those of the later one); the store is
    written exactly when the cache was reset, a key without a chunk was
    removed, or a chunk was embedded, and then with [updatedAt] set to the
    current time; in the entry that is written no key outside the index
    has a vector, nor a hash when every hashed key had a vector (as in
    every entry this function writes), and the chunks that were not
    embedded keep their vector and hash. *)
Theorem getOrCreateChunkEmbeddings_spec (paperID : jsstring) (index : PaperIndex)
        (w w' : World) (result : gmap jsstring (list float)) :
  getOrCreateChunkEmbeddings paperID index w = (Ok result, w') →
  let config := embeddingConfig w in
  let store := IndexManager.storeOf w in
  let cache := cacheInUse w paperID in
  let ids := map id (chunks index) in
  let missing := missingChunks w paperID index in
  (wasReset w paperID = true ↔
     embeddings store !! paperID = None
     ∨ ∃ e, embeddings store !! paperID = Some e
            ∧ (endpoint e ≠ cfgEndpoint config ∨ model e ≠ cfgModel config))
  ∧ (wasReset w paperID = true →
       vectors cache = ∅ ∧ chunkHashes cache = ∅ ∧ missing = chunks index)
  ∧ (wasReset w paperID = false → embeddings store !! paperID = Some cache)
  ∧ (∀ c, c ∈ missing ↔
       c ∈ chunks index
       ∧ (chunkHashes cache !! id c ≠ Some (hashText (text c))
          ∨ vectors cache !! id c = None ∨ vectors cache !! id c = Some []))
  ∧ (∃ reqs replies,
       embedRequests w' = embedRequests w ++ reqs
       ∧ concat reqs = map text missing
       ∧ Forall (λ q, (1 ≤ length q ≤ 12)%nat) reqs
       ∧ length replies = length reqs
       ∧ (∀ j q, reqs !! j = Some q →
            ∃ vs, replies !! j = Some vs ∧ length vs = length q
                  ∧ embedServer w (length (embedRequests w) + j)%nat q = Ok vs)
       ∧ ∀ i c, missing !! i = Some c →
           (∀ j c', (i < j)%nat → missing !! j = Some c' → id c' ≠ id c) →
           ∃ v e', concat replies !! i = Some v
                   ∧ embeddings (IndexManager.storeOf w') !! paperID = Some e'
                   ∧ vectors e' !! id c = Some v
                   ∧ chunkHashes e' !! id c = Some (hashText (text c))
                   ∧ result !! id c = match v with [] => None | _ => Some v end)
  ∧ (changed w paperID index = false →
       writes w' = writes w ∧ diskFile w' = diskFile w
       ∧ storeCache w' = Some store
       ∧ result = nonEmptyVectors (vectors cache))
  ∧ (changed w paperID index = true →
       ∃ e', let store' := set_embeddings (<[paperID := e']> (embeddings store))
                                          store in
         writes w' = writes w ++ [store'] ∧ diskFile w' = Some store'
         ∧ storeCache w' = Some store'
         ∧ endpoint e' = cfgEndpoint config ∧ model e' = cfgModel config
         ∧ embeddingsUpdatedAt e' = clock w
         ∧ (∀ k, k ∉ ids → vectors e' !! k = None)
         ∧ (hashesHaveVectors cache →
              hashesHaveVectors e' ∧ ∀ k, k ∉ ids → chunkHashes e' !! k = None)
         ∧ (∀ c, c ∈ chunks index → id c ∉ map id missing →
              vectors e' !! id c = vectors cache !! id c
              ∧ chunkHashes e' !! id c = chunkHashes cache !! id c)
         ∧ (∀ c, c ∈ missing →
              is_Some (vectors e' !! id c)
              ∧ ∃ c', c' ∈ missing ∧ id c' = id c
                      ∧ chunkHashes e' !! id c = Some (hashText (text c')))
         ∧ result = nonEmptyVectors (vectors e')).
Proof.
  intros Hrun config store cache ids missing.
  destruct (getOrCreate_loop _ _ _ _ _ Hrun)
    as (working & reqs & replies & Hemb & Hcat & Hall & Hans & Hcl & Hwork & Hend).
  fold cache ids missing store in Hemb, Hcat, Hcl, Hwork, Hend.
  set (wl := set_storeCache (Some store) w) in *.
  pose proof (prune_fold ids (keysOf (vectors cache)) (cache, wasReset w paperID))
    as (P1 & P2 & P3 & P4 & P5 & P6).
  set (pruned := foldl (prune ids) (cache, wasReset w paperID)
                       (keysOf (vectors cache))) in *.
  destruct Hemb as (E1 & E2 & E3 & E4 & E5 & E6). simpl in E1, E2, E3, E4, E5.
  destruct (sent_fields reqs wl) as (S1 & S2 & S3 & S4 & S5 & S6).
  assert (Hsub : ∀ k, k ∈ map id missing → k ∈ ids).
  { intros k Hk. apply list_elem_of_fmap in Hk as (c & -> & Hc).
    apply list_elem_of_filter in Hc as [_ Hc]. by apply list_elem_of_fmap_2. }
  split; [apply wasReset_iff|].
  split; [apply wasReset_cache|].
  split; [apply wasReset_false|].
  split.
  { intros c. unfold missing, missingChunks. rewrite list_elem_of_filter.
    fold cache. rewrite needsEmbedding_iff. tauto. }
  split.
  { exists reqs, replies. destruct Hans as [Hlen Hans].
    split.
    { destruct (changed w paperID index); destruct Hend as [_ ->]; simpl;
        by rewrite S6. }
    split; [done|]. split; [done|]. split; [done|]. split; [exact Hans|].
    intros i c Hi Hlast.
    assert (is_Some (concat replies !! i)) as [v Hv].
    { apply lookup_lt_is_Some. rewrite Hcl. by apply lookup_lt_Some in Hi. }
    assert (Hpair : zip missing (concat replies) !! i = Some (c, v)).
    { apply lookup_zip_with_Some. by exists c, v. }
    destruct (foldl_storeOne_last _ pruned i c v Hpair) as [Hvec Hhash].
    { intros j [c' v'] Hij Hj. apply lookup_zip_with_Some in Hj
        as (c0 & v0 & [= <- <-] & Hc0 & _). simpl. by apply (Hlast j). }
    rewrite <- Hwork in Hvec, Hhash.
    assert (Hchanged : changed w paperID index = true).
    { unfold changed. fold missing. rewrite (bool_decide_eq_true_2 (missing ≠ [])).
      - apply orb_true_r.
      - intros E. rewrite E in Hi. by rewrite lookup_nil in Hi. }
    rewrite Hchanged in Hend. destruct Hend as [-> ->].
    exists v. eexists. split; [done|]. split.
    { unfold IndexManager.storeOf. simpl. apply lookup_insert_eq. }
    simpl. split; [done|]. split; [done|].
    unfold nonEmptyVectors. destruct v as [|x v].
    - apply map_lookup_filter_None. right. intros v' Hv'.
      rewrite Hvec in Hv'. injection Hv' as <-. simpl. by intros H.
    - apply map_lookup_filter_Some. split; [done|]. done. }
  split.
  - intros Hch. rewrite Hch in Hend. destruct Hend as [-> ->].
    unfold changed in Hch. apply orb_false_iff in Hch as [Hch Hm].
    apply orb_false_iff in Hch as [Hr Hs].
    apply bool_decide_eq_false in Hm, Hs.
    assert (missing = []) as Hm' by (by destruct (decide (missing = []))).
    assert (staleKeys w paperID index = []) as Hs'
      by (by destruct (decide (staleKeys w paperID index = []))).
    assert (reqs = []) as ->.
    { rewrite Hm' in Hcat. destruct reqs as [|q reqs]; [done|].
      apply Forall_cons in Hall as [Hq _]. destruct q; simpl in *; [lia|done]. }
    simpl. split; [done|]. split; [done|]. split; [done|]. f_equal.
    apply map_eq. intros k. destruct (E4 k) as [-> _].
    { rewrite Hm'. simpl. apply not_elem_of_nil. }
    rewrite P4. simpl. rewrite bool_decide_eq_false_2; [done|].
    intros [Hk Hn].
    assert (k ∈ staleKeys w paperID index) as Hin.
    { unfold staleKeys. apply list_elem_of_filter. fold cache. done. }
    rewrite Hs' in Hin. by apply elem_of_nil in Hin.
  - intros Hch. rewrite Hch in Hend. destruct Hend as [-> ->].
    destruct (cacheInUse_config w paperID) as [C1 C2]. fold cache in C1, C2.
    exists (mkEmbeddings (endpoint working) (model working)
              (chunkHashes working) (vectors working) (clock w)).
    cbv zeta. simpl. rewrite S3.
    split; [done|]. split; [done|]. split; [done|].
    split; [by rewrite E1, P1|]. split; [by rewrite E2, P2|].
    split; [done|].
    assert (Hout : ∀ k, k ∉ ids →
      vectors working !! k = None
      ∧ (is_Some (vectors cache !! k) ∨ chunkHashes cache !! k = None →
         chunkHashes working !! k = None)).
    { intros k Hk. destruct (E4 k) as [-> ->]; [intros H; by apply Hk, Hsub|].
      rewrite P4, P5. simpl.
      destruct (decide (k ∈ keysOf (vectors cache))) as [Hin|Hin].
      - rewrite !bool_decide_eq_true_2 by done. done.
      - rewrite !bool_decide_eq_false_2 by (intros [? ?]; done).
        rewrite elem_of_keysOf in Hin.
        split; [by apply eq_None_not_Some|].
        intros [?|?]; done. }
    split; [intros k Hk; by apply Hout|].
    split.
    { intros Hinv. split.
      - intros k Hk. simpl in Hk |- *.
        destruct (decide (k ∈ map id missing)) as [Hin|Hin].
        + apply list_elem_of_fmap in Hin as (c & -> & Hc). by apply E5.
        + destruct (E4 k Hin) as [Hv Hh]. rewrite Hv. rewrite Hh in Hk.
          rewrite P4. rewrite P5 in Hk. simpl in *.
          destruct (bool_decide (k ∈ keysOf (vectors cache) ∧ k ∉ ids));
            [by destruct Hk|]. by apply Hinv.
      - intros k Hk. apply Hout; [done|].
        destruct (chunkHashes cache !! k) eqn:Eh; [|by right].
        left. apply Hinv. by rewrite Eh. }
    split.
    { intros c Hc Hid. destruct (E4 _ Hid) as [-> ->]. rewrite P4, P5. simpl.
      rewrite !bool_decide_eq_false_2; [done|].
      intros [_ Hn]. apply Hn. by apply list_elem_of_fmap_2. }
    split; [exact E5|]. done.
Qed.

(** A world whose embedding service answers every text with a vector. *)
Definition worldEmbed : World :=
  mkWorld None None [] ∅ true (lit "2024-01-01T00:00:00.000Z")
          (mkConfig (lit "http://e/embeddings") (lit "embed"))
          true
          (λ _ texts, Ok (map (λ t, [1%float; 2%float]) texts))
          []
          (mkConfig (lit "http://e/chat/completions") (lit "chat"))
          (λ _, Throw (Error "offline")) O
          (λ _, Throw (Error "no outline")) [] [].

Definition indexTwo : PaperIndex :=
  mkIndex (hashText (lit "alpha beta")) (lit "A paper") (lit "pdf-cache")
          [mkChunk (lit "chunk-1") (lit "alpha") 0 5;
           mkChunk (lit "chunk-2") (lit "beta") 6 10]
          (lit "2024-01-01T00:00:00.000Z").

Example getOrCreateChunkEmbeddings_twice :
  let first := getOrCreateChunkEmbeddings (lit "42") indexTwo worldEmbed in
  let second := getOrCreateChunkEmbeddings (lit "42") indexTwo first.2 in
  embedRequests first.2 = [[lit "alpha"; lit "beta"]]
  ∧ length (writes first.2) = 1%nat
  ∧ embedRequests second.2 = embedRequests first.2
  ∧ writes second.2 = writes first.2.
Proof. cbv zeta. repeat split; vm_compute; reflexivity. Qed.

(** A store that holds, for paper 42, the vector of [chunk-1] under the
    hash of its text and a vector for a chunk that is gone; the service
    answers every text with a vector that starts with the length of the
    text. *)
Definition storeStale : PaperStore :=
  mkStore ∅ ∅ ∅
    {[ lit "42" :=
         mkEmbeddings (lit "http://e/embeddings") (lit "embed")
           {[ lit "chunk-1" := hashText (lit "alpha"); lit "chunk-9" := lit "0" ]}
           {[ lit "chunk-1" := [3%float; 4%float]; lit "chunk-9" := [5%float] ]}
           (lit "2023-12-31T00:00:00.000Z") ]}.

Definition worldStale : World :=
  mkWorld (Some storeStale) (Some storeStale) [] ∅ true
          (lit "2024-01-01T00:00:00.000Z")
          (mkConfig (lit "http://e/embeddings") (lit "embed"))
          true
          (λ _ texts, Ok (map (λ t, [PrimFloat.of_uint63 (Uint63.of_Z (len t));
                                     1%float]) texts))
          []
          (mkConfig (lit "http://e/chat/completions") (lit "chat"))
          (λ _, Throw (Error "offline")) O
          (λ _, Throw (Error "no outline")) [] [].

Example getOrCreateChunkEmbeddings_stale :
  let run := getOrCreateChunkEmbeddings (lit "42") indexTwo worldStale in
  run.1 = Ok {[ lit "chunk-1" := [3%float; 4%float];
                lit "chunk-2" := [4%float; 1%float] ]}
  ∧ embedRequests run.2 = [[lit "beta"]]
  ∧ length (writes run.2) = 1%nat
  ∧ missingChunks worldStale (lit "42") indexTwo
    = [mkChunk (lit "chunk-2") (lit "beta") 6 10].
Proof. cbv zeta. repeat split; vm_compute; reflexivity. Qed.

Lemma getOrCreateChunkEmbeddings_spec_witness :
  ∃ result w' reqs replies v e',
    getOrCreateChunkEmbeddings (lit "42") indexTwo worldStale = (Ok result, w')
    ∧ embedRequests w' = embedRequests worldStale ++ reqs
    ∧ concat reqs = [lit "beta"]
    ∧ length replies = length reqs
    ∧ concat replies !! O = Some v
    ∧ embeddings (IndexManager.storeOf w') !! lit "42" = Some e'
    ∧ vectors e' !! lit "chunk-2" = Some v
    ∧ chunkHashes e' !! lit "chunk-2" = Some (hashText (lit "beta"))
    ∧ vectors e' !! lit "chunk-9" = None.
Proof.
  destruct (getOrCreateChunkEmbeddings (lit "42") indexTwo worldStale)
    as [r w'] eqn:E.
  assert (∃ result, r = Ok result) as [result ->].
  { vm_compute in E. injection E as <- _. by eexists. }
  destruct (getOrCreateChunkEmbeddings_spec _ _ _ _ _ E)
    as (_ & _ & _ & _ & H & _ & Hchanged).
  destruct H as (reqs & replies & Hreqs & Hcat & _ & Hlen & _ & Hstored).
  destruct (Hstored O (mkChunk (lit "chunk-2") (lit "beta") 6 10))
    as (v & e' & Hv & He' & Hvec & Hhash & _).
  { vm_compute. reflexivity. }
  { intros [|[|j]] c' Hj Hc'; [lia | vm_compute in Hc'; discriminate
                                | vm_compute in Hc'; discriminate]. }
  exists result, w', reqs, replies, v, e'.
  split; [reflexivity|]. split; [exact Hreqs|]. split; [exact Hcat|].
  split; [exact Hlen|]. split; [exact Hv|]. split; [exact He'|].
  split; [exact Hvec|]. split; [exact Hhash|].
  destruct (Hchanged ltac:(vm_compute; reflexivity))
    as (e2 & _ & _ & Hc & _ & _ & _ & Hout & _).
  assert (e' = e2) as ->.
  { revert He'. unfold IndexManager.storeOf. rewrite Hc. simpl.
    rewrite lookup_insert_eq. by intros [= ->]. }
  apply Hout. vm_compute. intros H.
  repeat (apply elem_of_cons in H as [H|H]; [discriminate H|]).
  by apply elem_of_nil in H.
Defined.

End Embeddings.

(* ===================================================================== *)
(** ** Conversation and long-term memory *)
(* ===================================================================== *)

Module Conversation.
Import Js Text Store.

Definition MAX_STORED_MESSAGES : Z := 60.
Definition MEMORY_REFRESH_MIN_NEW_MESSAGES : Z := 6.

(** [requestLLM].  What the remote model answers is not the program's
    doing: the reply to the [n]-th request is [llmServer w n], the
    [content] of the response or a failure.  [extractChatContent] trims
    it, an empty content is an error, and every error inside the [try] is
    thrown again as "LLM request failed". *)
Definition requestLLM : M jsstring :=
  w ← getWorld;
  if bool_decide (cfgEndpoint (llmConfig w) = [])
  then throw "Set LLM endpoint in plugin preferences first."
  else if bool_decide (cfgModel (llmConfig w) = [])
  then throw "Set LLM model in plugin preferences first."
  else
    tryCatch
      (_ ← modify count_llmCall;
       match llmServer w (llmCalls w) with
       | Throw (Error message) => throw message
       | Ok payload =>
         match trim payload with
         | [] => throw "LLM returned an empty response."
         | content => mret content
         end
       end)
      (λ _, throw "LLM request failed.").

Definition conversationOf (store : PaperStore) (paperID : jsstring) : list ChatMessage :=
  default [] (conversations store !! paperID).


Definition clearConversation (paperID : jsstring) : M unit :=
  store ← loadStore;
  _ ← assignStore (λ s, set_conversations (delete paperID (conversations s)) s);
  store ← assignStore (λ s, set_memories (delete paperID (memories s)) s);
  persistStore store.

Definition appendConversation (paperID : jsstring) (messages : list ChatMessage)
  : M unit :=
  store ← loadStore;
  let existing := conversationOf store paperID in
  store ← assignStore (λ s,
    set_conversations
      (<[paperID := slice_from (existing ++ messages) (- MAX_STORED_MESSAGES)]>
         (conversations s)) s);
  persistStore store.


(** The two early returns of [refreshConversationMemoryIfNeeded]:
    [Some n] when a refresh is due for a conversation of [n] messages. *)
Definition refreshDue (store : PaperStore) (paperID : jsstring) : option Z :=
  let conversation := conversationOf store paperID in
  if len conversation <? 4 then None
  else
    let memory := memories store !! paperID in
    let turnCount := default 0 (turnCount <$> memory) in
    let newMessageCount := len conversation - turnCount in
    if bool_decide (is_Some memory)
       && (newMessageCount <? MEMORY_REFRESH_MIN_NEW_MESSAGES)
    then None
    else Some (len conversation).

(** The [try] block: the summary request and the write of the memory,
    when nothing else runs while the request is out.  What other calls do
    in between is the matter of [EventLoop] below. *)
Definition writeMemory (paperID : jsstring) (conversationLength : Z) : M unit :=
  tryCatch
    (summary ← requestLLM;
     match trim summary with
     | [] => mret tt
     | text =>
       w ← getWorld;
       store ← assignStore (λ s,
         set_memories
           (<[paperID := mkMemory text (clock w) conversationLength]> (memories s)) s);
       persistStore store
     end)
    (λ _, log "Conversation memory refresh skipped").

(** [refreshConversationMemoryIfNeeded], run alone from its call to its
    end ([EventLoop.refreshConversationMemoryIfNeeded_alone]). *)
Definition refreshConversationMemoryIfNeeded (paperID title : jsstring) : M unit :=
  store ← loadStore;
  match refreshDue store paperID with
  | None => mret tt
  | Some conversationLength => writeMemory paperID conversationLength
  end.

(** The invariant of the store: a conversation holds at most
    [MAX_STORED_MESSAGES] messages, and a memory's [turnCount] is at most
    the length of its conversation. *)
Definition memoryInvariant (store : PaperStore) : Prop :=
  ∀ paperID,
    len (conversationOf store paperID) ≤ MAX_STORED_MESSAGES
    ∧ ∀ memory, memories store !! paperID = Some memory →
        turnCount memory ≤ len (conversationOf store paperID).

Definition message (r : ChatRole) (t : string) : ChatMessage :=
  mkMessage r (lit t) (lit "2024-01-01T00:00:00.000Z") None.

Import IndexManager.

Lemma loadStore_fail w e wl :
  loadStore w = (Throw e, wl) → wl = w.
Proof.
  unfold loadStore. run_monad. destruct (storeCache w); [done|].
  destruct (dataDirectory w); [done|]. by intros [= _ <-].
Qed.

(** What a call of [requestLLM] leaves of the world. *)
Lemma requestLLM_frame w r w' :
  requestLLM w = (r, w') → w' = w ∨ w' = count_llmCall w.
Proof.
  unfold requestLLM. run_monad.
  repeat case_bool_decide; try (intros [= <- <-]; by left).
  destruct (llmServer w (llmCalls w)) as [payload|[message]].
  - destruct (trim payload); intros [= <- <-]; by right.
  - intros [= <- <-]. by right.
Qed.

Lemma requestLLM_ok w content w' :
  requestLLM w = (Ok content, w') →
  w' = count_llmCall w
  ∧ ∃ payload, llmServer w (llmCalls w) = Ok payload
               ∧ content = trim payload ∧ content ≠ [].
Proof.
  unfold requestLLM. run_monad.
  repeat case_bool_decide; try done.
  destruct (llmServer w (llmCalls w)) as [payload|[message]]; [|done].
  destruct (trim payload) eqn:E; [done|].
  intros [= <- <-]. split; [done|]. exists payload. by rewrite E.
Qed.

(** What [requestLLM] returns has no white space at either end and is
    not empty. *)
Lemma requestLLM_trimmed w content w' :
  requestLLM w = (Ok content, w') → trim content = content ∧ content ≠ [].
Proof.
  intros H. apply requestLLM_ok in H as (_ & payload & _ & -> & Hne).
  split; [apply trim_idem | done].
Qed.

Lemma storeOf_count_llmCall w : storeOf (count_llmCall w) = storeOf w.
Proof. done. Qed.

(** The store after [writeMemory]: as before, or with the new memory. *)
Lemma writeMemory_run paperID n w :
  is_Some (storeCache w) →
  (∀ summary w2, requestLLM w = (Ok summary, w2) → dataDirectory w = true →
     let store' := set_memories
                     (<[paperID := mkMemory summary (clock w) n]>
                        (memories (storeOf w))) (storeOf w) in
     writeMemory paperID n w
     = (Ok tt, write_file store' (set_storeCache (Some store') w2)))
  ∧ (∀ e w2, requestLLM w = (Throw e, w2) →
       writeMemory paperID n w
       = (Ok tt, add_log "Conversation memory refresh skipped" w2)).
Proof.
  intros [s Hs]. split.
  - intros summary w2 Hreq Hd store'.
    destruct (requestLLM_ok _ _ _ Hreq) as (-> & payload & Hp & Hc & Hne).
    unfold writeMemory, tryCatch. unfold mbind at 1. unfold M_bind at 1.
    rewrite Hreq. subst summary. rewrite trim_idem.
    destruct (trim payload) eqn:E; [done|].
    unfold assignStore, persistStore. run_monad. rewrite Hd.
    subst store'. unfold storeOf. rewrite Hs. done.
  - intros e w2 Hreq. unfold writeMemory, tryCatch.
    unfold mbind at 1. unfold M_bind at 1. rewrite Hreq. done.
Qed.

Lemma writeMemory_total paperID n w :
  ∃ w', writeMemory paperID n w = (Ok tt, w').
Proof.
  unfold writeMemory, tryCatch.
  match goal with |- ∃ _, match ?b with _ => _ end = _ => destruct b as [[[]|e] w2] end.
  - by eexists.
  - unfold log. run_monad. by eexists.
Qed.

(** Whatever [writeMemory] does, the store it leaves is the old one or
    the old one with a memory whose [turnCount] is [n]. *)
Lemma writeMemory_store paperID n w r w' :
  is_Some (storeCache w) →
  writeMemory paperID n w = (r, w') →
  storeOf w' = storeOf w
  ∨ ∃ text now, storeOf w'
       = set_memories (<[paperID := mkMemory text now n]> (memories (storeOf w)))
                      (storeOf w).
Proof.
  intros [s Hs]. unfold writeMemory, tryCatch.
  unfold mbind at 1. unfold M_bind at 1.
  destruct (requestLLM w) as [[summary|e] w2] eqn:Hreq.
  - destruct (requestLLM_frame _ _ _ Hreq) as [->| ->];
      (destruct (trim summary) eqn:E;
       [intros [= <- <-]; by left|]);
      unfold assignStore, persistStore; run_monad;
      destruct (dataDirectory w); unfold log; run_monad; intros [= <- <-];
      right; eexists _, _; unfold storeOf; simpl; rewrite Hs; reflexivity.
  - unfold log. run_monad. intros [= <- <-]. left.
    destruct (requestLLM_frame _ _ _ Hreq) as [->| ->]; done.
Qed.

Lemma refreshDue_iff store paperID n :
  refreshDue store paperID = Some n ↔
  n = len (conversationOf store paperID)
  ∧ 4 ≤ len (conversationOf store paperID)
  ∧ (memories store !! paperID = None
     ∨ ∃ memory, memories store !! paperID = Some memory
                 ∧ MEMORY_REFRESH_MIN_NEW_MESSAGES
                   ≤ len (conversationOf store paperID) - turnCount memory).
Proof.
  unfold refreshDue, MEMORY_REFRESH_MIN_NEW_MESSAGES.
  destruct (Z.ltb_spec (len (conversationOf store paperID)) 4).
  { split; [done | lia]. }
  destruct (memories store !! paperID) as [memory|] eqn:Em; simpl.
  - destruct (Z.ltb_spec (len (conversationOf store paperID) - turnCount memory) 6).
    + split; [done|]. intros (_ & _ & [?|(m & [= <-] & ?)]); [done | lia].
    + split.
      * intros [= <-]. split; [done|]. split; [done|]. right. by exists memory.
      * by intros (-> & _).
  - split.
    + intros [= <-]. split; [done|]. split; [done|]. by left.
    + by intros (-> & _).
Qed.

(** *** The invariant is kept by every change of the store *)

Lemma conversationOf_insert store paperID msgs other :
  conversationOf (set_conversations (<[paperID := msgs]> (conversations store)) store)
                 other
  = if decide (paperID = other) then msgs else conversationOf store other.
Proof.
  unfold conversationOf. simpl. rewrite lookup_insert. by case_decide.
Qed.

Lemma memoryInvariant_append store paperID messages :
  memoryInvariant store →
  memoryInvariant
    (set_conversations
       (<[paperID := slice_from (conversationOf store paperID ++ messages)
                                (- MAX_STORED_MESSAGES)]> (conversations store))
       store).
Proof.
  intros Hinv other. rewrite conversationOf_insert. simpl.
  destruct (Hinv other) as [Hcap Hmem].
  destruct (decide (paperID = other)) as [<-|Hne]; [|done].
  rewrite len_slice_from_tail by done.
  assert (len (conversationOf store paperID ++ messages)
          = len (conversationOf store paperID) + len messages) as ->.
  { unfold len. rewrite length_app. lia. }
  split; [lia|]. intros memory Hm. specialize (Hmem memory Hm).
  unfold len in *. lia.
Qed.

Lemma memoryInvariant_clear store paperID :
  memoryInvariant store →
  memoryInvariant
    (set_memories (delete paperID (memories store))
       (set_conversations (delete paperID (conversations store)) store)).
Proof.
  intros Hinv other. unfold conversationOf. simpl.
  destruct (Hinv other) as [Hcap Hmem].
  destruct (decide (paperID = other)) as [<-|Hne].
  - rewrite !lookup_delete_eq. simpl. split; [done|]. done.
  - rewrite !lookup_delete_ne by done. done.
Qed.

Lemma memoryInvariant_memory store paperID t now :
  memoryInvariant store →
  memoryInvariant
    (set_memories
       (<[paperID := mkMemory t now (len (conversationOf store paperID))]>
          (memories store)) store).
Proof.
  intros Hinv other. unfold conversationOf. simpl.
  destruct (Hinv other) as [Hcap Hmem]. split; [done|].
  intros memory. rewrite lookup_insert. case_decide as E.
  - subst other. intros [= <-]. simpl. done.
  - apply Hmem.
Qed.

Lemma appendConversation_invariant paperID messages w r w' :
  memoryInvariant (storeOf w) →
  appendConversation paperID messages w = (r, w') →
  memoryInvariant (storeOf w').
Proof.
  intros Hinv. unfold appendConversation. unfold mbind at 1. unfold M_bind at 1.
  destruct (loadStore w) as [[store|e] wl] eqn:El.
  - apply loadStore_ok in El as [-> ->].
    unfold assignStore, persistStore. run_monad.
    destruct (dataDirectory w); intros [= <- <-]; unfold storeOf at 1; simpl;
      by apply memoryInvariant_append.
  - apply loadStore_fail in El as ->. by intros [= <- <-].
Qed.

Lemma clearConversation_invariant paperID w r w' :
  memoryInvariant (storeOf w) →
  clearConversation paperID w = (r, w') →
  memoryInvariant (storeOf w').
Proof.
  intros Hinv. unfold clearConversation. unfold mbind at 1. unfold M_bind at 1.
  destruct (loadStore w) as [[store|e] wl] eqn:El.
  - apply loadStore_ok in El as [-> ->].
    unfold assignStore, persistStore. run_monad.
    destruct (dataDirectory w); intros [= <- <-]; unfold storeOf at 1; simpl;
      by apply memoryInvariant_clear.
  - apply loadStore_fail in El as ->. by intros [= <- <-].
Qed.

Lemma refresh_invariant paperID title w r w' :
  memoryInvariant (storeOf w) →
  refreshConversationMemoryIfNeeded paperID title w = (r, w') →
  memoryInvariant (storeOf w').
Proof.
  intros Hinv. unfold refreshConversationMemoryIfNeeded.
  unfold mbind at 1. unfold M_bind at 1.
  destruct (loadStore w) as [[store|e] wl] eqn:El.
  - apply loadStore_ok in El as [-> ->].
    destruct (refreshDue (storeOf w) paperID) as [n|] eqn:Ed.
    + apply refreshDue_iff in Ed as (-> & _). intros Hrun.
      apply writeMemory_store in Hrun as [->|(t & now & ->)]; [| |by eexists].
      * done.
      * by apply (memoryInvariant_memory (storeOf w)).
    + by intros [= <- <-].
  - apply loadStore_fail in El as ->. by intros [= <- <-].
Qed.

(** The refresh that runs alone.  A refresh is made only for a
    conversation of at least 4 messages that has no memory yet or at least
    6 messages more than the memory's [turnCount]; otherwise nothing is
    requested or written.  When the summary request succeeds and the data
    directory is there, the memory stored for the paper gets the summary,
    the current time and [turnCount] equal to the length of the
    conversation, and the store is written.  When the request fails, the
    failure is logged, the call returns normally and the store is as it
    was.  The call never throws once the store is loaded.  The invariant
    ([turnCount] at most the conversation's length, conversations of at
    most 60 messages) holds in the empty store and is kept by a refresh,
    by [appendConversation] and by [clearConversation] as long as each
    call runs to its end before the next starts; it is not kept when they
    overlap (module [EventLoop]). *)
Theorem refreshConversationMemoryIfNeeded_spec (paperID title : jsstring)
        (w : World) :
  let store := storeOf w in
  let conversation := conversationOf store paperID in
  let wl := set_storeCache (Some store) w in
  (is_Some (storeCache w) ∨ dataDirectory w = true →
     (∀ n, refreshDue store paperID = Some n ↔
        n = len conversation ∧ 4 ≤ len conversation
        ∧ (memories store !! paperID = None
           ∨ ∃ memory, memories store !! paperID = Some memory
                       ∧ MEMORY_REFRESH_MIN_NEW_MESSAGES
                         ≤ len conversation - turnCount memory))
     ∧ (refreshDue store paperID = None →
          refreshConversationMemoryIfNeeded paperID title w = (Ok tt, wl))
     ∧ (is_Some (refreshDue store paperID) →
          (∀ summary w2, requestLLM wl = (Ok summary, w2) →
             dataDirectory w = true →
             let store' :=
               set_memories
                 (<[paperID := mkMemory summary (clock w) (len conversation)]>
                    (memories store)) store in
             refreshConversationMemoryIfNeeded paperID title w
             = (Ok tt, write_file store' (set_storeCache (Some store') w2)))
          ∧ (∀ e w2, requestLLM wl = (Throw e, w2) →
               refreshConversationMemoryIfNeeded paperID title w
               = (Ok tt, add_log "Conversation memory refresh skipped" w2)
               ∧ storeOf w2 = store ∧ writes w2 = writes w))
     ∧ (∃ w', refreshConversationMemoryIfNeeded paperID title w = (Ok tt, w')))
  ∧ (memoryInvariant store →
       (∀ r w', refreshConversationMemoryIfNeeded paperID title w = (r, w') →
                memoryInvariant (storeOf w'))
       ∧ (∀ messages r w', appendConversation paperID messages w = (r, w') →
                           memoryInvariant (storeOf w'))
       ∧ (∀ r w', clearConversation paperID w = (r, w') →
                  memoryInvariant (storeOf w')))
  ∧ memoryInvariant emptyStore.
Proof.
  intros store conversation wl. split; [|split].
  - intros Hload.
    assert (Hl : loadStore w = (Ok store, wl)).
    { apply loadStore_run. tauto. }
    assert (Hunfold : refreshConversationMemoryIfNeeded paperID title w
      = match refreshDue store paperID with
        | None => (Ok tt, wl)
        | Some n => writeMemory paperID n wl
        end).
    { unfold refreshConversationMemoryIfNeeded. unfold mbind at 1.
      unfold M_bind at 1. rewrite Hl. by destruct (refreshDue store paperID). }
    assert (Hs : is_Some (storeCache wl)) by (by eexists).
    split; [intros n; apply refreshDue_iff|].
    split; [intros Hd; by rewrite Hunfold, Hd|].
    split.
    + intros [n Hd]. rewrite Hunfold, Hd.
      apply refreshDue_iff in Hd as (-> & _).
      destruct (writeMemory_run paperID (len conversation) wl Hs) as [Hok Hfail].
      split.
      * intros summary w2 Hreq Hdir. by apply Hok.
      * intros e w2 Hreq. split; [by apply (Hfail e)|].
        destruct (requestLLM_frame _ _ _ Hreq) as [->| ->]; done.
    + rewrite Hunfold. destruct (refreshDue store paperID); [|by eexists].
      apply writeMemory_total.
  - intros Hinv. split; [|split].
    + intros r w'. by apply refresh_invariant.
    + intros messages r w'. by apply appendConversation_invariant.
    + intros r w'. by apply clearConversation_invariant.
  - intros paperID'. unfold conversationOf. simpl. rewrite !lookup_empty. done.
Qed.

(** A world with a conversation of four messages and a model that
    answers. *)
Definition storeFour : PaperStore :=
  mkStore ∅ {[ lit "42" := [message user "q1"; message assistant "a1";
                            message user "q2"; message assistant "a2"] ]} ∅ ∅.

Definition worldChat : World :=
  mkWorld (Some storeFour) None [] ∅ true (lit "2024-01-01T00:00:00.000Z")
          (mkConfig (lit "http://e/embeddings") (lit "embed"))
          false
          (λ _ _, Throw (Error "offline")) []
          (mkConfig (lit "http://e/chat/completions") (lit "chat"))
          (λ _, Ok (lit " the user asks about attention ")) O
          (λ _, Throw (Error "no outline")) [] [].

Lemma refreshConversationMemoryIfNeeded_spec_witness :
  ∃ w', refreshConversationMemoryIfNeeded (lit "42") (lit "A paper") worldChat
        = (Ok tt, w')
        ∧ memories (storeOf w') !! lit "42"
          = Some (mkMemory (lit "the user asks about attention")
                           (lit "2024-01-01T00:00:00.000Z") 4).
Proof.
  destruct (refreshConversationMemoryIfNeeded_spec (lit "42") (lit "A paper")
              worldChat) as (H & _ & _).
  destruct (H ltac:(left; by eexists)) as (_ & _ & Hdue & _).
  destruct (Hdue ltac:(by eexists)) as (Hok & _).
  eexists. split.
  - apply (Hok (lit "the user asks about attention") (count_llmCall worldChat));
      reflexivity.
  - reflexivity.
Defined.

End Conversation.

(* ===================================================================== *)
(** ** Calls that overlap: the event loop *)
(* ===================================================================== *)

Module EventLoop.
Import Js Text Store IndexManager Conversation.

(** An [async] function runs until it awaits the file system or the
    network and goes on when what it awaits is there; the handlers of the
    panel start such calls while others are waiting (the memory refresh is
    started with [void] and never awaited).  The functions of [Store] and
    [Conversation] are given here a second time, cut at these awaits.

    A store is a JavaScript object, held by reference: by [storeCache] and
    by the [store] variable of every call that has loaded it.  [objects]
    are the store objects made so far, a reference is a position in it.
    [host] is the rest of the world (the file, the preferences, the
    services, the log); its [storeCache] field is not read here, [seen]
    fills it with the object that [cache] refers to.  [queue] holds the
    payloads of the writes chained on [storeWriteQueue] and not yet
    done. *)
Record Loop := mkLoop {
  host : World;
  objects : list PaperStore;
  cache : option nat;
  queue : list PaperStore;
}.

Definition seen (l : Loop) : World :=
  set_storeCache (cache l ≫= λ ref, objects l !! ref) (host l).

(** A call that has started: finished, or waiting.  [ready] tells
    whether what it waits for is there, [resume] runs it to its next
    await. *)
Inductive Task (A : Type) : Type :=
| Return (a : A)
| Raise (e : Exn)
| Await (ready : Loop → bool) (resume : Loop → Task A * Loop).
Arguments Return {A} a.
Arguments Raise {A} e.
Arguments Await {A} ready resume.

(** An [async] function: called, it runs to its first await. *)
Definition Async (A : Type) : Type := Loop → Task A * Loop.

Fixpoint andThen {A B} (t : Task A) (f : A → Async B) : Async B :=
  match t with
  | Return a => f a
  | Raise e => λ l, (Raise e, l)
  | Await ready resume =>
    λ l, (Await ready (λ l1, let (t', l2) := resume l1 in andThen t' f l2), l)
  end.

Fixpoint orElse {A} (t : Task A) (handler : Exn → Async A) : Async A :=
  match t with
  | Return a => λ l, (Return a, l)
  | Raise e => handler e
  | Await ready resume =>
    λ l, (Await ready (λ l1, let (t', l2) := resume l1 in orElse t' handler l2), l)
  end.

#[global] Instance Async_ret : MRet Async := λ A a l, (Return a, l).

#[global] Instance Async_bind : MBind Async := λ A B f m l,
  let (t, l') := m l in andThen t f l'.

Definition raise {A} (message : string) : Async A :=
  λ l, (Raise (Error message), l).
Definition getLoop : Async Loop := λ l, (Return l, l).
Definition change (f : Loop → Loop) : Async unit := λ l, (Return tt, f l).

(** [try { body } catch (e) { handler }], with awaits inside [body]. *)
Definition tryCatchAsync {A} (body : Async A) (handler : Exn → Async A) : Async A :=
  λ l, let (t, l') := body l in orElse t handler l'.

(** [await] of an operation of the file system or of the network: it is
    done at some later time. *)
Definition await (ready : Loop → bool) : Async unit :=
  λ l, (Await ready (λ l1, (Return tt, l1)), l).

Definition io : Async unit := await (λ _, true).

Definition onHost (f : World → World) (l : Loop) : Loop :=
  mkLoop (f (host l)) (objects l) (cache l) (queue l).

(** *** The store *)

Definition deref (l : Loop) (ref : nat) : PaperStore :=
  default emptyStore (objects l !! ref).

(** A new object [{version: 2, papers: ..., ...}]. *)
Definition newObject (store : PaperStore) : Async nat :=
  l ← getLoop;
  _ ← change (λ l, mkLoop (host l) (objects l ++ [store]) (cache l) (queue l));
  mret (length (objects l)).

(** [storeCache = store] *)
Definition setCache (ref : nat) : Async unit :=
  change (λ l, mkLoop (host l) (objects l) (Some ref) (queue l)).

(** An assignment to a property of the object [ref]. *)
Definition assign (ref : nat) (f : PaperStore → PaperStore) : Async unit :=
  change (λ l, mkLoop (host l) (alter f ref (objects l)) (cache l) (queue l)).

(** [getStorePath]: the check of the data directory, then
    [await ensureDir(storeDir)]. *)
Definition getStorePath : Async unit :=
  l ← getLoop;
  if dataDirectory (host l) then io
  else raise "Zotero data directory is unavailable.".

(** [readTextFile]: what the file holds when the read is done. *)
Definition readTextFile : Async (option PaperStore) :=
  _ ← io;
  l ← getLoop;
  mret (diskFile (host l)).

(** [loadStore]: the cached object, or a new object with what the file
    holds (empty when the file is missing, empty or unparsable), which
    becomes the cached one. *)
Definition loadStore : Async nat :=
  l ← getLoop;
  match cache l with
  | Some ref => mret ref
  | None =>
    _ ← getStorePath;
    raw ← readTextFile;
    ref ← newObject (default emptyStore raw);
    _ ← setCache ref;
    mret ref
  end.

Definition enqueue (payload : PaperStore) (l : Loop) : Loop :=
  mkLoop (host l) (objects l) (cache l) (queue l ++ [payload]).

(** [persistStore]: the payload is serialised after [await
    getStorePath()] and chained on [storeWriteQueue]; the call returns
    when its own write, and so every write chained before it, is done. *)
Definition persistStore (ref : nat) : Async unit :=
  _ ← setCache ref;
  _ ← getStorePath;
  l ← getLoop;
  _ ← change (enqueue (deref l ref));
  let ticket := (length (writes (host l)) + length (queue l) + 1)%nat in
  await (λ l', (ticket <=? length (writes (host l')))%nat).

(** [requestLLM]: the checks of the configuration, then [await postJSON];
    the reply is the one the service gives to its [llmCalls]-th
    request. *)
Definition requestLLM : Async jsstring :=
  l ← getLoop;
  if bool_decide (cfgEndpoint (llmConfig (host l)) = [])
  then raise "Set LLM endpoint in plugin preferences first."
  else if bool_decide (cfgModel (llmConfig (host l)) = [])
  then raise "Set LLM model in plugin preferences first."
  else
    tryCatchAsync
      (_ ← io;
       l ← getLoop;
       _ ← change (onHost count_llmCall);
       match llmServer (host l) (llmCalls (host l)) with
       | Throw (Error message) => raise message
       | Ok payload =>
         match trim payload with
         | [] => raise "LLM returned an empty response."
         | content => mret content
         end
       end)
      (λ _, raise "LLM request failed.").

(** *** The conversation *)

Definition appendConversation (paperID : jsstring) (messages : list ChatMessage)
  : Async unit :=
  store ← loadStore;
  l ← getLoop;
  let existing := conversationOf (deref l store) paperID in
  _ ← assign store (λ s,
        set_conversations
          (<[paperID := slice_from (existing ++ messages) (- MAX_STORED_MESSAGES)]>
             (conversations s)) s);
  persistStore store.

Definition clearConversation (paperID : jsstring) : Async unit :=
  store ← loadStore;
  _ ← assign store (λ s, set_conversations (delete paperID (conversations s)) s);
  _ ← assign store (λ s, set_memories (delete paperID (memories s)) s);
  persistStore store.

(** [refreshConversationMemoryIfNeeded].  [conversation] is read before
    the request is sent; no other code changes that array in place
    ([appendConversation] assigns a new one), so [conversation.length] is
    still [conversationLength] when the reply is there. *)
Definition refreshConversationMemoryIfNeeded (paperID title : jsstring)
  : Async unit :=
  store ← loadStore;
  l ← getLoop;
  match refreshDue (deref l store) paperID with
  | None => mret tt
  | Some conversationLength =>
    tryCatchAsync
      (summary ← requestLLM;
       match trim summary with
       | [] => mret tt
       | text =>
         l ← getLoop;
         _ ← assign store (λ s,
               set_memories
                 (<[paperID := mkMemory text (clock (host l)) conversationLength]>
                    (memories s)) s);
         persistStore store
       end)
      (λ _, change (onHost (add_log "Conversation memory refresh skipped")))
  end.

(** *** Schedules *)

(** What happens, one after the other: a handler starts a call and does
    not wait for it; what the [i]-th call started awaits is there and the
    call runs to its next await; the file system has done the oldest
    write of the queue. *)
Inductive Event :=
| call (body : Async unit)
| resume (i : nat)
| written.

Definition Pool : Type := list (Task unit).

Definition step (e : Event) (st : Pool * Loop) : option (Pool * Loop) :=
  let (pool, l) := st in
  match e with
  | call body => let (t, l') := body l in Some (pool ++ [t], l')
  | resume i =>
    match pool !! i with
    | Some (Await ready k) =>
      if ready l then let (t, l') := k l in Some (<[i := t]> pool, l')
      else None
    | _ => None
    end
  | written =>
    match queue l with
    | payload :: rest =>
      Some (pool, mkLoop (write_file payload (host l)) (objects l) (cache l) rest)
    | [] => None
    end
  end.

(** [None]: the schedule asks for a step that cannot be taken. *)
Fixpoint run (events : list Event) (st : Pool * Loop) : option (Pool * Loop) :=
  match events with
  | [] => Some st
  | e :: events' => step e st ≫= run events'
  end.

(** *** A call that runs alone *)

(** Nothing else runs while the call waits: every queued write is done
    before the call goes on. *)
Definition flush (l : Loop) : Loop :=
  mkLoop (foldl (λ h payload, write_file payload h) (host l) (queue l))
         (objects l) (cache l) [].

Fixpoint finish {A} (t : Task A) (l : Loop) : option (Result A * Loop) :=
  match t with
  | Return a => Some (Ok a, l)
  | Raise e => Some (Throw e, l)
  | Await ready next =>
    if ready (flush l) then let (t', l') := next (flush l) in finish t' l'
    else None
  end.

Definition alone {A} (body : Async A) (l : Loop) : option (Result A * Loop) :=
  let (t, l') := body l in finish t l'.

(** [storeCache], when it is set, refers to an object. *)
Definition wellFormed (l : Loop) : Prop :=
  ∀ ref, cache l = Some ref → is_Some (objects l !! ref).

(** The store with [messages] appended to the conversation of
    [paperID], as one call of [appendConversation] leaves it. *)
Definition appended (store : PaperStore) (paperID : jsstring)
           (messages : list ChatMessage) : PaperStore :=
  set_conversations
    (<[paperID := slice_from (conversationOf store paperID ++ messages)
                             (- MAX_STORED_MESSAGES)]> (conversations store))
    store.

#[local] Arguments trim : simpl never.
#[local] Arguments refreshDue : simpl never.
#[local] Arguments slice_from : simpl never.

(** Evaluate a schedule: unfold the calls, and decide the tests on the
    data directory and on the writes that are done. *)
Ltac unfold_calls :=
  unfold run, appendConversation, clearConversation,
    refreshConversationMemoryIfNeeded, requestLLM, tryCatchAsync, loadStore,
    persistStore, getStorePath, readTextFile, newObject, setCache, assign, io,
    await, getLoop, change, raise, enqueue, onHost;
  unfold mbind, Async_bind, mret, Async_ret, option_bind.

Ltac write_done :=
  match goal with
  | |- context [(?a <=? ?b)%nat] =>
    replace (a <=? b)%nat with true
      by (symmetry; apply Nat.leb_le; rewrite ?length_app; simpl; lia)
  end.

(** *** The calls of [Conversation] are the calls that run alone *)

Lemma seen_cached h objs ref store q :
  objs !! ref = Some store →
  seen (mkLoop h objs (Some ref) q) = set_storeCache (Some store) h.
Proof. intros H. unfold seen. simpl. by rewrite H. Qed.

Lemma wellFormed_alter h objs ref f q :
  is_Some (objs !! ref) →
  wellFormed (mkLoop h (alter f ref objs) (Some ref) q).
Proof.
  intros [s Hs] ref' Hc. simpl in Hc. injection Hc as <-. simpl.
  rewrite list_lookup_alter_eq, Hs. simpl. by eexists.
Qed.

Lemma wellFormed_new h objs store q :
  wellFormed (mkLoop h (objs ++ [store]) (Some (length objs)) q).
Proof.
  intros ref' Hc. simpl in Hc. injection Hc as <-. simpl.
  rewrite lookup_app_r, Nat.sub_diag by lia. by eexists.
Qed.

Lemma wellFormed_host h h' objs c q :
  wellFormed (mkLoop h objs c q) → wellFormed (mkLoop h' objs c q).
Proof. intros H ref. apply H. Qed.

(** The object of a call that found the cache empty. *)
Lemma alter_new {A} (f : A → A) (objs : list A) (x : A) :
  alter f (length objs) (objs ++ [x]) = objs ++ [f x].
Proof.
  rewrite alter_app_r_alt by lia. by rewrite Nat.sub_diag.
Qed.

Lemma lookup_new {A} (objs : list A) (x : A) : (objs ++ [x]) !! length objs = Some x.
Proof. by rewrite lookup_app_r, Nat.sub_diag by lia. Qed.

Ltac objects_known :=
  unfold deref, flush; simpl;
  rewrite ?alter_new, ?lookup_new, ?list_lookup_alter_eq; simpl.

Lemma cache_twice a b w : set_storeCache a (set_storeCache b w) = set_storeCache a w.
Proof. reflexivity. Qed.

Lemma write_cached p a w :
  write_file p (set_storeCache a w) = set_storeCache a (write_file p w).
Proof. reflexivity. Qed.

Lemma count_cached a w :
  count_llmCall (set_storeCache a w) = set_storeCache a (count_llmCall w).
Proof. reflexivity. Qed.

Lemma log_cached entry a w :
  add_log entry (set_storeCache a w) = set_storeCache a (add_log entry w).
Proof. reflexivity. Qed.

Ltac same_world :=
  f_equal;
  cbn [cache objects host queue];
  unfold deref; cbn [cache objects host queue];
  rewrite ?alter_new, ?lookup_new, ?list_lookup_alter_eq;
  repeat match goal with H : _ !! _ = Some _ |- _ => rewrite H end;
  cbn [fmap option_fmap option_map default];
  rewrite ?cache_twice, ?write_cached, ?count_cached, ?log_cached, ?cache_twice;
  try reflexivity.

Lemma appendConversation_alone paperID messages l :
  wellFormed l → queue l = [] →
  ∃ r l', alone (appendConversation paperID messages) l = Some (r, l')
          ∧ Conversation.appendConversation paperID messages (seen l) = (r, seen l')
          ∧ wellFormed l' ∧ queue l' = [].
Proof.
  intros Hwf Hq. destruct l as [h objs c q]. simpl in Hq. subst q.
  unfold Conversation.appendConversation, Store.loadStore, Store.persistStore,
    assignStore, Store.getStorePath, seen, alone.
  destruct c as [ref|].
  - destruct (Hwf ref eq_refl) as [store Hstore]. simpl in Hstore.
    unfold_calls. run_monad. rewrite Hstore. simpl.
    destruct (dataDirectory h) eqn:Hdir; cbn.
    + objects_known. rewrite Hstore. simpl. write_done.
      eexists _, _. split; [reflexivity|]. split; [same_world|].
      split; [|done]. apply wellFormed_alter. by eexists.
    + eexists _, _. split; [reflexivity|]. split; [same_world|].
      split; [|done]. apply wellFormed_alter. by eexists.
  - unfold_calls. run_monad.
    destruct (dataDirectory h) eqn:Hdir; cbn.
    + rewrite Hdir. cbn. objects_known. write_done.
      eexists _, _. split; [reflexivity|]. split; [same_world|].
      split; [|done]. apply wellFormed_new.
    + eexists _, _. split; [reflexivity|]. split; [reflexivity|]. done.
Qed.

Lemma clearConversation_alone paperID l :
  wellFormed l → queue l = [] →
  ∃ r l', alone (clearConversation paperID) l = Some (r, l')
          ∧ Conversation.clearConversation paperID (seen l) = (r, seen l')
          ∧ wellFormed l' ∧ queue l' = [].
Proof.
  intros Hwf Hq. destruct l as [h objs c q]. simpl in Hq. subst q.
  unfold Conversation.clearConversation, Store.loadStore, Store.persistStore,
    assignStore, Store.getStorePath, seen, alone.
  destruct c as [ref|].
  - destruct (Hwf ref eq_refl) as [store Hstore]. simpl in Hstore.
    unfold_calls. run_monad. rewrite Hstore. simpl.
    destruct (dataDirectory h) eqn:Hdir; cbn.
    + objects_known. rewrite Hstore. simpl. write_done.
      eexists _, _. split; [reflexivity|]. split; [same_world|].
      split; [|done]. apply wellFormed_alter. rewrite list_lookup_alter_eq, Hstore. by eexists.
    + eexists _, _. split; [reflexivity|]. split; [same_world|].
      split; [|done]. apply wellFormed_alter. rewrite list_lookup_alter_eq, Hstore. by eexists.
  - unfold_calls. run_monad.
    destruct (dataDirectory h) eqn:Hdir; cbn.
    + rewrite Hdir. cbn. objects_known. write_done.
      eexists _, _. split; [reflexivity|]. split.
      { same_world. }
      split; [|done]. apply wellFormed_new.
    + eexists _, _. split; [reflexivity|]. split; [reflexivity|]. done.
Qed.

Lemma refreshConversationMemoryIfNeeded_alone paperID title l :
  wellFormed l → queue l = [] →
  ∃ r l', alone (refreshConversationMemoryIfNeeded paperID title) l = Some (r, l')
          ∧ Conversation.refreshConversationMemoryIfNeeded paperID title (seen l)
            = (r, seen l')
          ∧ wellFormed l' ∧ queue l' = [].
Proof.
  intros Hwf Hq. destruct l as [h objs c q]. simpl in Hq. subst q.
  unfold Conversation.refreshConversationMemoryIfNeeded, writeMemory,
    Conversation.requestLLM, Store.loadStore, Store.persistStore,
    assignStore, Store.getStorePath, seen, alone.
  destruct c as [ref|].
  - destruct (Hwf ref eq_refl) as [store Hstore]. simpl in Hstore.
    unfold_calls. run_monad. cbn. unfold deref. cbn [objects].
    rewrite !Hstore. cbn [default]. change (Datatypes.id store) with store.
    destruct (refreshDue store paperID) as [n|] eqn:Hdue; cbn.
    2:{ eexists _, _. split; [reflexivity|]. split; [same_world|]. done. }
    destruct (bool_decide (cfgEndpoint (llmConfig h) = [])) eqn:Hendpoint; cbn.
    { eexists _, _. split; [reflexivity|]. split; [same_world|]. done. }
    destruct (bool_decide (cfgModel (llmConfig h) = [])) eqn:Hmodel; cbn.
    { eexists _, _. split; [reflexivity|]. split; [same_world|]. done. }
    destruct (llmServer h (llmCalls h)) as [payload|[message]] eqn:Hreply; cbn.
    2:{ eexists _, _. split; [reflexivity|]. split; [same_world|]. done. }
    pose proof (trim_idem payload) as Hidem.
    destruct (trim payload) as [|c0 r0] eqn:Etrim; cbn.
    { eexists _, _. split; [reflexivity|]. split; [same_world|]. done. }
    rewrite !Hidem. cbn.
    destruct (dataDirectory h) eqn:Hdir; cbn.
    + objects_known. rewrite Hstore. cbn. write_done.
      eexists _, _. split; [reflexivity|]. split; [same_world|].
      split; [|done]. apply wellFormed_alter. by eexists.
    + eexists _, _. split; [reflexivity|]. split; [same_world|].
      split; [|done]. apply wellFormed_alter. by eexists.
  - unfold_calls. run_monad.
    destruct (dataDirectory h) eqn:Hdir; cbn.
    2:{ eexists _, _. split; [reflexivity|]. split; [reflexivity|]. done. }
    rewrite ?Hdir. cbn. unfold deref. cbn [objects]. rewrite ?lookup_new.
    cbn [default]. set (store := default emptyStore (diskFile h)).
    change (Datatypes.id store) with store.
    destruct (refreshDue store paperID) as [n|] eqn:Hdue; cbn.
    2:{ eexists _, _. split; [reflexivity|]. split; [same_world|].
        split; [|done]. apply wellFormed_new. }
    destruct (bool_decide (cfgEndpoint (llmConfig h) = [])) eqn:Hendpoint; cbn.
    { eexists _, _. split; [reflexivity|]. split; [same_world|].
      split; [|done]. apply wellFormed_new. }
    destruct (bool_decide (cfgModel (llmConfig h) = [])) eqn:Hmodel; cbn.
    { eexists _, _. split; [reflexivity|]. split; [same_world|].
      split; [|done]. apply wellFormed_new. }
    destruct (llmServer h (llmCalls h)) as [payload|[message]] eqn:Hreply; cbn.
    2:{ eexists _, _. split; [reflexivity|]. split; [same_world|].
        split; [|done]. apply wellFormed_new. }
    pose proof (trim_idem payload) as Hidem.
    destruct (trim payload) as [|c0 r0] eqn:Etrim; cbn.
    { eexists _, _. split; [reflexivity|]. split; [same_world|].
      split; [|done]. apply wellFormed_new. }
    rewrite !Hidem. cbn. rewrite ?Hdir. cbn.
    objects_known. write_done.
    eexists _, _. split; [reflexivity|]. split; [same_world|].
    split; [|done]. apply wellFormed_new.
Qed.

(** *** Two appends that overlap *)


(** A fresh start: nothing loaded, no store file. *)
Definition loopFresh : Loop := mkLoop world0 [] None [].


(** Run one after the other, the two calls lose nothing. *)
Example appendConversation_one_by_one :
  ∃ l1 l2,
    alone (appendConversation (lit "42") [message user "q1"]) loopFresh
    = Some (Ok tt, l1)
    ∧ alone (appendConversation (lit "43") [message user "q2"]) l1
      = Some (Ok tt, l2)
    ∧ diskFile (host l2)
      = Some (appended (appended emptyStore (lit "42") [message user "q1"])
                       (lit "43") [message user "q2"]).
Proof. eexists _, _. repeat split; reflexivity. Qed.

(** *** A refresh that outlives its conversation *)

(** C7, as the code has it.  The store is loaded and a refresh is due
    for a conversation of [n >= 4] messages.  The refresh is started and
    not awaited; while it waits for the model, the conversation is
    cleared and the cleared store is written; then the summary arrives.
    The refresh stores a memory with [turnCount = n] for a conversation
    that is no longer there and writes it: [turnCount] is more than the
    length of the conversation, in memory and in the file, and nothing is
    logged. *)
Theorem refreshConversationMemoryIfNeeded_after_clear (l : Loop)
        (store : PaperStore) (paperID title : jsstring) (n : Z)
        (reply : jsstring) :
  objects l = [store] → cache l = Some O → queue l = [] →
  dataDirectory (host l) = true →
  cfgEndpoint (llmConfig (host l)) ≠ [] → cfgModel (llmConfig (host l)) ≠ [] →
  refreshDue store paperID = Some n →
  llmServer (host l) (llmCalls (host l)) = Ok reply → trim reply ≠ [] →
  ∃ l' final,
    run [call (refreshConversationMemoryIfNeeded paperID title);
         call (clearConversation paperID);
         resume 1; written; resume 1;
         resume 0;
         resume 0; written; resume 0] ([], l)
    = Some ([Return tt; Return tt], l')
    ∧ objects l' = [final] ∧ cache l' = Some O ∧ queue l' = []
    ∧ diskFile (host l') = Some final
    ∧ logs (host l') = logs (host l)
    ∧ conversationOf final paperID = []
    ∧ memories final !! paperID = Some (mkMemory (trim reply) (clock (host l)) n)
    ∧ 4 ≤ n
    ∧ ¬ memoryInvariant final.
Proof.
  intros Hobjects Hcache Hqueue Hdir Hendpoint Hmodel Hdue Hreply Hink.
  destruct l as [h objs c q]. simpl in *. subst c q objs.
  pose proof (trim_idem reply) as Hidem.
  destruct (trim reply) as [|c0 r0] eqn:Etrim; [done|].
  assert (Hn : 4 ≤ n).
  { apply refreshDue_iff in Hdue as (-> & H4 & _). exact H4. }
  eexists _, _. split.
  { unfold_calls.
    repeat (first [rewrite Hdir | rewrite Hdue | rewrite Hreply | rewrite Etrim
                  | rewrite Hidem
                  | rewrite (bool_decide_eq_false_2 _ Hendpoint)
                  | rewrite (bool_decide_eq_false_2 _ Hmodel)
                  | write_done | progress cbn]).
    reflexivity. }
  cbn. split; [reflexivity|]. split; [done|]. split; [done|]. split; [done|].
  split; [done|].
  match goal with |- conversationOf ?f paperID = [] ∧ _ => set (final := f) end.
  assert (Hconv : conversationOf final paperID = []).
  { unfold conversationOf. subst final. simpl. by rewrite lookup_delete_eq. }
  assert (Hmemory : memories final !! paperID = Some (mkMemory (c0 :: r0) (clock h) n)).
  { subst final. simpl. apply lookup_insert_eq. }
  split; [exact Hconv|]. split; [exact Hmemory|]. split; [done|].
  intros Hinv. destruct (Hinv paperID) as [_ Hmem].
  specialize (Hmem _ Hmemory). rewrite Hconv in Hmem.
  simpl in Hmem. unfold len in Hmem. simpl in Hmem. lia.
Qed.

(** The store is loaded and holds a conversation of four messages. *)
Definition loopChat : Loop := mkLoop worldChat [storeFour] (Some O) [].

Lemma refreshConversationMemoryIfNeeded_after_clear_witness :
  ∃ l' final,
    run [call (refreshConversationMemoryIfNeeded (lit "42") (lit "A paper"));
         call (clearConversation (lit "42"));
         resume 1; written; resume 1;
         resume 0;
         resume 0; written; resume 0] ([], loopChat)
    = Some ([Return tt; Return tt], l')
    ∧ diskFile (host l') = Some final
    ∧ conversationOf final (lit "42") = []
    ∧ memories final !! lit "42"
      = Some (mkMemory (lit "the user asks about attention")
                       (lit "2024-01-01T00:00:00.000Z") 4).
Proof.
  destruct (refreshConversationMemoryIfNeeded_after_clear loopChat storeFour
              (lit "42") (lit "A paper") 4 (lit " the user asks about attention ")
              eq_refl eq_refl eq_refl eq_refl
              ltac:(discriminate) ltac:(discriminate) eq_refl eq_refl
              ltac:(discriminate))
    as (l' & final & Hrun & _ & _ & _ & Hfile & _ & Hconv & Hmem & _).
  exists l', final. split; [exact Hrun|]. split; [exact Hfile|].
  split; [exact Hconv|]. exact Hmem.
Defined.

(** A refresh whose write cannot be started ([getStorePath] throws):
    the memory has been replaced in the store object before, and the
    refresh is logged as skipped. *)
Lemma refreshConversationMemoryIfNeeded_unwritten (l : Loop)
      (store : PaperStore) (paperID title : jsstring) (n : Z) (reply : jsstring) :
  objects l = [store] → cache l = Some O → queue l = [] →
  dataDirectory (host l) = false →
  cfgEndpoint (llmConfig (host l)) ≠ [] → cfgModel (llmConfig (host l)) ≠ [] →
  refreshDue store paperID = Some n →
  llmServer (host l) (llmCalls (host l)) = Ok reply → trim reply ≠ [] →
  ∃ l' final,
    alone (refreshConversationMemoryIfNeeded paperID title) l = Some (Ok tt, l')
    ∧ objects l' = [final] ∧ cache l' = Some O
    ∧ memories final !! paperID = Some (mkMemory (trim reply) (clock (host l)) n)
    ∧ writes (host l') = writes (host l) ∧ queue l' = []
    ∧ logs (host l') = logs (host l) ++ ["Conversation memory refresh skipped"%string].
Proof.
  intros Hobjects Hcache Hqueue Hdir Hendpoint Hmodel Hdue Hreply Hink.
  destruct l as [h objs c q]. simpl in *. subst c q objs.
  pose proof (trim_idem reply) as Hidem.
  destruct (trim reply) as [|c0 r0] eqn:Etrim; [done|].
  eexists _, _. split.
  { unfold alone. unfold_calls.
    repeat (first [rewrite Hdir | rewrite Hdue | rewrite Hreply | rewrite Etrim
                  | rewrite Hidem
                  | rewrite (bool_decide_eq_false_2 _ Hendpoint)
                  | rewrite (bool_decide_eq_false_2 _ Hmodel)
                  | progress cbn]).
    reflexivity. }
  cbn. split; [reflexivity|]. split; [done|]. split; [|done].
  simpl. apply lookup_insert_eq.
Qed.

End EventLoop.


(* ===================================================================== *)
(** ** Retrieval engine *)
(* ===================================================================== *)

Module Retrieval.
Import Js Text Store.

(** A count or a length as a JavaScript number. *)
Definition num (n : Z) : float := PrimFloat.of_uint63 (Uint63.of_Z n).

(** [cosineSimilarity]: the loop runs over the first
    [min(vecA.length, vecB.length)] components. *)
Fixpoint accumulate (size : nat) (vecA vecB : list float)
         (acc : float * float * float) : float * float * float :=
  match size, vecA, vecB with
  | S size', a :: vecA', b :: vecB' =>
    let '(dot, normA, normB) := acc in
    accumulate size' vecA' vecB'
               ((dot + a * b)%float, (normA + a * a)%float, (normB + b * b)%float)
  | _, _, _ => acc
  end.

Definition cosineSimilarity (vecA vecB : list float) : float :=
  let size := Nat.min (length vecA) (length vecB) in
  if (size <=? 0)%nat then 0%float
  else
    let '(dot, normA, normB) := accumulate size vecA vecB (0, 0, 0)%float in
    if (normA <=? 0)%float || (normB <=? 0)%float then 0%float
    else (dot / (PrimFloat.sqrt normA * PrimFloat.sqrt normB))%float.

(** [limitChunksByContext] and [selectSummaryChunks]: chunks are taken
    until the character count reaches the budget. *)
Fixpoint takeUntilBudget (chunks : list TextChunk) (charCount maxChars : Z)
  : list TextChunk :=
  match chunks with
  | [] => []
  | chunk :: rest =>
    let charCount := charCount + len (text chunk) in
    chunk :: if charCount >=? maxChars then []
             else takeUntilBudget rest charCount maxChars
  end.

Definition limitChunksByContext (chunks : list TextChunk) : list TextChunk :=
  takeUntilBudget chunks 0 MAX_CONTEXT_CHARS.

Definition selectSummaryChunks (index : PaperIndex) : list TextChunk :=
  takeUntilBudget (chunks index) 0 MAX_CONTEXT_CHARS.

(** [x || 0] for a number: zero and NaN are falsy. *)
Definition orZero (x : option float) : float :=
  match x with
  | Some v => if PrimFloat.is_nan v || (v =? 0)%float then 0%float else v
  | None => 0%float
  end.

(** [Array.prototype.sort] is stable: [a] stays before [b] unless the
    comparator is positive on [(a, b)]. *)
Fixpoint insertSorted {A} (cmp : A → A → float) (x : A) (l : list A) : list A :=
  match l with
  | [] => [x]
  | y :: r => if (0 <? cmp x y)%float then y :: insertSorted cmp x r
              else x :: y :: r
  end.

Definition sortBy {A} (cmp : A → A → float) (l : list A) : list A :=
  foldr (insertSorted cmp) [] l.

(** [str.split(/\s+/)] *)
Fixpoint splitWs (s cur : jsstring) (inSeparator : bool) : list jsstring :=
  match s with
  | [] => [cur]
  | c :: r =>
    if isWhiteSpace c then
      if inSeparator then splitWs r cur true
      else cur :: splitWs r [] true
    else splitWs r (cur ++ [c]) false
  end.

(** The character class kept by [tokenize]. *)
Definition keptByTokenizer (c : N) : bool :=
  ((97 <=? c) && (c <=? 122) || (48 <=? c) && (c <=? 57)
   || (192 <=? c) && (c <=? 591) || (19968 <=? c) && (c <=? 40959)
   || (44032 <=? c) && (c <=? 55215))%N
  || isWhiteSpace c.

(** [new Set(tokens)] keeps the first occurrence of each token. *)
Definition dedupe (tokens : list jsstring) : list jsstring :=
  foldl (λ seen t, if bool_decide (t ∈ seen) then seen else seen ++ [t]) [] tokens.

Inductive RetrievalMode := keyword | hybrid.

Record RetrievalResult := mkResult {
  resultChunks : list TextChunk;
  retrievalMode : RetrievalMode;
}.

(** [normalizeScores] *)
Definition normalizeScores (scores : gmap jsstring float) : gmap jsstring float :=
  if bool_decide (size scores = O) then ∅
  else
    let lo := map_fold (λ _ score lo, if (score <? lo)%float then score else lo)
                       infinity scores in
    let hi := map_fold (λ _ score hi, if (hi <? score)%float then score else hi)
                       neg_infinity scores in
    if negb (PrimFloat.is_finite lo) || negb (PrimFloat.is_finite hi) then ∅
    else if (PrimFloat.abs (hi - lo) <? 1e-9)%float then (λ _, 1%float) <$> scores
    else (λ score, ((score - lo) / (hi - lo))%float) <$> scores.

Section Host.

(** Two functions of the host: [String.prototype.toLowerCase] and
    [Math.log]. *)
Variable toLowerCase : jsstring → jsstring.
Variable Math_log : float → float.

Definition tokenize (t : jsstring) : list jsstring :=
  filter (λ token, 1 < len token)
         (splitWs (map (λ c, if keptByTokenizer c then c else 32%N) (toLowerCase t))
                  [] false).

Definition scoreChunk (t : jsstring) (queryTokens : list jsstring) : float :=
  let tokens := tokenize t in
  match tokens with
  | [] => 0%float
  | _ :: _ =>
    let score :=
      foldl (λ score token,
               let tf := len (filter (λ t', t' = token) tokens) in
               if 0 <? tf then (score + (1 + Math_log (num tf)))%float else score)
            0%float queryTokens in
    (score / PrimFloat.sqrt (num (len tokens)))%float
  end.

Definition lexicalScoresOf (index : PaperIndex) (queryTokens : list jsstring)
  : gmap jsstring float :=
  foldl (λ scores chunk,
           let score := scoreChunk (text chunk) queryTokens in
           if (0 <? score)%float then <[id chunk := score]> scores else scores)
        ∅ (chunks index).

Definition keywordChunksOf (index : PaperIndex) (queryTokens : list jsstring)
           (topK : Z) : list TextChunk :=
  let lexicalScores := lexicalScoresOf index queryTokens in
  limitChunksByContext
    (slice
       (sortBy (λ a b, (orZero (lexicalScores !! id b)
                        - orZero (lexicalScores !! id a))%float)
               (filter (λ chunk, (0 <? orZero (lexicalScores !! id chunk))%float = true)
                       (chunks index)))
       0 topK).

(** The keyword-only result: what every [return] with
    [retrievalMode: "keyword"] after the scoring gives. *)
Definition keywordResult (index : PaperIndex) (queryTokens : list jsstring)
           (topK : Z) : RetrievalResult :=
  mkResult
    match keywordChunksOf index queryTokens topK with
    | [] => slice (selectSummaryChunks index) 0 topK
    | keywordChunks => keywordChunks
    end
    keyword.

Definition denseScoresOf (index : PaperIndex) (queryVector : list float)
           (chunkVectors : gmap jsstring (list float)) : gmap jsstring float :=
  foldl (λ scores chunk,
           match chunkVectors !! id chunk with
           | None | Some [] => scores
           | Some vector =>
             let score := cosineSimilarity queryVector vector in
             if PrimFloat.is_finite score then <[id chunk := score]> scores
             else scores
           end)
        ∅ (chunks index).

Definition rankedChunks (index : PaperIndex) (queryTokens : list jsstring)
           (queryVector : list float) (chunkVectors : gmap jsstring (list float))
           (topK : Z) : list TextChunk :=
  let lexicalNorm := normalizeScores (lexicalScoresOf index queryTokens) in
  let denseNorm := normalizeScores (denseScoresOf index queryVector chunkVectors) in
  let denseWeight := if len queryTokens <? 4 then 0.62%float else 0.55%float in
  let lexicalWeight := (1 - denseWeight)%float in
  let scored :=
    map (λ chunk,
           (chunk, (lexicalWeight * orZero (lexicalNorm !! id chunk)
                    + denseWeight * orZero (denseNorm !! id chunk))%float))
        (chunks index) in
  map fst
      (slice (sortBy (λ a b, (b.2 - a.2)%float)
                     (filter (λ entry, (0 <? entry.2)%float = true) scored))
             0 topK).

Definition retrieveRelevantChunks (paperID : jsstring) (index : PaperIndex)
           (query : jsstring) (topK : Z) : M RetrievalResult :=
  let queryTokens := dedupe (tokenize query) in
  match queryTokens with
  | [] => mret (mkResult (slice (selectSummaryChunks index) 0 topK) keyword)
  | _ :: _ =>
    w ← getWorld;
    if negb (hybridSearch w) then mret (keywordResult index queryTokens topK)
    else
      tryCatch
        (queryVector ← Embeddings.requestEmbedding query;
         chunkVectors ← Embeddings.getOrCreateChunkEmbeddings paperID index;
         if bool_decide (queryVector = []) || bool_decide (size chunkVectors = O)
         then mret (keywordResult index queryTokens topK)
         else
           match rankedChunks index queryTokens queryVector chunkVectors topK with
           | [] => mret (keywordResult index queryTokens topK)
           | ranked => mret (mkResult (limitChunksByContext ranked) hybrid)
           end)
        (λ _, _ ← log "Hybrid retrieval failed; fallback to keyword retrieval";
              mret (keywordResult index queryTokens topK))
  end.

End Host.

(** *** Cosine similarity *)

(** The sums the loop builds, over components in order. *)
Definition dotProduct (pairs : list (float * float)) (start : float) : float :=
  foldl (λ acc p, (acc + p.1 * p.2)%float) start pairs.

Definition squaredNorm (v : list float) (start : float) : float :=
  foldl (λ acc a, (acc + a * a)%float) start v.

(** A component that is a zero of either sign. *)
Definition isZero (x : float) : Prop := x = 0%float ∨ x = (-0)%float.

Lemma accumulate_sums size vecA vecB d x y :
  (size ≤ length vecA)%nat → (size ≤ length vecB)%nat →
  accumulate size vecA vecB (d, x, y)
  = (dotProduct (zip (take size vecA) (take size vecB)) d,
     squaredNorm (take size vecA) x, squaredNorm (take size vecB) y).
Proof.
  revert vecA vecB d x y.
  induction size as [|size IH]; intros vecA vecB d x y Ha Hb.
  - by destruct vecA, vecB.
  - destruct vecA as [|a vecA]; [simpl in Ha; lia|].
    destruct vecB as [|b vecB]; [simpl in Hb; lia|].
    simpl in Ha, Hb. cbn [accumulate]. rewrite IH by lia. done.
Qed.

Lemma squaredNorm_zeros v : Forall isZero v → squaredNorm v 0%float = 0%float.
Proof.
  unfold squaredNorm. induction 1 as [|x v [->| ->] _ IH]; [done| |];
    cbn [foldl]; exact IH.
Qed.

Lemma zip_take_min {A B} (l : list A) (k : list B) :
  zip (take (Nat.min (length l) (length k)) l)
      (take (Nat.min (length l) (length k)) k) = zip l k.
Proof.
  revert k. induction l as [|x l IH]; intros k; [done|].
  destruct k as [|y k]; [done|]. simpl. f_equal. apply IH.
Qed.

(** C10.  [cosineSimilarity] is a total function of the two vectors.
    Its sums run over the first [min(lengthA, lengthB)] components only.
    It returns exactly 0 when either vector is empty and when the squared
    norm of either truncated vector is zero (in particular when all its
    components are zeros), and divides only past that guard. *)
Theorem cosineSimilarity_guarded (vecA vecB : list float) :
  let size := Nat.min (length vecA) (length vecB) in
  let a := take size vecA in
  let b := take size vecB in
  cosineSimilarity vecA vecB
  = (if bool_decide (size = O) then 0
     else if (squaredNorm a 0 <=? 0) || (squaredNorm b 0 <=? 0) then 0
     else dotProduct (zip a b) 0
          / (PrimFloat.sqrt (squaredNorm a 0) * PrimFloat.sqrt (squaredNorm b 0)))%float
  ∧ cosineSimilarity vecA vecB = cosineSimilarity a b
  ∧ zip a b = zip vecA vecB
  ∧ (vecA = [] ∨ vecB = [] → cosineSimilarity vecA vecB = 0%float)
  ∧ (squaredNorm a 0 = 0%float ∨ squaredNorm b 0 = 0%float →
     cosineSimilarity vecA vecB = 0%float)
  ∧ (Forall isZero a ∨ Forall isZero b → cosineSimilarity vecA vecB = 0%float).
Proof.
  intros size a b.
  assert (Hmain : cosineSimilarity vecA vecB
    = (if bool_decide (size = O) then 0
       else if (squaredNorm a 0 <=? 0) || (squaredNorm b 0 <=? 0) then 0
       else dotProduct (zip a b) 0
            / (PrimFloat.sqrt (squaredNorm a 0)
               * PrimFloat.sqrt (squaredNorm b 0)))%float).
  { unfold cosineSimilarity. change (Nat.min (length vecA) (length vecB)) with size.
    destruct (Nat.leb_spec size 0) as [H|H].
    - by rewrite bool_decide_eq_true_2 by lia.
    - rewrite bool_decide_eq_false_2 by lia.
      rewrite accumulate_sums by (subst size; lia). done. }
  assert (Hzero : squaredNorm a 0 = 0%float ∨ squaredNorm b 0 = 0%float →
                  cosineSimilarity vecA vecB = 0%float).
  { intros H. rewrite Hmain. case_bool_decide; [done|].
    destruct H as [-> | ->]; [done|]. by rewrite orb_true_r. }
  split; [exact Hmain|]. split; [|split; [|split; [|split]]].
  - rewrite Hmain. unfold cosineSimilarity.
    assert (Hs : Nat.min (length a) (length b) = size).
    { subst a b. rewrite !length_take. lia. }
    rewrite Hs. destruct (Nat.leb_spec size 0) as [H|H].
    + by rewrite bool_decide_eq_true_2 by lia.
    + rewrite bool_decide_eq_false_2 by lia.
      rewrite accumulate_sums by (subst a b; rewrite length_take; lia).
      subst a b. rewrite !take_take, Nat.min_id. done.
  - apply zip_take_min.
  - intros [-> | ->]; rewrite Hmain; subst size; simpl.
    + done.
    + by rewrite Nat.min_0_r.
  - exact Hzero.
  - intros [H|H]; apply Hzero; [left|right]; by apply squaredNorm_zeros.
Qed.

Example cosineSimilarity_values :
  cosineSimilarity [3; 4]%float [3; 4; 100]%float = 1%float
  ∧ cosineSimilarity [1; 0]%float [0; 1]%float = 0%float
  ∧ cosineSimilarity [0; 0]%float [1; 2]%float = 0%float
  ∧ cosineSimilarity []%float [1]%float = 0%float
  ∧ cosineSimilarity [nan]%float [0]%float = 0%float.
Proof. repeat split; reflexivity. Qed.

Lemma cosineSimilarity_guarded_witness :
  cosineSimilarity [0; -0]%float [1; 2; 3]%float = 0%float.
Proof.
  destruct (cosineSimilarity_guarded [0; -0]%float [1; 2; 3]%float)
    as (_ & _ & _ & _ & _ & H).
  apply H. left. simpl.
  apply Forall_cons_2; [by left|]. apply Forall_cons_2; [by right|].
  apply Forall_nil_2.
Defined.

(** *** Keyword fallback *)

(** A positive number is neither zero nor NaN, so [x || 0] is [x]. *)
Lemma positive_orZero (v : float) :
  (0 <? v)%float = true → orZero (Some v) = v.
Proof.
  intros H. unfold orZero, PrimFloat.is_nan.
  rewrite FloatAxioms.ltb_spec in H. rewrite !FloatAxioms.eqb_spec.
  change (Prim2SF 0) with (S754_zero false) in *.
  unfold SFltb, SFeqb in *.
  destruct (Prim2SF v) as [sg|sg| |sg m e]; simpl in *; try discriminate H.
  - destruct sg; [discriminate H | done].
  - destruct sg; [discriminate H|]. simpl.
    rewrite Z.compare_refl. by rewrite Pos.compare_cont_refl.
Qed.

Lemma zero_orZero : (0 <? orZero None)%float = false.
Proof. reflexivity. Qed.

Lemma length_insertSorted {A} (cmp : A → A → float) x l :
  length (insertSorted cmp x l) = S (length l).
Proof.
  induction l as [|y r IH]; simpl; [done|].
  destruct (0 <? cmp x y)%float; simpl; by rewrite ?IH.
Qed.

Lemma length_sortBy {A} (cmp : A → A → float) l :
  length (sortBy cmp l) = length l.
Proof.
  induction l as [|x l IH]; simpl; [done|].
  by rewrite length_insertSorted, IH.
Qed.

Lemma takeUntilBudget_prefix chunks charCount maxChars :
  takeUntilBudget chunks charCount maxChars `prefix_of` chunks.
Proof.
  revert charCount. induction chunks as [|c chunks IH]; intros charCount; simpl.
  - done.
  - destruct (_ >=? _).
    + by apply prefix_cons, prefix_nil.
    + by apply prefix_cons.
Qed.

Lemma takeUntilBudget_nonempty chunks charCount maxChars :
  chunks ≠ [] → takeUntilBudget chunks charCount maxChars ≠ [].
Proof. by destruct chunks. Qed.

Lemma slice_prefix_nonempty {A} (l : list A) (n : Z) :
  0 < n → l ≠ [] → slice l 0 n ≠ [].
Proof.
  intros Hn Hl. rewrite slice_prefix by lia.
  destruct l; [done|]. destruct (Z.to_nat n) eqn:E; [lia|done].
Qed.

Lemma slice_prefix_of {A} (l : list A) (n : Z) :
  0 ≤ n → slice l 0 n `prefix_of` l.
Proof. intros Hn. rewrite slice_prefix by done. apply prefix_take. Qed.

Section HostFacts.

Variable toLowerCase : jsstring → jsstring.
Variable Math_log : float → float.

Abbreviation scoreOf queryTokens chunk :=
  (scoreChunk toLowerCase Math_log (text chunk) queryTokens).

(** The scores the loop records: all positive, one for the id of every
    chunk with a positive score. *)
Lemma lexicalScores_fold (queryTokens : list jsstring) (chunks0 : list TextChunk)
      (scores : gmap jsstring float) :
  let result :=
    foldl (λ scores chunk,
             let score := scoreOf queryTokens chunk in
             if (0 <? score)%float then <[id chunk := score]> scores else scores)
          scores chunks0 in
  ((∀ k v, scores !! k = Some v → (0 <? v)%float = true) →
   ∀ k v, result !! k = Some v → (0 <? v)%float = true)
  ∧ (∀ k, is_Some (scores !! k) → is_Some (result !! k))
  ∧ (∀ chunk, chunk ∈ chunks0 → (0 <? scoreOf queryTokens chunk)%float = true →
       is_Some (result !! id chunk))
  ∧ (scores = ∅ →
     (∀ chunk, chunk ∈ chunks0 → (0 <? scoreOf queryTokens chunk)%float = false) →
     result = ∅).
Proof.
  revert scores. induction chunks0 as [|c chunks0 IH]; intros scores; cbn zeta.
  - split_and!; try done. intros chunk H. by apply elem_of_nil in H.
  - cbn [foldl].
    set (next := if (0 <? scoreOf queryTokens c)%float
                 then <[id c := scoreOf queryTokens c]> scores else scores).
    destruct (IH next) as (H1 & H2 & H3 & H4).
    split_and!.
    + intros Hpos. apply H1. intros k v. subst next.
      destruct (0 <? scoreOf queryTokens c)%float eqn:E; [|apply Hpos].
      rewrite lookup_insert. case_decide; [|apply Hpos]. by intros [= <-].
    + intros k Hk. apply H2. subst next.
      destruct (0 <? scoreOf queryTokens c)%float; [|done].
      rewrite lookup_insert. case_decide; [by eexists | done].
    + intros chunk Hin Hs. apply elem_of_cons in Hin as [->|Hin].
      * apply H2. subst next. rewrite Hs. rewrite lookup_insert_eq. by eexists.
      * by apply H3.
    + intros -> Hnone. apply H4.
      * subst next. rewrite Hnone; [done | by left].
      * intros chunk Hin. apply Hnone. by right.
Qed.

Lemma keywordChunks_nonempty (index : PaperIndex) (queryTokens : list jsstring)
      (topK : Z) (chunk : TextChunk) :
  0 < topK → chunk ∈ chunks index →
  (0 <? scoreOf queryTokens chunk)%float = true →
  keywordChunksOf toLowerCase Math_log index queryTokens topK ≠ [].
Proof.
  intros Hk Hin Hs. unfold keywordChunksOf, limitChunksByContext.
  apply takeUntilBudget_nonempty, slice_prefix_nonempty; [done|].
  intros E. apply (f_equal length) in E. rewrite length_sortBy in E.
  destruct (lexicalScores_fold queryTokens (chunks index) ∅)
    as (Hpos & _ & Hdom & _).
  destruct (Hdom chunk Hin Hs) as [v Hv].
  change (lexicalScoresOf toLowerCase Math_log index queryTokens !! id chunk
          = Some v) in Hv.
  assert ((0 <? v)%float = true) as Hv'.
  { eapply Hpos; [|exact Hv]. intros k v'. by rewrite lookup_empty. }
  assert (chunk ∈ filter
            (λ c, (0 <? orZero (lexicalScoresOf toLowerCase Math_log index
                                  queryTokens !! id c))%float = true)
            (chunks index)) as Hf.
  { apply list_elem_of_filter. split; [|done].
    rewrite Hv. by rewrite positive_orZero. }
  destruct (filter _ (chunks index)); [by apply elem_of_nil in Hf | done].
Qed.

Lemma keywordChunks_empty (index : PaperIndex) (queryTokens : list jsstring)
      (topK : Z) :
  (∀ chunk, chunk ∈ chunks index →
     (0 <? scoreOf queryTokens chunk)%float = false) →
  keywordChunksOf toLowerCase Math_log index queryTokens topK = [].
Proof.
  intros Hnone. unfold keywordChunksOf.
  destruct (lexicalScores_fold queryTokens (chunks index) ∅) as (_ & _ & _ & He).
  assert (lexicalScoresOf toLowerCase Math_log index queryTokens = ∅) as ->
    by exact (He eq_refl Hnone).
  assert (filter (λ chunk : TextChunk,
            (0 <? orZero ((∅ : gmap jsstring float) !! id chunk))%float = true)
            (chunks index) = []) as ->.
  { clear Hnone He. induction (chunks index) as [|c l IH]; [done|].
    rewrite filter_cons, IH. rewrite lookup_empty.
    by rewrite decide_False by (by rewrite zero_orZero). }
  unfold limitChunksByContext, slice, sortBy. cbn [foldr].
  by rewrite drop_nil, take_nil.
Qed.

Lemma requestEmbedding_unset query w :
  cfgEndpoint (embeddingConfig w) = [] ∨ cfgModel (embeddingConfig w) = [] →
  ∃ e, Embeddings.requestEmbedding query w = (Throw e, w).
Proof.
  intros H. unfold Embeddings.requestEmbedding, Embeddings.requestEmbeddings.
  IndexManager.run_monad.
  assert (bool_decide (cfgEndpoint (embeddingConfig w) = [])
          || bool_decide (cfgModel (embeddingConfig w) = []) = true) as ->.
  { apply orb_true_iff. rewrite !bool_decide_eq_true. done. }
  by eexists.
Qed.

(** C3.  [retrieveRelevantChunks] never throws.  With hybrid search on
    and a query that has tokens, whenever the embedding path fails (the
    embedding endpoint or model is unset, the embedding request or the
    chunk embeddings throw, the query vector is empty, or there are no
    chunk vectors) the result is the keyword-only one: its mode is
    [keyword]; for [topK >= 1] its chunk list is non-empty as soon as one
    chunk scores above zero, and when none does it is the leading part of
    the index's chunks that fits the budget, non-empty for a non-empty
    index. *)
Theorem retrieveRelevantChunks_fallback (paperID : jsstring) (index : PaperIndex)
        (query : jsstring) (topK : Z) (w : World) :
  let queryTokens := dedupe (tokenize toLowerCase query) in
  let fallback := keywordResult toLowerCase Math_log index queryTokens topK in
  let retrieve :=
    retrieveRelevantChunks toLowerCase Math_log paperID index query topK in
  let logged := add_log "Hybrid retrieval failed; fallback to keyword retrieval" in
  (∃ result w', retrieve w = (Ok result, w'))
  ∧ (queryTokens ≠ [] → hybridSearch w = true →
       (cfgEndpoint (embeddingConfig w) = [] ∨ cfgModel (embeddingConfig w) = [] →
          ∃ e, Embeddings.requestEmbedding query w = (Throw e, w))
       ∧ (∀ e w1, Embeddings.requestEmbedding query w = (Throw e, w1) →
            retrieve w = (Ok fallback, logged w1))
       ∧ (∀ queryVector w1,
            Embeddings.requestEmbedding query w = (Ok queryVector, w1) →
            (∀ e w2,
               Embeddings.getOrCreateChunkEmbeddings paperID index w1 = (Throw e, w2) →
               retrieve w = (Ok fallback, logged w2))
            ∧ (∀ chunkVectors w2,
                 Embeddings.getOrCreateChunkEmbeddings paperID index w1
                 = (Ok chunkVectors, w2) →
                 queryVector = [] ∨ chunkVectors = ∅ →
                 retrieve w = (Ok fallback, w2))))
  ∧ retrievalMode fallback = keyword
  ∧ (0 < topK →
       ((∃ chunk, chunk ∈ chunks index
                  ∧ (0 <? scoreOf queryTokens chunk)%float = true) →
        resultChunks fallback ≠ [])
       ∧ ((∀ chunk, chunk ∈ chunks index →
                    (0 <? scoreOf queryTokens chunk)%float = false) →
          resultChunks fallback = slice (selectSummaryChunks index) 0 topK
          ∧ resultChunks fallback `prefix_of` chunks index
          ∧ (chunks index ≠ [] → resultChunks fallback ≠ []))).
Proof.
  intros queryTokens fallback retrieve logged.
  assert (Hrun : queryTokens ≠ [] → hybridSearch w = true →
    retrieve w
    = tryCatch
        (queryVector ← Embeddings.requestEmbedding query;
         chunkVectors ← Embeddings.getOrCreateChunkEmbeddings paperID index;
         if bool_decide (queryVector = []) || bool_decide (size chunkVectors = O)
         then mret fallback
         else
           match rankedChunks toLowerCase Math_log index queryTokens queryVector
                              chunkVectors topK with
           | [] => mret fallback
           | ranked => mret (mkResult (limitChunksByContext ranked) hybrid)
           end)
        (λ _, _ ← log "Hybrid retrieval failed; fallback to keyword retrieval";
              mret fallback) w).
  { intros Hq Hh. subst retrieve. unfold retrieveRelevantChunks.
    fold queryTokens. destruct queryTokens as [|t ts] eqn:E; [done|].
    unfold mbind at 1. unfold M_bind at 1. unfold getWorld at 1.
    cbn beta iota. rewrite Hh. reflexivity. }
  split; [|split; [|split]].
  - destruct (decide (queryTokens = [])) as [Hq|Hq].
    { subst retrieve. unfold retrieveRelevantChunks. fold queryTokens.
      rewrite Hq. by eexists _, _. }
    destruct (hybridSearch w) eqn:Hh.
    2:{ subst retrieve. unfold retrieveRelevantChunks. fold queryTokens.
        destruct queryTokens; [done|].
        unfold mbind, M_bind, getWorld. rewrite Hh. by eexists _, _. }
    rewrite Hrun by done. unfold tryCatch.
    match goal with |- ∃ _ _, match ?b with _ => _ end = _ =>
      destruct b as [[r|e] w1] end.
    + by eexists _, _.
    + unfold log. IndexManager.run_monad. by eexists _, _.
  - intros Hq Hh. rewrite Hrun by done. split; [apply requestEmbedding_unset|].
    split.
    + intros e w1 He. unfold tryCatch. unfold mbind at 1. unfold M_bind at 1.
      rewrite He. reflexivity.
    + intros queryVector w1 Hv. split.
      * intros e w2 Hc. unfold tryCatch. unfold mbind at 1. unfold M_bind at 1.
        rewrite Hv. unfold mbind at 1. unfold M_bind at 1. rewrite Hc.
        reflexivity.
      * intros chunkVectors w2 Hc Hempty. unfold tryCatch.
        unfold mbind at 1. unfold M_bind at 1.
        rewrite Hv. unfold mbind at 1. unfold M_bind at 1. rewrite Hc.
        assert (bool_decide (queryVector = [])
                || bool_decide (size chunkVectors = O) = true) as ->.
        { apply orb_true_iff. rewrite !bool_decide_eq_true.
          destruct Hempty as [->| ->]; [by left | right; apply map_size_empty]. }
        reflexivity.
  - done.
  - intros Hk. split.
    + intros (chunk & Hin & Hs). subst fallback. unfold keywordResult. simpl.
      pose proof (keywordChunks_nonempty index queryTokens topK chunk Hk Hin Hs).
      by destruct (keywordChunksOf toLowerCase Math_log index queryTokens topK).
    + intros Hnone. subst fallback. unfold keywordResult. simpl.
      rewrite keywordChunks_empty by done.
      split; [done|]. split.
      * etrans; [apply slice_prefix_of; lia|]. apply takeUntilBudget_prefix.
      * intros Hne. apply slice_prefix_nonempty; [done|].
        by apply takeUntilBudget_nonempty.
Qed.

End HostFacts.

(** A lower-casing of ASCII letters and a stand-in for the logarithm, to
    run the definitions on examples. *)
Definition asciiLower (s : jsstring) : jsstring :=
  map (λ c, if (65 <=? c)%N && (c <=? 90)%N then (c + 32)%N else c) s.

Definition logStandIn (x : float) : float := (x - 1)%float.

Definition worldHybridUnset : World :=
  mkWorld None None [] ∅ true (lit "2024-01-01T00:00:00.000Z")
          (mkConfig [] (lit "embed"))
          true
          (λ _ _, Throw (Error "offline")) []
          (mkConfig (lit "http://e/chat/completions") (lit "chat"))
          (λ _, Throw (Error "offline")) O
          (λ _, Throw (Error "no outline")) [] [].

Example tokenize_example :
  tokenize asciiLower (lit "The  Beta-model, a b!") = [lit "the"; lit "beta"; lit "model"]
  ∧ dedupe [lit "x1"; lit "y2"; lit "x1"] = [lit "x1"; lit "y2"].
Proof. split; reflexivity. Qed.

Lemma retrieveRelevantChunks_fallback_witness :
  ∃ w', retrieveRelevantChunks asciiLower logStandIn (lit "42")
          Embeddings.indexTwo (lit "what is beta") 6 worldHybridUnset
        = (Ok (keywordResult asciiLower logStandIn Embeddings.indexTwo
                 (dedupe (tokenize asciiLower (lit "what is beta"))) 6), w')
        ∧ resultChunks (keywordResult asciiLower logStandIn Embeddings.indexTwo
                          (dedupe (tokenize asciiLower (lit "what is beta"))) 6)
          ≠ [].
Proof.
  destruct (retrieveRelevantChunks_fallback asciiLower logStandIn (lit "42")
              Embeddings.indexTwo (lit "what is beta") 6 worldHybridUnset)
    as (_ & Hfail & _ & Hchunks).
  destruct (Hfail ltac:(vm_compute; discriminate) eq_refl) as (Hunset & Hthrow & _).
  destruct (Hunset ltac:(by left)) as [e He].
  eexists. split; [apply (Hthrow e _ He)|].
  destruct (Hchunks ltac:(done)) as (Hpos & _).
  apply Hpos. exists (mkChunk (lit "chunk-2") (lit "beta") 6 10).
  split; [right; left|]. vm_compute. reflexivity.
Defined.

End Retrieval.

(* ===================================================================== *)
(** ** Paper summary and its progress reports *)

Module Summary.
Import Js Text Store IndexManager Conversation Retrieval.

Record SummaryPlanSection := mkSection {
  secID : jsstring;
  secTitle : jsstring;
  objective : jsstring;
  retrievalQueries : list jsstring;
  headingLevel : Z;
}.

(** [SectionDraft]; its [retrievalMode] is always ["keyword"] here. *)
Record SectionDraft := mkDraft {
  draftSection : SummaryPlanSection;
  evidence : list TextChunk;
  draft : jsstring;
}.

Record PipelineResult := mkPipelineResult {
  pipelineAnswer : jsstring;
  pipelineUsedChunks : Z;
  pipelineSectionLinks : list ChatSectionLink;
}.

Definition SummaryProgressHandler : Type := SummaryProgress → M unit.

(** [Math.max] and [Math.min] of two numbers: NaN if either is, and
    [-0] below [+0]. *)
Definition Math_max (a b : float) : float :=
  if PrimFloat.is_nan a || PrimFloat.is_nan b then PrimFloat.nan
  else if (a <? b)%float then b
  else if (b <? a)%float then a
  else if PrimFloat.is_zero a then (a + b)%float
  else a.

Definition Math_min (a b : float) : float :=
  if PrimFloat.is_nan a || PrimFloat.is_nan b then PrimFloat.nan
  else if (a <? b)%float then a
  else if (b <? a)%float then b
  else if PrimFloat.is_zero a then (- (- a + - b))%float
  else a.

Definition reportSummaryProgress (handler : option SummaryProgressHandler)
           (percent : float) (stage : jsstring) : M unit :=
  match handler with
  | None => mret tt
  | Some handler => handler (mkProgress (Math_max 0 (Math_min 100 percent)) stage)
  end.

(** [extractSectionContextsFromAttachment] reads the PDF; what it finds,
    or that it fails, is given by the world. *)
Definition extractSectionContextsFromAttachment (attachmentID : Z)
  : M (list PdfSectionContext) :=
  w ← getWorld;
  match pdfSections w attachmentID with
  | Ok contexts => mret contexts
  | Throw (Error message) => throw message
  end.

Definition rangeText (entry : PdfSectionContext) : option jsstring :=
  match ctxStartPageNumber entry with
  | Some startPageNumber =>
    match ctxEndPageNumber entry with
    | Some endPageNumber =>
      if bool_decide (endPageNumber ≠ 0) && (startPageNumber <=? endPageNumber)
      then Some (lit "p." ++ decimal startPageNumber ++ lit "-"
                     ++ decimal endPageNumber)
      else Some (lit "p." ++ decimal startPageNumber)
    | None => Some (lit "p." ++ decimal startPageNumber)
    end
  | None => None
  end.

Definition planSection (index : nat) (entry : PdfSectionContext)
  : SummaryPlanSection :=
  let sectionID :=
    lit "toc-" ++ match ctxPath entry with
                  | [] => decimal (Z.of_nat index + 1)
                  | path => path
                  end in
  let objective :=
    match rangeText entry with
    | Some range =>
      ctxTitle entry
      ++ utf16 " 소목차의 핵심 주장, 방법, 결과, 한계를 정리 (범위 "
      ++ range ++ lit ")"
    | None =>
      ctxTitle entry ++ utf16 " 소목차의 핵심 주장, 방법, 결과, 한계를 정리"
    end in
  mkSection sectionID (ctxTitle entry) objective [ctxTitle entry]
            (ctxDepth entry + 1).

(** [prepareBookmarkContextSummaryPlan]: the plan's sections and
    [contextBySectionID]. *)
Definition prepareBookmarkContextSummaryPlan (contexts : list PdfSectionContext)
  : list SummaryPlanSection * gmap jsstring PdfSectionContext :=
  let selected := filter (λ entry, trim (ctxTitle entry) ≠ []) contexts in
  let sections := imap planSection selected in
  (sections,
   foldl (λ m p, <[secID p.1 := p.2]> m) ∅ (zip sections selected)).

Definition buildContextChunkFromPdfSection (section : PdfSectionContext)
  : TextChunk :=
  let raw := trim (ctxContextText section) in
  let text :=
    if MAX_CONTEXT_CHARS <? len raw
    then trim (slice raw 0 MAX_CONTEXT_CHARS) ++ lit "..."
    else raw in
  mkChunk (lit "toc:" ++ match ctxPath section with
                         | [] => ctxTitle section
                         | path => path
                         end)
          text 0 (len text).

(** [summarizePaperSinglePass].  The prompt is built from the index (the
    prompt configuration falls back to its defaults and never throws);
    the reply does not depend on it here. *)
Definition summarizePaperSinglePass (index : PaperIndex)
           (onProgress : option SummaryProgressHandler) : M (jsstring * Z) :=
  _ ← reportSummaryProgress onProgress 55 (utf16 "단일 패스 컨텍스트 구성");
  let contextChunks := selectSummaryChunks index in
  _ ← reportSummaryProgress onProgress 75 (utf16 "단일 패스 요약 생성");
  answerDraft ← requestLLM;
  mret (trim answerDraft, len contextChunks).

Definition draftSummarySection (index : PaperIndex) (section : SummaryPlanSection)
           (evidence : list TextChunk) : M jsstring :=
  sectionDraft ← requestLLM;
  mret (trim sectionDraft).

Definition draftOf (sectionDrafts : list SectionDraft)
  : gmap jsstring SectionDraft :=
  foldl (λ m d, <[secID (draftSection d) := d]> m) ∅ sectionDrafts.

Definition isUncertain (t : jsstring) : bool :=
  includes t (utf16 "근거 부족") || includes t (utf16 "정보 부족")
  || includes t (utf16 "불명확").

Definition composeSectionedSummary (index : PaperIndex)
           (sections : list SummaryPlanSection) (sectionDrafts : list SectionDraft)
  : jsstring :=
  let draftByID := draftOf sectionDrafts in
  let ordered :=
    join (lit (String "010" (String "010" EmptyString)))
      (map (λ section,
              let matched := default [] (trim ∘ draft <$> draftByID !! secID section) in
              lit "### " ++ secTitle section ++ lit (String "010" EmptyString)
              ++ match matched with
                 | [] => utf16 "근거 부족"
                 | text => text
                 end)
           sections) in
  let uncertain :=
    map (λ section, lit "- " ++ secTitle section)
        (filter (λ section,
                   isUncertain (default [] (draft <$> draftByID !! secID section))
                   = true)
                sections) in
  join (lit (String "010" EmptyString))
    [ lit "TL;DR: " ++ title index
      ++ utf16 "의 소목차별 핵심 내용을 상세 정리했습니다.";
      [];
      utf16 "## 소목차별 상세 요약";
      match ordered with
      | [] => utf16 "소목차를 찾지 못했습니다."
      | _ => ordered
      end;
      [];
      utf16 "## 확인이 필요한 항목";
      match uncertain with
      | [] => utf16 "- 없음"
      | _ => join (lit (String "010" EmptyString)) uncertain
      end ].

(** The [for] loop over the plan's sections: one report per section,
    then a draft when the section has context text. *)
Fixpoint draftSections (index : PaperIndex)
         (contextBySectionID : gmap jsstring PdfSectionContext)
         (onProgress : option SummaryProgressHandler) (totalSteps : Z)
         (sections : list SummaryPlanSection) (step : Z)
         (sectionDrafts : list SectionDraft) : M (Z * list SectionDraft) :=
  match sections with
  | [] => mret (step, sectionDrafts)
  | section :: rest =>
    let step := step + 1 in
    _ ← reportSummaryProgress onProgress
          (24 + (72 * num step) / num totalSteps)%float
          (utf16 "소목차 요약: " ++ secTitle section);
    sectionDrafts ←
      match contextBySectionID !! secID section with
      | None => mret sectionDrafts
      | Some context =>
        match trim (ctxContextText context) with
        | [] => mret sectionDrafts
        | _ =>
          let chunk := buildContextChunkFromPdfSection context in
          tryCatch
            (draft ← draftSummarySection index section [chunk];
             mret (sectionDrafts ++ [mkDraft section [chunk] draft]))
            (λ _, _ ← log "Bookmark section summary failed"; mret sectionDrafts)
        end
      end;
    draftSections index contextBySectionID onProgress totalSteps rest step
                  sectionDrafts
  end.

Definition runBookmarkContextSummaryPipeline (resolved : ResolvedPaper)
           (index : PaperIndex) (onProgress : option SummaryProgressHandler)
  : M PipelineResult :=
  let attachmentID := default 0 (itemID <$> attachmentItem resolved) in
  if bool_decide (attachmentID = 0)
  then throw "PDF attachment is required for bookmark-context summary."
  else
    _ ← reportSummaryProgress onProgress 12 (utf16 "PDF 목차 컨텍스트 추출");
    contexts ← extractSectionContextsFromAttachment attachmentID;
    let prepared := prepareBookmarkContextSummaryPlan contexts in
    match prepared.1 with
    | [] => throw "No bookmark sections available for summary."
    | sections =>
      let totalSteps := Z.max 1 (len sections + 1) in
      '(step, sectionDrafts) ←
        draftSections index prepared.2 onProgress totalSteps sections 0 [];
      let step := step + 1 in
      _ ← reportSummaryProgress onProgress
            (24 + (72 * num step) / num totalSteps)%float
            (utf16 "최종 요약 편집");
      let answerDraft := composeSectionedSummary index sections sectionDrafts in
      let usedEvidenceMap : gmap jsstring TextChunk :=
        foldl (λ m chunk, <[id chunk := chunk]> m) ∅
              (concat (map evidence sectionDrafts)) in
      let sectionLinks :=
        omap (λ section,
                context ← prepared.2 !! secID section;
                Some (mkLink (secTitle section) (Some (ctxPath context))
                             (match ctxStartPageNumber context with
                              | Some p => Some p
                              | None => ctxPageNumber context
                              end)
                             (Some attachmentID)))
             sections in
      mret (mkPipelineResult (trim answerDraft) (Z.of_nat (size usedEvidenceMap))
                             sectionLinks)
    end.

(** [summarizePaper].  [resolvePaper] looks the item up in Zotero.  The
    inner [try] around the pipeline cannot throw past its [catch], so what
    it leaves in [answer], [usedChunks] and [sectionLinks] is bound first;
    the rest of the outer [try] and its [catch] follow.  The memory
    refresh is started and not awaited: a failure of it is dropped. *)
Definition summarizePaper (resolvePaper : Item → M ResolvedPaper) (item : Item)
           (onProgress : option SummaryProgressHandler) : M (jsstring * Z) :=
  _ ← reportSummaryProgress onProgress 3 (utf16 "논문 로딩");
  resolved ← resolvePaper item;
  _ ← reportSummaryProgress onProgress 8 (utf16 "텍스트 인덱스 준비");
  index ← ensurePaperIndex resolved;
  let fallback : M (jsstring * Z) :=
    _ ← reportSummaryProgress onProgress 45 (utf16 "폴백 요약 실행");
    summarizePaperSinglePass index onProgress in
  tocResult ←
    match attachmentItem resolved with
    | Some _ =>
      tryCatch
        (tocResult ← runBookmarkContextSummaryPipeline resolved index onProgress;
         mret (pipelineAnswer tocResult, pipelineUsedChunks tocResult,
               Some (pipelineSectionLinks tocResult)))
        (λ _, _ ← log "Bookmark-context summary pipeline failed; fallback to single-pass";
              mret ([], 0, None))
    | None => mret ([], 0, None)
    end;
  let '(answer, usedChunks, sectionLinks) := tocResult in
  '(answer, usedChunks) ←
    tryCatch
      (match trim answer with
       | [] => fallback
       | _ => mret (answer, usedChunks)
       end)
      (λ _, _ ← log "Summary pipeline failed; fallback to single-pass";
            fallback);
  _ ← reportSummaryProgress onProgress 100 (utf16 "요약 완료");
  w ← getWorld;
  let assistantMessage :=
    mkMessage assistant answer (clock w)
              match sectionLinks with
              | Some (link :: links) => Some (link :: links)
              | _ => None
              end in
  _ ← appendConversation (paperID resolved)
        [mkMessage user (utf16 "이 논문을 요약해줘.") (clock w) None;
         assistantMessage];
  _ ← tryCatch (refreshConversationMemoryIfNeeded (paperID resolved) (title index))
               (λ _, mret tt);
  mret (answer, usedChunks).

(** The handler of the summary button: it shows each report as it comes. *)
Definition showProgress : SummaryProgressHandler :=
  λ state, modify (add_progress state).

Definition reported (w : World) : list float := map percent (progress w).

(** *** What a computation leaves alone *)

(** [Keeps obs m]: running [m] does not change what [obs] reads of the
    world, whether [m] returns or throws. *)
Definition Keeps {A X} (obs : World → X) (m : M A) : Prop :=
  ∀ w r w', m w = (r, w') → obs w' = obs w.

(** What the model service is asked and answers. *)
Definition llmState (w : World) : ServiceConfig * (nat → Result jsstring) * nat :=
  (llmConfig w, llmServer w, llmCalls w).

Lemma Keeps_ret {A X} (obs : World → X) (a : A) : Keeps obs (mret a).
Proof. by intros w r w' [= <- <-]. Qed.

Lemma Keeps_throw {A X} (obs : World → X) (message : string) :
  Keeps obs (throw (A := A) message).
Proof. by intros w r w' [= <- <-]. Qed.

Lemma Keeps_getWorld {X} (obs : World → X) : Keeps obs getWorld.
Proof. by intros w r w' [= <- <-]. Qed.

Lemma Keeps_modify {X} (obs : World → X) (f : World → World) :
  (∀ w, obs (f w) = obs w) → Keeps obs (modify f).
Proof. intros Hf w r w' [= <- <-]. apply Hf. Qed.

Lemma Keeps_bind {A B X} (obs : World → X) (m : M A) (f : A → M B) :
  Keeps obs m → (∀ a, Keeps obs (f a)) → Keeps obs (m ≫= f).
Proof.
  intros Hm Hf w r w'. unfold mbind, M_bind.
  destruct (m w) as [[a|e] w1] eqn:E.
  - intros H. rewrite (Hf a _ _ _ H). apply (Hm _ _ _ E).
  - intros [= <- <-]. apply (Hm _ _ _ E).
Qed.

Lemma Keeps_tryCatch {A X} (obs : World → X) (body : M A) (handler : Exn → M A) :
  Keeps obs body → (∀ e, Keeps obs (handler e)) → Keeps obs (tryCatch body handler).
Proof.
  intros Hm Hf w r w'. unfold tryCatch.
  destruct (body w) as [[a|e] w1] eqn:E.
  - intros [= <- <-]. apply (Hm _ _ _ E).
  - intros H. rewrite (Hf e _ _ _ H). apply (Hm _ _ _ E).
Qed.

Create HintDb keeps discriminated.
#[local] Hint Resolve Keeps_ret Keeps_throw Keeps_getWorld : keeps.

(** Take a computation apart along its binds, handlers and branches. *)
Ltac keeps :=
  repeat first
    [ apply Keeps_ret | apply Keeps_throw | apply Keeps_getWorld
    | apply Keeps_modify; solve [ intros; auto with keeps ]
    | apply Keeps_bind | apply Keeps_tryCatch
    | solve [ auto with keeps ]
    | match goal with
      | |- ∀ _, _ => intros ?
      | |- Keeps _ (match ?x with _ => _ end) => destruct x
      | |- Keeps _ (let x := _ in _) => cbv zeta
      end ].

Section Frames.
Context {X : Type} (obs : World → X).
Hypothesis obs_storeCache : ∀ v w, obs (set_storeCache v w) = obs w.
Hypothesis obs_file : ∀ v w, obs (write_file v w) = obs w.
Hypothesis obs_indexCache : ∀ v w, obs (set_indexCache v w) = obs w.
Hypothesis obs_log : ∀ v w, obs (add_log v w) = obs w.
Hypothesis obs_llmCall : ∀ w, obs (count_llmCall w) = obs w.

#[local] Hint Resolve obs_storeCache obs_file obs_indexCache obs_log obs_llmCall
  : keeps.

Lemma Keeps_getStorePath : Keeps obs getStorePath.
Proof. unfold getStorePath. keeps. Qed.
#[local] Hint Resolve Keeps_getStorePath : keeps.

Lemma Keeps_loadStore : Keeps obs loadStore.
Proof. unfold loadStore. keeps. Qed.
#[local] Hint Resolve Keeps_loadStore : keeps.

Lemma Keeps_persistStore store : Keeps obs (persistStore store).
Proof. unfold persistStore. keeps. Qed.
#[local] Hint Resolve Keeps_persistStore : keeps.

Lemma Keeps_assignStore f : Keeps obs (assignStore f).
Proof. unfold assignStore. keeps. Qed.
#[local] Hint Resolve Keeps_assignStore : keeps.

Lemma Keeps_ensurePaperIndex resolved : Keeps obs (ensurePaperIndex resolved).
Proof.
  unfold ensurePaperIndex, ensureFromStore, buildPaperIndex, cacheIndex. keeps.
Qed.

Lemma Keeps_appendConversation paperID messages :
  Keeps obs (appendConversation paperID messages).
Proof. unfold appendConversation. keeps. Qed.

Lemma Keeps_requestLLM : Keeps obs requestLLM.
Proof.
  intros w r w' H. destruct (requestLLM_frame _ _ _ H) as [-> | ->]; auto.
Qed.
#[local] Hint Resolve Keeps_requestLLM : keeps.

Lemma Keeps_refresh paperID title :
  Keeps obs (refreshConversationMemoryIfNeeded paperID title).
Proof.
  unfold refreshConversationMemoryIfNeeded, writeMemory, log. keeps.
Qed.

End Frames.

Lemma requestLLM_reads w0 w :
  llmState w0 = llmState w → (requestLLM w0).1 = (requestLLM w).1.
Proof.
  unfold llmState. intros [= Hc Hs Hn]. unfold requestLLM. run_monad.
  rewrite Hc, Hs, Hn. repeat case_bool_decide; try done.
  destruct (llmServer w (llmCalls w)) as [payload|[message]]; [|done].
  by destruct (trim payload).
Qed.

Lemma reported_add p w : reported (add_progress p w) = reported w ++ [percent p].
Proof. unfold reported. simpl. by rewrite map_app. Qed.

Lemma bind_ok {A B} (m : M A) (f : A → M B) w a w1 :
  m w = (Ok a, w1) → (m ≫= f) w = f a w1.
Proof. unfold mbind, M_bind. by intros ->. Qed.

Lemma bind_throw {A B} (m : M A) (f : A → M B) w e w1 :
  m w = (Throw e, w1) → (m ≫= f) w = (Throw e, w1).
Proof. unfold mbind, M_bind. by intros ->. Qed.

Lemma reportSummaryProgress_run percent stage w :
  reportSummaryProgress (Some showProgress) percent stage w
  = (Ok tt, add_progress (mkProgress (Math_max 0 (Math_min 100 percent)) stage) w).
Proof. reflexivity. Qed.

(** A single pass shows 55 and 75 and then asks the model. *)
Lemma summarizePaperSinglePass_run index w :
  let w75 :=
    add_progress (mkProgress 75 (utf16 "단일 패스 요약 생성"))
      (add_progress (mkProgress 55 (utf16 "단일 패스 컨텍스트 구성")) w) in
  summarizePaperSinglePass index (Some showProgress) w
  = match requestLLM w75 with
    | (Ok answerDraft, w') =>
      (Ok (trim answerDraft, len (selectSummaryChunks index)), w')
    | (Throw e, w') => (Throw e, w')
    end.
Proof. reflexivity. Qed.

Lemma ret_bind {A B} (a : A) (f : A → M B) w : (mret a ≫= f) w = f a w.
Proof. reflexivity. Qed.

Lemma tryCatch_ok {A} (body : M A) (handler : Exn → M A) w a w1 :
  body w = (Ok a, w1) → tryCatch body handler w = (Ok a, w1).
Proof. unfold tryCatch. by intros ->. Qed.

Lemma tryCatch_throw {A} (body : M A) (handler : Exn → M A) w e w1 :
  body w = (Throw e, w1) → tryCatch body handler w = handler e w1.
Proof. unfold tryCatch. by intros ->. Qed.

Lemma llmState_add_progress p w : llmState (add_progress p w) = llmState w.
Proof. reflexivity. Qed.

Lemma llmState_add_log entry w : llmState (add_log entry w) = llmState w.
Proof. reflexivity. Qed.

(** What the fallback shows before it asks the model. *)
Definition fallbackShown (w : World) : World :=
  add_progress (mkProgress 75 (utf16 "단일 패스 요약 생성"))
    (add_progress (mkProgress 55 (utf16 "단일 패스 컨텍스트 구성"))
       (add_progress (mkProgress 45 (utf16 "폴백 요약 실행")) w)).

Lemma fallback_run index w :
  (reportSummaryProgress (Some showProgress) 45 (utf16 "폴백 요약 실행")
   ≫= λ _, summarizePaperSinglePass index (Some showProgress)) w
  = match requestLLM (fallbackShown w) with
    | (Ok answerDraft, w') =>
      (Ok (trim answerDraft, len (selectSummaryChunks index)), w')
    | (Throw e, w') => (Throw e, w')
    end.
Proof. reflexivity. Qed.

Lemma reported_fallbackShown w :
  reported (fallbackShown w) = reported w ++ [45; 55; 75]%float.
Proof.
  unfold fallbackShown. rewrite !reported_add, <- !app_assoc. reflexivity.
Qed.

Lemma progress_requestLLM w r w' :
  requestLLM w = (r, w') → reported w' = reported w.
Proof. intros H. by destruct (requestLLM_frame _ _ _ H) as [-> | ->]. Qed.

(** C8, as the code has it.  For a paper without a PDF attachment, when
    the model request of the single-pass fallback fails, [summarizePaper]
    shows 3, 8, 45, 55, 75 and then, from the [catch] block that runs the
    fallback a second time, 45, 55 and 75 again, followed by 100 if the
    second request succeeds: the percentages shown go down from 75 to 45.
    The only other outcome is that no index can be built; the call then
    fails after showing 3 and 8. *)
Theorem summarizePaper_fallback_repeats (item : Item) (resolved : ResolvedPaper)
        (w : World) (e : Exn) :
  attachmentItem resolved = None →
  (requestLLM w).1 = Throw e →
  let run := summarizePaper (λ _, mret resolved) item (Some showProgress) w in
  (∃ e', run.1 = Throw e' ∧ reported run.2 = reported w ++ [3; 8]%float)
  ∨ (∃ tail,
       reported run.2
       = reported w ++ [3; 8; 45; 55; 75; 45; 55; 75]%float ++ tail
       ∧ (tail = [] ∨ tail = [100%float])).
Proof.
  intros Hnone Hfail run. subst run.
  destruct (summarizePaper _ _ _ w) as [r w'] eqn:Hrun. simpl.
  unfold summarizePaper in Hrun.
  rewrite (bind_ok _ _ _ _ _ (reportSummaryProgress_run _ _ _)) in Hrun.
  rewrite (bind_ok _ _ _ resolved _ eq_refl) in Hrun.
  rewrite (bind_ok _ _ _ _ _ (reportSummaryProgress_run _ _ _)) in Hrun.
  set (w8 := add_progress _ (add_progress _ w)) in Hrun.
  assert (H8 : reported w8 = reported w ++ [3; 8]%float).
  { subst w8. rewrite !reported_add, <- app_assoc. reflexivity. }
  destruct (ensurePaperIndex resolved w8) as [[index|e1] w1] eqn:Hindex.
  2:{ rewrite (bind_throw _ _ _ _ _ Hindex) in Hrun. injection Hrun as <- <-.
      left. exists e1. split; [done|]. rewrite <- H8. unfold reported. f_equal.
      by apply (Keeps_ensurePaperIndex progress) in Hindex. }
  rewrite (bind_ok _ _ _ _ _ Hindex) in Hrun.
  assert (H1 : reported w1 = reported w ++ [3; 8]%float).
  { rewrite <- H8. unfold reported. f_equal.
    by apply (Keeps_ensurePaperIndex progress) in Hindex. }
  assert (L1 : llmState w1 = llmState w).
  { by apply (Keeps_ensurePaperIndex llmState) in Hindex. }
  rewrite Hnone in Hrun. rewrite ret_bind in Hrun.
  change (trim []) with (@nil N) in Hrun. cbv beta iota in Hrun.
  (* the fallback inside the [try] *)
  destruct (requestLLM (fallbackShown w1)) as [[a|e2] w2] eqn:Hfirst.
  { assert (Hsame : (requestLLM (fallbackShown w1)).1 = Throw e).
    { rewrite <- Hfail. apply requestLLM_reads. by rewrite <- L1. }
    rewrite Hfirst in Hsame. discriminate. }
  pose proof (progress_requestLLM _ _ _ Hfirst) as H2.
  rewrite reported_fallbackShown, H1, <- app_assoc in H2.
  (* the fallback again, in the [catch] *)
  set (logged := add_log "Summary pipeline failed; fallback to single-pass" w2).
  assert (H3 : reported (fallbackShown logged)
               = reported w ++ [3; 8; 45; 55; 75; 45; 55; 75]%float).
  { rewrite reported_fallbackShown. change (reported logged) with (reported w2).
    rewrite H2, <- app_assoc. reflexivity. }
  match type of Hrun with
  | (tryCatch ?body ?handler ≫= _) w1 = _ =>
    assert (Htry : tryCatch body handler w1
                   = match requestLLM (fallbackShown logged) with
                     | (Ok answerDraft, w') =>
                       (Ok (trim answerDraft, len (selectSummaryChunks index)), w')
                     | (Throw e, w') => (Throw e, w')
                     end)
  end.
  { erewrite tryCatch_throw; [|rewrite fallback_run, Hfirst; reflexivity].
    apply (fallback_run index logged). }
  destruct (requestLLM (fallbackShown logged)) as [[a|e3] w3] eqn:Hsecond.
  - rewrite (bind_ok _ _ _ _ _ Htry) in Hrun.
    rewrite (bind_ok _ _ _ _ _ (reportSummaryProgress_run _ _ _)) in Hrun.
    right. exists [100%float]. split; [|by right].
    match type of Hrun with
    | ?rest ?w100 = _ =>
      assert (Hrest : Keeps progress rest);
        [|apply Hrest in Hrun; unfold reported at 1; rewrite Hrun;
          fold (reported w100)]
    end.
    { keeps; auto using Keeps_appendConversation, Keeps_refresh. }
    rewrite reported_add, (progress_requestLLM _ _ _ Hsecond), H3.
    rewrite <- app_assoc. reflexivity.
  - rewrite (bind_throw _ _ _ _ _ Htry) in Hrun. injection Hrun as <- <-.
    right. exists []. split; [|by left].
    rewrite (progress_requestLLM _ _ _ Hsecond), H3. reflexivity.
Qed.

(** [percent] never goes down along the list. *)
Fixpoint nondecreasing (l : list float) : bool :=
  match l with
  | a :: (b :: _) as rest => (a <=? b)%float && nondecreasing rest
  | _ => true
  end.

(** A regular item without attachments, and a model service whose first
    reply is an error. *)
Definition itemAlone : Item :=
  mkItem 7 (lit "Attention") (lit "Attention is all you need.") [].

Definition paperAlone : ResolvedPaper :=
  mkResolved (lit "7") (lit "Attention") itemAlone None.

Definition worldFlaky : World :=
  mkWorld None None [] ∅ true (lit "2024-01-01T00:00:00.000Z")
          (mkConfig (lit "http://e/embeddings") (lit "embed"))
          false
          (λ _ _, Throw (Error "offline")) []
          (mkConfig (lit "http://e/chat/completions") (lit "chat"))
          (λ n, match n with
                | O => Throw (Error "HTTP 503")
                | _ => Ok (lit " A summary. ")
                end) O
          (λ _, Throw (Error "no outline")) [] [].

Lemma summarizePaper_fallback_repeats_witness :
  ∃ tail,
    reported (summarizePaper (λ _, mret paperAlone) itemAlone (Some showProgress)
                             worldFlaky).2
    = [3; 8; 45; 55; 75; 45; 55; 75]%float ++ tail
    ∧ (tail = [] ∨ tail = [100%float]).
Proof.
  destruct (summarizePaper_fallback_repeats itemAlone paperAlone worldFlaky
              (Error "LLM request failed.") eq_refl eq_refl)
    as [(e' & He & _) | (tail & Htail & Hend)].
  - vm_compute in He. discriminate.
  - exists tail. split; [exact Htail | exact Hend].
Defined.

(** The run in full: the summary comes from the second request, and the
    percentages shown are not in order.  With a model service that is
    down throughout, the call fails after the same reports but the last. *)
Example summarizePaper_flaky :
  let run := summarizePaper (λ _, mret paperAlone) itemAlone (Some showProgress)
                            worldFlaky in
  let down := summarizePaper (λ _, mret paperAlone) itemAlone (Some showProgress)
                             world0 in
  run.1 = Ok (lit "A summary.", 1)
  ∧ reported run.2 = [3; 8; 45; 55; 75; 45; 55; 75; 100]%float
  ∧ nondecreasing (reported run.2) = false
  ∧ logs run.2 = ["Summary pipeline failed; fallback to single-pass"]
  ∧ down.1 = Throw (Error "LLM request failed.")
  ∧ reported down.2 = [3; 8; 45; 55; 75; 45; 55; 75]%float.
Proof. vm_compute. split_and!; reflexivity. Qed.

(** A paper with a PDF whose outline has two sections, and a model that
    answers: the pipeline shows 12, then 48, 72 and 96. *)
Definition sectionContext (t p : string) (page : Z) (body : string)
  : PdfSectionContext :=
  mkContext (lit t) 0 (Some page) (Some page) (Some page) (lit p) (lit body).

Definition paperPdf : ResolvedPaper :=
  mkResolved (lit "7") (lit "Attention") itemAlone
             (Some (mkItem 8 [] [] (lit "We introduce. We attend."))).

Definition worldPdf : World :=
  mkWorld None None [] ∅ true (lit "2024-01-01T00:00:00.000Z")
          (mkConfig (lit "http://e/embeddings") (lit "embed"))
          false
          (λ _ _, Throw (Error "offline")) []
          (mkConfig (lit "http://e/chat/completions") (lit "chat"))
          (λ _, Ok (lit "Draft.")) O
          (λ _, Ok [sectionContext "Intro" "1" 1 "We introduce.";
                    sectionContext "Method" "2" 3 "We attend."]) [] [].

Example summarizePaper_pipeline :
  let run := summarizePaper (λ _, mret paperPdf) itemAlone (Some showProgress)
                            worldPdf in
  reported run.2 = [3; 8; 12; 48; 72; 96; 100]%float
  ∧ nondecreasing (reported run.2) = true
  ∧ Forall (λ state, stage state ≠ []) (progress run.2)
  ∧ llmCalls run.2 = 2%nat.
Proof.
  vm_compute. split_and!; try reflexivity.
  repeat (apply Forall_cons_2; [discriminate|]). apply Forall_nil_2.
Qed.

End Summary.

(* ===================================================================== *)
(** ** Further properties of the code *)
(* ===================================================================== *)

Module Hashing.
Import Js Text.

(** The 32-bit FNV-1a hash as it is defined: start from the offset
    basis; for each code unit, exclusive-or it into the hash and multiply
    by the FNV prime, modulo 2^32. *)
Definition FNV_OFFSET_BASIS : Z := 2166136261.
Definition FNV_PRIME : Z := 16777619.

Definition fnv1a (value : jsstring) : Z :=
  fold_left (λ hash code, (Z.lxor hash (Z.of_N code) * FNV_PRIME) mod 2 ^ 32)
            value FNV_OFFSET_BASIS.

Lemma toInt32_wraps z : ∃ k, toInt32 z = z + 4294967296 * k.
Proof.
  unfold toInt32. exists (- ((z + 2147483648) / 4294967296)).
  pose proof (Z.div_mod (z + 2147483648) 4294967296). lia.
Qed.

Lemma toUint32_wraps z k : toUint32 (z + 4294967296 * k) = toUint32 z.
Proof. unfold toUint32. rewrite Z.mul_comm. apply Z_mod_plus_full. Qed.

Lemma toUint32_toInt32 z : toUint32 (toInt32 z) = toUint32 z.
Proof. destruct (toInt32_wraps z) as [k ->]. apply toUint32_wraps. Qed.

Lemma toUint32_lxor a b :
  toUint32 (Z.lxor a b) = Z.lxor (toUint32 a) (toUint32 b).
Proof.
  unfold toUint32. change 4294967296 with (2 ^ 32).
  rewrite <- !Z.land_ones by lia.
  apply Z.bits_inj'. intros n Hn.
  rewrite Z.lxor_spec, !Z.land_spec, Z.lxor_spec.
  destruct (Z.testbit (Z.ones 32) n); by rewrite ?andb_true_r, ?andb_false_r.
Qed.

Lemma toUint32_shl32 x k :
  0 ≤ k → toUint32 (shl32 x k) = toUint32 (x * 2 ^ k).
Proof.
  intros Hk. unfold shl32. rewrite toUint32_toInt32, Z.shiftl_mul_pow2 by done.
  destruct (toInt32_wraps x) as [j ->].
  replace ((x + 4294967296 * j) * 2 ^ k) with (x * 2 ^ k + 4294967296 * (j * 2 ^ k))
    by ring.
  apply toUint32_wraps.
Qed.

Lemma toUint32_eq a b : toUint32 a = toUint32 b → ∃ k, a = b + 4294967296 * k.
Proof.
  unfold toUint32. intros H. exists (a / 4294967296 - b / 4294967296).
  pose proof (Z.div_mod a 4294967296). pose proof (Z.div_mod b 4294967296). lia.
Qed.

Lemma hashStep_fnv hash code :
  toUint32 (hashStep hash code)
  = (Z.lxor (toUint32 hash) (Z.of_N code) * FNV_PRIME) mod 2 ^ 32.
Proof.
  unfold hashStep. set (h := Z.lxor _ _).
  assert (Hh : toUint32 h = toUint32 (Z.lxor (toUint32 hash) (Z.of_N code))).
  { subst h. rewrite !toUint32_lxor, !toUint32_toInt32.
    f_equal. unfold toUint32. by rewrite Z.mod_mod. }
  destruct (toUint32_eq _ _ (toUint32_shl32 h 1 ltac:(lia))) as [k1 ->].
  destruct (toUint32_eq _ _ (toUint32_shl32 h 4 ltac:(lia))) as [k4 ->].
  destruct (toUint32_eq _ _ (toUint32_shl32 h 7 ltac:(lia))) as [k7 ->].
  destruct (toUint32_eq _ _ (toUint32_shl32 h 8 ltac:(lia))) as [k8 ->].
  destruct (toUint32_eq _ _ (toUint32_shl32 h 24 ltac:(lia))) as [k24 ->].
  destruct (toUint32_eq _ _ Hh) as [k ->].
  set (g := Z.lxor (toUint32 hash) (Z.of_N code)).
  change (2 ^ 32) with 4294967296. fold (toUint32 (g * FNV_PRIME)).
  unfold FNV_PRIME.
  replace (_ + _) with
    (g * 16777619 + 4294967296 * (k * 16777619 + k1 + k4 + k7 + k8 + k24)).
  - apply toUint32_wraps.
  - change (2 ^ 1) with 2. change (2 ^ 4) with 16. change (2 ^ 7) with 128.
    change (2 ^ 8) with 256. change (2 ^ 24) with 16777216. ring.
Qed.

Lemma fold_hashStep_fnv value h0 :
  toUint32 (fold_left hashStep value h0)
  = fold_left (λ hash code, (Z.lxor hash (Z.of_N code) * FNV_PRIME) mod 2 ^ 32)
              value (toUint32 h0).
Proof.
  revert h0. induction value as [|c value IH]; intros h0; [done|].
  cbn [fold_left]. rewrite IH, hashStep_fnv. done.
Qed.

(** [hashText], written with shifts and additions on wrapped 32-bit
    integers, is the 32-bit FNV-1a hash of the UTF-16 code units of the
    string, printed in decimal as an unsigned number. *)
Theorem hashText_fnv1a (value : jsstring) :
  hashText value = decimal (fnv1a value) ∧ 0 ≤ fnv1a value < 2 ^ 32.
Proof.
  split.
  - unfold hashText, fnv1a. by rewrite fold_hashStep_fnv.
  - unfold fnv1a. destruct value as [|c value _] using rev_ind; [done|].
    rewrite fold_left_app. cbn [fold_left]. apply Z.mod_pos_bound. done.
Qed.

End Hashing.

Module Normalisation.
Import Js Text.

(** No run of more than [k] consecutive [c] in [s], after [run] of them. *)
Fixpoint runsAtMost (c : N) (k run : nat) (s : jsstring) : bool :=
  match s with
  | [] => true
  | x :: r =>
    if (x =? c)%N then (S run <=? k)%nat && runsAtMost c k (S run) r
    else runsAtMost c k O r
  end.

(** The code units [normalizeText] removes or rewrites. *)
Definition rewritten (x : N) : Prop :=
  x = 13%N ∨ x = 9%N ∨ x = 11%N ∨ x = 12%N ∨ x = 0%N.

#[local] Arguments Nat.leb : simpl never.
#[local] Arguments Nat.min : simpl never.

Section Runs.
Variables (p : N → bool) (repl : nat → jsstring).

Lemma replaceRuns_free run s :
  Forall (λ x, p x = false) s →
  replaceRuns p repl run s = match run with O => [] | _ => repl run end ++ s.
Proof.
  intros H. revert run. induction H as [|x s Hx _ IH]; intros run; simpl.
  - by rewrite app_nil_r.
  - rewrite Hx, (IH O). done.
Qed.

Lemma replaceRuns_Forall (P : N → Prop) run s :
  (∀ n, Forall P (repl n)) → Forall P s → Forall P (replaceRuns p repl run s).
Proof.
  intros Hrepl H. revert run. induction H as [|x s Hx _ IH]; intros run; simpl.
  - destruct run; [constructor | apply Hrepl].
  - destruct (p x); [apply IH|].
    apply Forall_app. split; [destruct run; [constructor | apply Hrepl]|].
    constructor; [done | apply IH].
Qed.

Lemma replaceRuns_clears run s :
  (∀ n, Forall (λ x, p x = false) (repl n)) →
  Forall (λ x, p x = false) (replaceRuns p repl run s).
Proof.
  intros Hrepl. revert run. induction s as [|x s IH]; intros run; simpl.
  - destruct run; [constructor | apply Hrepl].
  - destruct (p x) eqn:E; [apply IH|].
    apply Forall_app. split; [destruct run; [constructor | apply Hrepl]|].
    constructor; [done | apply IH].
Qed.

End Runs.

Section Capped.
Variables (c : N) (k : nat).
Hypothesis k_pos : (1 ≤ k)%nat.

Lemma runsAtMost_replicate_other a m d t :
  d ≠ c → (1 ≤ m)%nat →
  runsAtMost c k a (replicate m d ++ t) = runsAtMost c k O t.
Proof.
  intros Hd Hm. destruct m as [|m]; [lia|]. simpl.
  apply N.eqb_neq in Hd. rewrite Hd. clear Hm.
  induction m as [|m IH]; simpl; [done|]. by rewrite Hd.
Qed.

Lemma runsAtMost_replicate_bound a m t :
  (1 ≤ m)%nat → runsAtMost c k a (replicate m c ++ t) = true → (a + m ≤ k)%nat.
Proof.
  revert a. induction m as [|m IH]; intros a Hm; [lia|]. simpl.
  rewrite N.eqb_refl. intros [H1 H2]%andb_true_iff. apply Nat.leb_le in H1.
  destruct m as [|m]; [lia|]. apply IH in H2; lia.
Qed.

Lemma runsAtMost_replicate_then a m x t :
  x ≠ c → (a + m ≤ k)%nat →
  runsAtMost c k a (replicate m c ++ x :: t) = runsAtMost c k O t.
Proof.
  intros Hx. apply N.eqb_neq in Hx.
  revert a. induction m as [|m IH]; intros a Hm; simpl.
  - by rewrite Hx.
  - rewrite N.eqb_refl, IH by lia.
    by rewrite (proj2 (Nat.leb_le (S a) k)) by lia.
Qed.

Lemma runsAtMost_replicate_end a m :
  (a + m ≤ k)%nat → runsAtMost c k a (replicate m c) = true.
Proof.
  revert a. induction m as [|m IH]; intros a Hm; simpl; [done|].
  rewrite N.eqb_refl, IH by lia.
  by rewrite (proj2 (Nat.leb_le (S a) k)) by lia.
Qed.

Lemma runsAtMost_weaken a a' s :
  (a' ≤ a)%nat → runsAtMost c k a s = true → runsAtMost c k a' s = true.
Proof.
  revert a a'. induction s as [|x s IH]; intros a a' Ha; [done|]. simpl.
  destruct (x =? c)%N; [|done].
  intros [H1 H2]%andb_true_iff. apply Nat.leb_le in H1.
  rewrite (proj2 (Nat.leb_le (S a') k)) by lia. simpl.
  apply (IH (S a) (S a')); [lia | done].
Qed.

Lemma runsAtMost_suffix a l1 l2 :
  runsAtMost c k a (l1 ++ l2) = true → runsAtMost c k O l2 = true.
Proof.
  revert a. induction l1 as [|x l1 IH]; intros a; simpl.
  - apply runsAtMost_weaken. lia.
  - destruct (x =? c)%N; [|apply IH]. intros [_ H]%andb_true_iff. by apply IH in H.
Qed.

Lemma runsAtMost_prefix a l1 l2 :
  runsAtMost c k a (l1 ++ l2) = true → runsAtMost c k a l1 = true.
Proof.
  revert a. induction l1 as [|x l1 IH]; intros a; simpl; [done|].
  destruct (x =? c)%N; [|apply IH].
  intros [H1 H2]%andb_true_iff. rewrite H1. simpl. by apply IH in H2.
Qed.

(** A string without a longer run has no [k + 1] consecutive [c]. *)
Lemma runsAtMost_no_infix s l1 l2 :
  runsAtMost c k O s = true → s ≠ l1 ++ replicate (S k) c ++ l2.
Proof.
  intros H ->. apply runsAtMost_suffix in H.
  apply runsAtMost_replicate_bound in H; lia.
Qed.

Section Collapse.
Variables (p : N → bool) (repl : nat → jsstring).
Hypothesis p_spec : ∀ x, p x = (x =? c)%N.
Hypothesis repl_spec : ∀ n, (1 ≤ n)%nat → repl n = replicate (Nat.min n k) c.

(** Collapsing the runs of [c] leaves none longer than [k]. *)
Lemma replaceRuns_capped run s :
  runsAtMost c k O (replaceRuns p repl run s) = true.
Proof.
  revert run. induction s as [|x s IH]; intros run; simpl.
  - destruct run; [done|]. rewrite repl_spec by lia.
    apply runsAtMost_replicate_end. lia.
  - rewrite p_spec. destruct (x =? c)%N eqn:E; [apply IH|].
    apply N.eqb_neq in E. destruct run as [|run].
    + simpl. rewrite (proj2 (N.eqb_neq _ _) E). apply IH.
    + rewrite repl_spec by lia. rewrite runsAtMost_replicate_then by (done || lia).
      apply IH.
Qed.

(** A string without a longer run is left as it is. *)
Lemma replaceRuns_capped_id run s :
  runsAtMost c k run s = true → (run ≤ k)%nat →
  replaceRuns p repl run s = replicate run c ++ s.
Proof.
  revert run. induction s as [|x s IH]; intros run H Hrun; simpl.
  - rewrite app_nil_r. destruct run; [done|]. rewrite repl_spec by lia.
    by rewrite Nat.min_l by lia.
  - rewrite p_spec. simpl in H. destruct (x =? c)%N eqn:E.
    + apply N.eqb_eq in E. subst x. apply andb_true_iff in H as [H1 H2].
      apply Nat.leb_le in H1. rewrite IH by done.
      by rewrite replicate_S_end, <- app_assoc.
    + rewrite (IH O) by (done || lia). simpl.
      destruct run as [|run]; [done|]. rewrite repl_spec by lia.
      by rewrite Nat.min_l by lia.
Qed.

End Collapse.

(** Collapsing the runs of another code unit keeps the bound. *)
Lemma replaceRuns_other_capped (p : N → bool) (repl : nat → jsstring) d k' a run s :
  d ≠ c → (1 ≤ k')%nat →
  (∀ x, p x = (x =? d)%N) →
  (∀ n, (1 ≤ n)%nat → repl n = replicate (Nat.min n k') d) →
  runsAtMost c k (match run with O => a | _ => O end) s = true →
  runsAtMost c k a (replaceRuns p repl run s) = true.
Proof.
  intros Hd Hk' Hp Hrepl. revert run a.
  induction s as [|x s IH]; intros run a H; simpl.
  - destruct run; [done|]. rewrite Hrepl by lia.
    rewrite <- (app_nil_r (replicate _ d)).
    rewrite runsAtMost_replicate_other by (done || lia). done.
  - rewrite Hp. destruct (x =? d)%N eqn:E.
    + apply N.eqb_eq in E. subst x. apply IH. simpl in H |- *.
      rewrite (proj2 (N.eqb_neq d c) Hd) in H. by destruct run.
    + assert (Hstep : ∀ a', runsAtMost c k a' (x :: s) = true →
                            runsAtMost c k a' (x :: replaceRuns p repl O s) = true).
      { intros a'. simpl. destruct (x =? c)%N.
        - intros [H1 H2]%andb_true_iff. rewrite H1. simpl. by apply (IH O).
        - intros H'. by apply (IH O). }
      destruct run as [|run]; [by apply Hstep|].
      rewrite Hrepl by lia. rewrite runsAtMost_replicate_other by (done || lia).
      by apply Hstep.
Qed.

End Capped.

Lemma trim_infix s : ∃ l1 l2, s = l1 ++ trim s ++ l2.
Proof.
  unfold trim, trimStart.
  destruct (dropWhile_suffix isWhiteSpace s) as (l1 & H1 & _).
  destruct (Evidence.trimEnd_suffix (dropWhile isWhiteSpace s)) as (l2 & H2 & _).
  exists l1, l2. by rewrite <- H2.
Qed.

Lemma runsAtMost_trim c k s :
  (1 ≤ k)%nat → runsAtMost c k O s = true → runsAtMost c k O (trim s) = true.
Proof.
  intros Hk. destruct (trim_infix s) as (l1 & l2 & H). rewrite H at 1.
  intros H'. apply runsAtMost_suffix in H'; [|done].
  by apply runsAtMost_prefix in H'.
Qed.

Lemma Forall_trim (P : N → Prop) s : Forall P s → Forall P (trim s).
Proof.
  destruct (trim_infix s) as (l1 & l2 & H). rewrite H at 1.
  rewrite !Forall_app. tauto.
Qed.

(** [normalizeText] is idempotent.  Its result holds no carriage return,
    tab, vertical tab, form feed or NUL, no two spaces and no three line
    feeds in a row, and neither starts nor ends with white space. *)
Theorem normalizeText_idempotent (input : jsstring) :
  let out := normalizeText input in
  normalizeText out = out
  ∧ Forall (λ x, ¬ rewritten x) out
  ∧ (∀ l1 l2, out ≠ l1 ++ [32; 32]%N ++ l2)
  ∧ (∀ l1 l2, out ≠ l1 ++ [10; 10; 10]%N ++ l2)
  ∧ trim out = out.
Proof.
  intros out.
  set (tab := λ x : N, (x =? 9)%N || (x =? 12)%N || (x =? 11)%N).
  set (s1 := map (λ x, if (x =? 13)%N then 10%N else x) input).
  set (s2 := replaceRuns tab (λ _, [32%N]) O s1).
  set (s3 := filter (λ x, x ≠ 0%N) s2).
  set (s4 := replaceRuns (λ x, (x =? 32)%N) (λ _, [32%N]) O s3).
  set (s5 := replaceRuns (λ x, (x =? 10)%N) (λ n, replicate (Nat.min n 2) 10%N) O s4).
  assert (Hout : out = trim s5) by reflexivity.
  assert (Hspace : ∀ n, (1 ≤ n)%nat → [32%N] = replicate (Nat.min n 1) 32%N).
  { intros n Hn. by rewrite Nat.min_r by lia. }
  (* what each step establishes, and the later ones keep *)
  assert (H13 : Forall (λ x, x ≠ 13%N) s1).
  { subst s1. apply Forall_map, Forall_true. intros x. simpl.
    destruct (x =? 13)%N eqn:E; [done|]. by apply N.eqb_neq. }
  assert (Htab : Forall (λ x, tab x = false) s2).
  { apply replaceRuns_clears. intros _. by repeat constructor. }
  assert (H13' : Forall (λ x, x ≠ 13%N) s2).
  { apply replaceRuns_Forall; [|done]. intros _. by repeat constructor. }
  assert (Hclean : Forall (λ x, ¬ rewritten x) s3).
  { subst s3. apply Forall_forall. intros x [Hx0 Hx]%list_elem_of_filter.
    rewrite Forall_forall in Htab, H13'. specialize (Htab x Hx).
    specialize (H13' x Hx). unfold tab in Htab.
    apply orb_false_iff in Htab as [[H9 H12]%orb_false_iff H11].
    apply N.eqb_neq in H9, H12, H11. unfold rewritten. naive_solver. }
  assert (Hclean4 : Forall (λ x, ¬ rewritten x) s4).
  { apply replaceRuns_Forall; [|done]. intros _.
    repeat constructor. unfold rewritten. naive_solver. }
  assert (Hclean5 : Forall (λ x, ¬ rewritten x) s5).
  { apply replaceRuns_Forall; [|done]. intros n.
    apply Forall_replicate. unfold rewritten. naive_solver. }
  assert (Hclean' : Forall (λ x, ¬ rewritten x) out).
  { rewrite Hout. by apply Forall_trim. }
  assert (Hsp : runsAtMost 32 1 O out = true).
  { rewrite Hout. apply runsAtMost_trim; [lia|].
    apply (replaceRuns_other_capped 32 1 ltac:(lia) _ _ 10%N 2%nat); [done|lia|done|done|].
    apply (replaceRuns_capped 32 1); [lia|done|done]. }
  assert (Hnl : runsAtMost 10 2 O out = true).
  { rewrite Hout. apply runsAtMost_trim; [lia|].
    apply (replaceRuns_capped 10 2); [lia|done|done]. }
  assert (Htrim : trim out = out) by (rewrite Hout; apply trim_idem).
  split; [|split; [done|split; [|split]]].
  - unfold normalizeText. fold tab.
    assert (E1 : map (λ x, if (x =? 13)%N then 10%N else x) out = out).
    { rewrite <- (map_id out) at 2. apply map_ext_Forall.
      eapply Forall_impl; [exact Hclean'|]. intros x Hx. simpl.
      destruct (x =? 13)%N eqn:E; [|done]. apply N.eqb_eq in E.
      exfalso. apply Hx. by left. }
    rewrite E1.
    assert (E2 : replaceRuns tab (λ _, [32%N]) O out = out).
    { rewrite replaceRuns_free; [done|].
      eapply Forall_impl; [exact Hclean'|]. intros x Hx. simpl. unfold tab.
      unfold rewritten in Hx.
      apply orb_false_iff. split; [apply orb_false_iff; split|];
        apply N.eqb_neq; naive_solver. }
    rewrite E2.
    assert (E3 : filter (λ x, x ≠ 0%N) out = out).
    { clear -Hclean'. induction Hclean' as [|x s Hx _ IH]; [done|].
      rewrite filter_cons_True; [by rewrite IH|].
      intros ->. apply Hx. unfold rewritten. naive_solver. }
    rewrite E3.
    rewrite (replaceRuns_capped_id 32 1 ltac:(lia) _ _ (λ _, eq_refl) Hspace O out Hsp)
      by lia.
    simpl.
    rewrite (replaceRuns_capped_id 10 2 ltac:(lia) _ _ (λ _, eq_refl) (λ _ _, eq_refl)
                                   O out Hnl) by lia.
    simpl. exact Htrim.
  - intros l1 l2. by apply (runsAtMost_no_infix 32 1 ltac:(lia) out l1 l2).
  - intros l1 l2. by apply (runsAtMost_no_infix 10 2 ltac:(lia) out l1 l2).
  - exact Htrim.
Qed.

End Normalisation.

Module Coverage.
Import Js Text Chunking.

Lemma trim_between s :
  ∃ l1 l2, s = l1 ++ trim s ++ l2
           ∧ Forall (λ c, isWhiteSpace c = true) l1
           ∧ Forall (λ c, isWhiteSpace c = true) l2.
Proof.
  unfold trim, trimStart.
  destruct (dropWhile_suffix isWhiteSpace s) as (l1 & H1 & Hw1).
  destruct (Evidence.trimEnd_suffix (dropWhile isWhiteSpace s)) as (l2 & H2 & Hw2).
  exists l1, l2. by rewrite <- H2.
Qed.


Lemma length_trim s : (length (trim s) ≤ length s)%nat.
Proof.
  destruct (trim_between s) as (l1 & l2 & Hs & _). rewrite Hs at 2.
  rewrite !length_app. lia.
Qed.







End Coverage.

Module ContextBudget.
Import Js Text Store Retrieval.

(** The number of code units in the texts of [chunks]. *)
Definition totalChars (chunks : list TextChunk) : Z :=
  foldr (λ chunk n, len (text chunk) + n) 0 chunks.

Lemma totalChars_app l k : totalChars (l ++ k) = totalChars l + totalChars k.
Proof. induction l as [|c l IH]; simpl; [done|]. rewrite IH. lia. Qed.

Lemma takeUntilBudget_budget chunks charCount maxChars :
  charCount < maxChars →
  let limited := takeUntilBudget chunks charCount maxChars in
  (∀ kept final, limited = kept ++ [final] →
     charCount + totalChars kept < maxChars)
  ∧ (limited ≠ chunks → maxChars ≤ charCount + totalChars limited).
Proof.
  revert charCount. induction chunks as [|chunk rest IH]; intros charCount Hlt0; simpl.
  - split; [|done]. intros kept final H. by destruct kept.
  - destruct (Z.geb_spec (charCount + len (text chunk)) maxChars) as [Hge|Hlt].
    + split.
      * intros kept final H. destruct kept as [|x [|y kept]]; try done.
        simpl. lia.
      * intros _. simpl. lia.
    + destruct (IH (charCount + len (text chunk)) Hlt) as [IH1 IH2]. split.
      * intros kept final H. destruct kept as [|x kept].
        -- simpl. lia.
        -- injection H as <- H. apply IH1 in H. simpl. lia.
      * intros Hne. simpl.
        assert (takeUntilBudget rest (charCount + len (text chunk)) maxChars ≠ rest)
          as Hne' by congruence.
        apply IH2 in Hne'. lia.
Qed.

(** [limitChunksByContext] (and [selectSummaryChunks], the same loop over
    the chunks of an index) returns the leading chunks up to and including
    the first one at which the running count of code units reaches
    [MAX_CONTEXT_CHARS]: without its last chunk the result is below the
    budget, and chunks are left out only when the budget is reached.  The
    first chunk is always taken, whatever its length. *)
Theorem limitChunksByContext_budget (chunks : list TextChunk) :
  let limited := limitChunksByContext chunks in
  limited `prefix_of` chunks
  ∧ head limited = head chunks
  ∧ (∀ kept final, limited = kept ++ [final] → totalChars kept < MAX_CONTEXT_CHARS)
  ∧ (limited ≠ chunks → MAX_CONTEXT_CHARS ≤ totalChars limited)
  ∧ (∀ index, selectSummaryChunks index = limitChunksByContext (Store.chunks index)).
Proof.
  intros limited. subst limited. unfold limitChunksByContext.
  destruct (takeUntilBudget_budget chunks 0 MAX_CONTEXT_CHARS ltac:(done))
    as [H1 H2].
  split; [apply takeUntilBudget_prefix|].
  split; [by destruct chunks|].
  split; [intros kept final H; apply H1 in H; lia|].
  split; [intros H; apply H2 in H; lia | done].
Qed.

End ContextBudget.

Module RetrievalBounds.
Import Js Text Store Retrieval.

Lemma elem_of_insertSorted {A} (cmp : A → A → float) (x y : A) (l : list A) :
  y ∈ insertSorted cmp x l ↔ y = x ∨ y ∈ l.
Proof.
  induction l as [|z l IH]; simpl.
  - rewrite list_elem_of_singleton, elem_of_nil. tauto.
  - destruct (0 <? cmp x z)%float.
    + rewrite !elem_of_cons, IH. tauto.
    + rewrite !elem_of_cons. tauto.
Qed.

(** Sorting permutes. *)
Lemma elem_of_sortBy {A} (cmp : A → A → float) (y : A) (l : list A) :
  y ∈ sortBy cmp l ↔ y ∈ l.
Proof.
  unfold sortBy. induction l as [|x l IH]; simpl; [done|].
  rewrite elem_of_insertSorted, elem_of_cons, IH. done.
Qed.

Lemma slice_top {A} (l : list A) (topK : Z) :
  0 ≤ topK →
  len (slice l 0 topK) ≤ topK ∧ ∀ x, x ∈ slice l 0 topK → x ∈ l.
Proof.
  intros Hk. rewrite slice_prefix by done. split.
  - unfold len. rewrite length_take. lia.
  - intros x Hx. by apply (subseteq_take (Z.to_nat topK) l).
Qed.

Lemma takeUntilBudget_sub chunks charCount maxChars :
  len (takeUntilBudget chunks charCount maxChars) ≤ len chunks
  ∧ ∀ x, x ∈ takeUntilBudget chunks charCount maxChars → x ∈ chunks.
Proof.
  destruct (takeUntilBudget_prefix chunks charCount maxChars) as [k Hk].
  split.
  - rewrite Hk at 2. unfold len. rewrite length_app. lia.
  - intros x Hx. rewrite Hk. apply elem_of_app. by left.
Qed.

Section Host.
Variable toLowerCase : jsstring → jsstring.
Variable Math_log : float → float.

Lemma keywordResult_bounds index queryTokens topK :
  0 ≤ topK →
  let result := keywordResult toLowerCase Math_log index queryTokens topK in
  len (resultChunks result) ≤ topK
  ∧ (∀ chunk, chunk ∈ resultChunks result → chunk ∈ chunks index)
  ∧ retrievalMode result = keyword.
Proof.
  intros Hk result. subst result. unfold keywordResult. cbn [resultChunks retrievalMode].
  assert (Hfall : len (slice (selectSummaryChunks index) 0 topK) ≤ topK
                  ∧ ∀ chunk, chunk ∈ slice (selectSummaryChunks index) 0 topK →
                             chunk ∈ chunks index).
  { destruct (slice_top (selectSummaryChunks index) topK Hk) as [H1 H2].
    split; [done|]. intros chunk Hc. apply H2 in Hc.
    by apply takeUntilBudget_sub in Hc. }
  assert (Hkey : len (keywordChunksOf toLowerCase Math_log index queryTokens topK) ≤ topK
                 ∧ ∀ chunk, chunk ∈ keywordChunksOf toLowerCase Math_log index
                                      queryTokens topK → chunk ∈ chunks index).
  { unfold keywordChunksOf, limitChunksByContext.
    match goal with |- context [slice ?l 0 topK] =>
      destruct (slice_top l topK Hk) as [H1 H2];
      destruct (takeUntilBudget_sub (slice l 0 topK) 0 MAX_CONTEXT_CHARS) as [H3 H4]
    end.
    split; [lia|]. intros chunk Hc. apply H4, H2 in Hc.
    apply elem_of_sortBy in Hc. by apply list_elem_of_filter in Hc as [_ Hc]. }
  destruct (keywordChunksOf toLowerCase Math_log index queryTokens topK)
    as [|c0 cs] eqn:E; [|rewrite <- E in *]; tauto.
Qed.

Lemma rankedChunks_bounds index queryTokens queryVector chunkVectors topK :
  0 ≤ topK →
  let ranked :=
    limitChunksByContext
      (rankedChunks toLowerCase Math_log index queryTokens queryVector
                    chunkVectors topK) in
  len ranked ≤ topK ∧ ∀ chunk, chunk ∈ ranked → chunk ∈ chunks index.
Proof.
  intros Hk ranked. subst ranked. unfold limitChunksByContext, rankedChunks.
  match goal with |- context [takeUntilBudget ?l _ _] =>
    destruct (takeUntilBudget_sub l 0 MAX_CONTEXT_CHARS) as [H3 H4]
  end.
  match type of H3 with context [slice ?l 0 topK] =>
    destruct (slice_top l topK Hk) as [H1 H2]
  end.
  split.
  - etrans; [exact H3|]. unfold len in *. rewrite length_map. exact H1.
  - intros chunk Hc. apply H4 in Hc.
    apply list_elem_of_fmap in Hc as (entry & -> & Hc).
    apply H2, elem_of_sortBy, list_elem_of_filter in Hc as [_ Hc].
    apply list_elem_of_fmap in Hc as (chunk & -> & Hc). done.
Qed.

End Host.

Lemma retrieveRelevantChunks_run (toLowerCase : jsstring → jsstring)
      (Math_log : float → float) (paperID : jsstring) (index : PaperIndex)
      (query : jsstring) (topK : Z) (w : World) :
  0 ≤ topK →
  ∃ result w',
    retrieveRelevantChunks toLowerCase Math_log paperID index query topK w
    = (Ok result, w')
    ∧ len (resultChunks result) ≤ topK
    ∧ (∀ chunk, chunk ∈ resultChunks result → chunk ∈ chunks index)
    ∧ (hybridSearch w = false → retrievalMode result = keyword ∧ w' = w).
Proof.
  intros Hk. unfold retrieveRelevantChunks.
  set (queryTokens := dedupe (tokenize toLowerCase query)).
  pose proof (keywordResult_bounds toLowerCase Math_log index queryTokens topK Hk)
    as (K1 & K2 & K3).
  destruct queryTokens as [|t ts] eqn:Eq.
  { eexists _, _. split; [reflexivity|]. cbn [resultChunks retrievalMode].
    destruct (slice_top (selectSummaryChunks index) topK Hk) as [H1 H2].
    split; [done|]. split; [|done].
    intros chunk Hc. apply H2 in Hc. by apply takeUntilBudget_sub in Hc. }
  rewrite <- Eq in *. clear Eq.
  unfold mbind at 1. unfold M_bind at 1. unfold getWorld at 1. cbn beta iota.
  destruct (hybridSearch w) eqn:Hh; cbn [negb].
  2:{ eexists _, _. split; [reflexivity|]. done. }
  unfold tryCatch.
  destruct (Embeddings.requestEmbedding query w) as [[queryVector|e] w1] eqn:E1.
  2:{ unfold mbind at 1. unfold M_bind at 1. rewrite E1.
      eexists _, _. split; [reflexivity|]. done. }
  unfold mbind at 1. unfold M_bind at 1. rewrite E1.
  destruct (Embeddings.getOrCreateChunkEmbeddings paperID index w1)
    as [[chunkVectors|e] w2] eqn:E2.
  2:{ unfold mbind at 1. unfold M_bind at 1. rewrite E2.
      eexists _, _. split; [reflexivity|]. done. }
  unfold mbind at 1. unfold M_bind at 1. rewrite E2.
  destruct (bool_decide (queryVector = []) || bool_decide (size chunkVectors = O)).
  { eexists _, _. split; [reflexivity|]. done. }
  pose proof (rankedChunks_bounds toLowerCase Math_log index queryTokens queryVector
                chunkVectors topK Hk) as (R1 & R2).
  destruct (rankedChunks toLowerCase Math_log index queryTokens queryVector
                         chunkVectors topK) as [|r rs] eqn:Er.
  { eexists _, _. split; [reflexivity|]. done. }
  eexists _, _. split; [reflexivity|]. done.
Qed.

(** [retrieveRelevantChunks] always returns; for [topK >= 0] it returns at
    most [topK] chunks, all of them chunks of the index.  With hybrid
    search switched off the mode is [keyword] and nothing is requested,
    logged or written. *)
Theorem retrieveRelevantChunks_bounds (toLowerCase : jsstring → jsstring)
        (Math_log : float → float) (paperID : jsstring) (index : PaperIndex)
        (query : jsstring) (topK : Z) (w : World) :
  0 ≤ topK →
  ∃ result w',
    retrieveRelevantChunks toLowerCase Math_log paperID index query topK w
    = (Ok result, w')
    ∧ len (resultChunks result) ≤ topK
    ∧ (∀ chunk, chunk ∈ resultChunks result → chunk ∈ chunks index)
    ∧ (hybridSearch w = false → retrievalMode result = keyword ∧ w' = w).
Proof. apply retrieveRelevantChunks_run. Qed.

Lemma retrieveRelevantChunks_bounds_witness :
  ∃ result,
    retrieveRelevantChunks asciiLower logStandIn (lit "42") Embeddings.indexTwo
                           (lit "what is beta") 6 IndexManager.world0
    = (Ok result, IndexManager.world0)
    ∧ len (resultChunks result) ≤ 6.
Proof.
  destruct (retrieveRelevantChunks_bounds asciiLower logStandIn (lit "42")
              Embeddings.indexTwo (lit "what is beta") 6 IndexManager.world0
              ltac:(done))
    as (result & w' & Hrun & Hlen & _ & Hoff).
  destruct (Hoff eq_refl) as [_ ->]. by exists result.
Defined.

End RetrievalBounds.

Module Tokens.
Import Js Text Store Retrieval.

(** A code unit a token may hold: a lower-case ASCII letter, a digit, a
    letter of U+00C0..U+024F, a CJK ideograph of U+4E00..U+9FFF or a
    Hangul syllable of U+AC00..U+D7AF. *)
Definition tokenChar (c : N) : Prop :=
  (97 ≤ c ≤ 122 ∨ 48 ≤ c ≤ 57 ∨ 192 ≤ c ≤ 591 ∨ 19968 ≤ c ≤ 40959
   ∨ 44032 ≤ c ≤ 55215)%N.

Lemma kept_tokenChar c :
  keptByTokenizer c = true → isWhiteSpace c = false → tokenChar c.
Proof.
  unfold keptByTokenizer, tokenChar. intros Hk Hw. rewrite Hw, orb_false_r in Hk.
  repeat (apply orb_true_iff in Hk as [Hk|Hk]);
    apply andb_true_iff in Hk as [H1 H2];
    apply N.leb_le in H1; apply N.leb_le in H2; lia.
Qed.

Lemma splitWs_pieces s cur inSeparator :
  Forall tokenChar cur →
  Forall (λ c, isWhiteSpace c = true ∨ tokenChar c) s →
  Forall (Forall tokenChar) (splitWs s cur inSeparator).
Proof.
  intros Hcur Hs. revert cur inSeparator Hcur.
  induction Hs as [|c s Hc _ IH]; intros cur inSeparator Hcur; simpl.
  - by constructor.
  - destruct (isWhiteSpace c) eqn:E.
    + destruct inSeparator; [by apply IH|].
      constructor; [done|]. by apply IH.
    + apply IH. apply Forall_app. split; [done|]. constructor; [|done].
      destruct Hc as [Hc|Hc]; [congruence | done].
Qed.

Lemma dedupe_spec (tokens seen : list jsstring) :
  NoDup seen →
  let result :=
    foldl (λ seen t, if bool_decide (t ∈ seen) then seen else seen ++ [t])
          seen tokens in
  NoDup result ∧ ∀ t, t ∈ result ↔ t ∈ seen ∨ t ∈ tokens.
Proof.
  revert seen. induction tokens as [|x tokens IH]; intros seen Hnd; simpl.
  - split; [done|]. intros t. rewrite elem_of_nil. tauto.
  - case_bool_decide as Hx.
    + destruct (IH seen Hnd) as [H1 H2]. split; [done|].
      intros t. rewrite H2, elem_of_cons. naive_solver.
    + assert (Hnd' : NoDup (seen ++ [x])).
      { apply NoDup_app. split; [done|]. split; [|apply NoDup_singleton].
        intros y Hy ->%list_elem_of_singleton. done. }
      destruct (IH (seen ++ [x]) Hnd') as [H1 H2]. split; [done|].
      intros t. rewrite H2, elem_of_app, list_elem_of_singleton, elem_of_cons.
      tauto.
Qed.

(** The tokens of a text are at least two code units long and hold only
    lower-case ASCII letters, digits, letters of U+00C0..U+024F, CJK
    ideographs and Hangul syllables, so no white space and no punctuation;
    the query tokens are these without repetitions. *)
Theorem tokenize_shape (toLowerCase : jsstring → jsstring) (query : jsstring) :
  let tokens := tokenize toLowerCase query in
  let queryTokens := dedupe tokens in
  (∀ t, t ∈ tokens → 2 ≤ len t ∧ Forall tokenChar t)
  ∧ NoDup queryTokens
  ∧ (∀ t, t ∈ queryTokens ↔ t ∈ tokens).
Proof.
  intros tokens queryTokens. split.
  - intros t Ht. subst tokens. unfold tokenize in Ht.
    apply list_elem_of_filter in Ht as [Hlen Ht]. split; [lia|].
    clear Hlen. revert t Ht. apply Forall_forall.
    apply splitWs_pieces; [constructor|].
    apply Forall_map, Forall_true. intros c. simpl.
    destruct (keptByTokenizer c) eqn:Ek; [|by left].
    destruct (isWhiteSpace c) eqn:Ew; [by left | right; by apply kept_tokenChar].
  - destruct (dedupe_spec tokens [] (NoDup_nil_2)) as [H1 H2].
    split; [exact H1|]. intros t. unfold queryTokens, dedupe. rewrite H2.
    rewrite elem_of_nil. tauto.
Qed.

End Tokens.

Module StoreRoundTrip.
Import Js Text Store IndexManager Conversation.












End StoreRoundTrip.

Module EvidenceFacts.
Import Js Text Evidence.

Lemma hasEvidenceMarker_app_r s1 s2 :
  hasEvidenceMarker s2 = true → hasEvidenceMarker (s1 ++ s2) = true.
Proof.
  intros H. induction s1 as [|c s1 IH]; [done|].
  cbn [app hasEvidenceMarker]. rewrite IH. apply orb_true_r.
Qed.

Lemma snippet_marker index chunk rest :
  (index < 9)%nat → hasEvidenceMarker (snippet index chunk ++ rest) = true.
Proof.
  intros Hi. unfold snippet.
  do 9 (destruct index as [|index]; [reflexivity|]). lia.
Qed.

Lemma length_clipText t maxChars :
  0 ≤ maxChars → len (clipText t maxChars) ≤ maxChars + 3.
Proof.
  intros Hm. unfold clipText. destruct (Z.leb_spec (len t) maxChars); [lia|].
  unfold len. rewrite length_app. change (length (lit "...")) with 3%nat.
  pose proof (Coverage.length_trim (slice t 0 maxChars)).
  rewrite slice_prefix in * by done. rewrite length_take in *. lia.
Qed.

Lemma enforceEvidence_has_marker (answer : jsstring) (chunks : list TextChunk) :
  chunks ≠ [] → hasEvidenceMarker (enforceEvidence true answer chunks) = true.
Proof.
  intros Hne. unfold enforceEvidence. cbn [negb orb].
  rewrite bool_decide_eq_false_2 by done. cbn [orb].
  destruct (hasEvidenceMarker (trim answer)) eqn:E; [done|].
  destruct chunks as [|chunk chunks]; [done|].
  rewrite slice_prefix by lia.
  change (Z.to_nat 3) with 3%nat. cbn [take imap].
  cbn [join].
  repeat (apply hasEvidenceMarker_app_r || rewrite <- app_assoc).
  destruct (imap (snippet ∘ S) (take 2 chunks));
    [rewrite <- (app_nil_r (snippet 0 chunk))|]; apply snippet_marker; lia.
Qed.

(** With evidence required and a chunk to quote, the text that
    [enforceEvidence] returns always carries a marker [[C<digits>]]: the
    one in the answer, or that of the first appended snippet; so a second
    pass over the result adds no second disclaimer.  A snippet quotes at
    most 220 code units of its chunk, and three dots when it was cut. *)
Theorem enforceEvidence_marked (answer : jsstring) (chunks : list TextChunk) :
  chunks ≠ [] →
  let enforced := enforceEvidence true answer chunks in
  containsMarker enforced
  ∧ (∀ required others, enforceEvidence required enforced others = trim enforced)
  ∧ ∀ index chunk,
      len (snippet index chunk) ≤ len (decimal (Z.of_nat index + 1)) + 227.
Proof.
  intros Hne enforced.
  pose proof (enforceEvidence_has_marker answer chunks Hne) as Hmarked.
  fold enforced in Hmarked.
  split; [by apply hasEvidenceMarker_iff|]. split.
  - intros required others. unfold enforceEvidence at 1.
    by rewrite hasEvidenceMarker_trim, Hmarked, orb_true_r.
  - intros index chunk. unfold snippet, len. rewrite !length_app.
    pose proof (length_clipText (text chunk) 220 ltac:(done)) as H.
    unfold len in H. change (length (lit "[C")) with 2%nat.
    change (length (lit "] ")) with 2%nat. lia.
Qed.

Lemma enforceEvidence_marked_witness :
  containsMarker (enforceEvidence true (lit "It uses attention.") [someChunk]).
Proof.
  destruct (enforceEvidence_marked (lit "It uses attention.") [someChunk]
              ltac:(discriminate)) as (H & _).
  exact H.
Defined.

End EvidenceFacts.

Module SummaryPlan.
Import Js Text Store IndexManager Conversation Retrieval Summary.

(** The contexts with a non-blank title, which get a section. *)
Definition titled (contexts : list PdfSectionContext) : list PdfSectionContext :=
  filter (λ entry, trim (ctxTitle entry) ≠ []) contexts.

(** [contextBySectionID], as the [forEach] fills it. *)
Definition contextMap (pairs : list (SummaryPlanSection * PdfSectionContext))
           (m : gmap jsstring PdfSectionContext) : gmap jsstring PdfSectionContext :=
  foldl (λ m p, <[secID p.1 := p.2]> m) m pairs.

Lemma contextMap_keys pairs m k :
  is_Some (contextMap pairs m !! k)
  ↔ is_Some (m !! k) ∨ k ∈ map (λ p, secID p.1) pairs.
Proof.
  revert m. induction pairs as [|[s c] pairs IH]; intros m; simpl.
  - rewrite elem_of_nil. tauto.
  - rewrite IH, elem_of_cons. simpl.
    destruct (decide (k = secID s)) as [->|Hne].
    + rewrite lookup_insert_eq. split; [by right; left|]. intros _. left. by eexists.
    + rewrite lookup_insert_ne by done. naive_solver.
Qed.

Lemma contextMap_values pairs m k c :
  contextMap pairs m !! k = Some c →
  m !! k = Some c ∨ ∃ s, (s, c) ∈ pairs ∧ secID s = k.
Proof.
  revert m. induction pairs as [|[s0 c0] pairs IH]; intros m; simpl; [by left|].
  intros H. apply IH in H as [H|(s & Hs & Hk)].
  - destruct (decide (secID s0 = k)) as [<-|Hne].
    + rewrite lookup_insert_eq in H. injection H as <-.
      right. exists s0. split; [by left | done].
    + rewrite lookup_insert_ne in H by done. by left.
  - right. exists s. split; [by right | done].
Qed.

Lemma contextMap_lookup pairs m i s c :
  NoDup (map (λ p, secID p.1) pairs) →
  pairs !! i = Some (s, c) → contextMap pairs m !! secID s = Some c.
Proof.
  revert m i. induction pairs as [|[s0 c0] pairs IH]; intros m i Hnd Hi; [done|].
  apply NoDup_cons in Hnd as [Hnot Hnd]. simpl in Hnot. simpl.
  destruct i as [|i]; simpl in Hi.
  - injection Hi as -> ->.
    destruct (contextMap pairs (<[secID s := c]> m) !! secID s) as [c'|] eqn:E.
    + apply contextMap_values in E as [E|(s' & Hs' & Hk)].
      * by rewrite lookup_insert_eq in E.
      * exfalso. apply Hnot. rewrite <- Hk.
        apply list_elem_of_fmap. by exists (s', c').
    + assert (is_Some (contextMap pairs (<[secID s := c]> m) !! secID s)) as [? ?].
      { apply contextMap_keys. left. rewrite lookup_insert_eq. by eexists. }
      congruence.
  - by apply (IH _ i).
Qed.

Lemma zip_section_ids (sections : list SummaryPlanSection)
      (selected : list PdfSectionContext) :
  length sections = length selected →
  map (λ p : SummaryPlanSection * PdfSectionContext, secID p.1)
      (zip sections selected) = map secID sections.
Proof.
  intros H. rewrite <- (fst_zip sections selected) at 2 by lia.
  by rewrite <- list_fmap_compose.
Qed.

Lemma prepareBookmarkContextSummaryPlan_keys (contexts : list PdfSectionContext) :
  ∀ section, section ∈ (prepareBookmarkContextSummaryPlan contexts).1 →
    is_Some ((prepareBookmarkContextSummaryPlan contexts).2 !! secID section).
Proof.
  intros section Hin. unfold prepareBookmarkContextSummaryPlan in *.
  cbn [fst snd] in *.
  match goal with |- is_Some (foldl _ ∅ ?pairs !! _) =>
    fold (contextMap pairs ∅)
  end.
  apply contextMap_keys. right.
  rewrite zip_section_ids by (by rewrite length_imap).
  by apply list_elem_of_fmap_2.
Qed.

(** [prepareBookmarkContextSummaryPlan] makes one section for each context
    with a non-blank title, in order and under the context's title; the
    map it returns has a context for every section id, and only contexts
    that were given; when the section ids are distinct, each section's id
    leads to the context the section was made from. *)
Theorem prepareBookmarkContextSummaryPlan_spec (contexts : list PdfSectionContext) :
  let prepared := prepareBookmarkContextSummaryPlan contexts in
  map secTitle prepared.1 = map ctxTitle (titled contexts)
  ∧ (∀ section, section ∈ prepared.1 → is_Some (prepared.2 !! secID section))
  ∧ (∀ sectionID context, prepared.2 !! sectionID = Some context →
       context ∈ contexts ∧ trim (ctxTitle context) ≠ [])
  ∧ (NoDup (map secID prepared.1) →
     ∀ i section, prepared.1 !! i = Some section →
       ∃ context, titled contexts !! i = Some context
                  ∧ prepared.2 !! secID section = Some context
                  ∧ secTitle section = ctxTitle context
                  ∧ headingLevel section = ctxDepth context + 1).
Proof.
  intros prepared. subst prepared. unfold prepareBookmarkContextSummaryPlan.
  fold (titled contexts). cbn [fst snd].
  set (selected := titled contexts).
  set (sections := imap planSection selected).
  fold (contextMap (zip sections selected) ∅).
  assert (Hlen : length sections = length selected).
  { unfold sections. by rewrite length_imap. }
  assert (Hsec : ∀ i section, sections !! i = Some section →
            ∃ context, selected !! i = Some context
                       ∧ section = planSection i context).
  { intros i section Hi. unfold sections in Hi.
    rewrite list_lookup_imap in Hi.
    destruct (selected !! i) as [context|]; [|done].
    injection Hi as <-. by exists context. }
  assert (Hkeys : map (λ p : SummaryPlanSection * PdfSectionContext, secID p.1)
                      (zip sections selected) = map secID sections).
  { by apply zip_section_ids. }
  split; [|split; [|split]].
  - apply list_eq. intros i. rewrite !list_lookup_fmap.
    unfold sections. rewrite list_lookup_imap.
    by destruct (selected !! i).
  - intros section Hin. apply contextMap_keys. right. rewrite Hkeys.
    by apply list_elem_of_fmap_2.
  - intros sectionID context H.
    apply contextMap_values in H as [H|(s & Hs & _)]; [done|].
    apply elem_of_zip_r in Hs. unfold selected, titled in Hs.
    apply list_elem_of_filter in Hs as [Ht Hin]. done.
  - intros Hnd i section Hi.
    destruct (Hsec i section Hi) as (context & Hc & ->).
    exists context. split; [done|]. split; [|done].
    apply (contextMap_lookup _ _ i); [by rewrite Hkeys|].
    apply lookup_zip_with_Some. by exists (planSection i context), context.
Qed.

End SummaryPlan.

Module SummaryPipeline.
Import Js Text Store IndexManager Conversation Retrieval Summary SummaryPlan.

(** A progress handler that returns, and leaves the model service and the
    PDF alone. *)
Definition quiet (onProgress : option SummaryProgressHandler) : Prop :=
  match onProgress with
  | None => True
  | Some handler =>
    ∀ state w, ∃ w', handler state w = (Ok tt, w')
                     ∧ llmCalls w' = llmCalls w ∧ pdfSections w' = pdfSections w
  end.

Lemma quiet_showProgress : quiet (Some showProgress).
Proof. intros state w. by eexists. Qed.

Lemma reportSummaryProgress_quiet onProgress percent stage w :
  quiet onProgress →
  ∃ w', reportSummaryProgress onProgress percent stage w = (Ok tt, w')
        ∧ llmCalls w' = llmCalls w ∧ pdfSections w' = pdfSections w.
Proof.
  intros Hq. destruct onProgress as [handler|]; simpl.
  - apply Hq.
  - by eexists.
Qed.

Lemma requestLLM_calls w r w' :
  requestLLM w = (r, w') → (llmCalls w ≤ llmCalls w' ≤ S (llmCalls w))%nat.
Proof.
  intros H. destruct (requestLLM_frame _ _ _ H) as [-> | ->]; simpl; lia.
Qed.

(** The loop over the sections never throws: a failed draft is logged. *)
Lemma draftSections_run index contextBySectionID onProgress totalSteps
      sections step sectionDrafts w :
  quiet onProgress →
  ∃ sectionDrafts' w',
    draftSections index contextBySectionID onProgress totalSteps sections step
                  sectionDrafts w
    = (Ok (step + len sections, sectionDrafts'), w')
    ∧ (length sectionDrafts' ≤ length sectionDrafts + length sections)%nat
    ∧ (llmCalls w ≤ llmCalls w' ≤ llmCalls w + length sections)%nat
    ∧ (Forall (λ d, length (evidence d) = 1%nat) sectionDrafts →
       Forall (λ d, length (evidence d) = 1%nat) sectionDrafts').
Proof.
  intros Hq. revert step sectionDrafts w.
  induction sections as [|section rest IH]; intros step sectionDrafts w.
  - exists sectionDrafts, w. cbn [draftSections len length]. rewrite Z.add_0_r.
    split; [done|]. split; [lia|]. split; [lia | done].
  - cbn [draftSections].
    destruct (reportSummaryProgress_quiet onProgress
                (24 + 72 * num (step + 1) / num totalSteps)%float
                (utf16 "소목차 요약: " ++ secTitle section) w Hq)
      as (w1 & Hrep & Hcalls1 & _).
    rewrite (bind_ok _ _ _ _ _ Hrep).
    match goal with
    | |- context [mbind _ ?body w1] =>
      assert (Hbody : ∃ drafts1 w2,
        body w1 = (Ok drafts1, w2)
        ∧ (length drafts1 ≤ S (length sectionDrafts))%nat
        ∧ (llmCalls w1 ≤ llmCalls w2 ≤ S (llmCalls w1))%nat
        ∧ (Forall (λ d, length (evidence d) = 1%nat) sectionDrafts →
           Forall (λ d, length (evidence d) = 1%nat) drafts1))
    end.
    { destruct (contextBySectionID !! secID section) as [context|].
      2:{ exists sectionDrafts, w1. split; [done|]. split; [lia|]. split; [lia|done]. }
      destruct (trim (ctxContextText context)) as [|c0 t0].
      { exists sectionDrafts, w1. split; [done|]. split; [lia|]. split; [lia|done]. }
      unfold tryCatch, draftSummarySection.
      destruct (requestLLM w1) as [[sectionDraft|e] w2] eqn:Hreq.
      - eexists _, w2. split.
        { unfold mbind at 1. unfold M_bind at 1.
          unfold mbind at 1. unfold M_bind at 1. rewrite Hreq. reflexivity. }
        split; [rewrite length_app; simpl; lia|].
        split; [by apply requestLLM_calls in Hreq|].
        intros Hev. apply Forall_app. split; [done|]. by repeat constructor.
      - eexists sectionDrafts, _. split.
        { unfold mbind at 1. unfold M_bind at 1.
          unfold mbind at 1. unfold M_bind at 1. rewrite Hreq. reflexivity. }
        split; [lia|]. split; [|done].
        apply requestLLM_calls in Hreq. simpl. lia. }
    destruct Hbody as (drafts1 & w2 & Hbody & Hlen & Hcalls2 & Hev).
    rewrite (bind_ok _ _ _ _ _ Hbody).
    destruct (IH (step + 1) drafts1 w2) as (drafts' & w' & Hrun & Hlen' & Hcalls' & Hev').
    exists drafts', w'. rewrite Hrun.
    split; [do 3 f_equal; unfold len; cbn [length]; lia|].
    split; [cbn [length]; lia|]. split; [cbn [length]; lia|]. tauto.
Qed.

Lemma trim_ink_prefix p s :
  Forall (λ c, isWhiteSpace c = false) p → ∃ s', trim (p ++ s) = p ++ s'.
Proof.
  intros Hp. destruct p as [|x p]; [by eexists|].
  unfold trim, trimStart. cbn [app dropWhile].
  rewrite (Forall_inv Hp).
  destruct (Evidence.trimEnd_suffix (x :: p ++ s)) as (k & Hk & Hws).
  set (t := trimEnd (x :: p ++ s)) in *.
  change (x :: p ++ s) with ((x :: p) ++ s) in Hk.
  destruct (decide (length t < length (x :: p))%nat) as [Hlt|Hge].
  - exfalso.
    assert (Hc : ((x :: p) ++ s) !! length t = (t ++ k) !! length t) by by rewrite Hk.
    rewrite lookup_app_l in Hc by done.
    rewrite lookup_app_r, Nat.sub_diag in Hc by lia.
    destruct ((x :: p) !! length t) as [c|] eqn:E.
    2:{ apply lookup_ge_None in E. lia. }
    rewrite Forall_forall in Hp, Hws.
    assert (isWhiteSpace c = false) by (apply Hp; by eapply list_elem_of_lookup_2).
    assert (isWhiteSpace c = true) by (apply Hws; by eapply list_elem_of_lookup_2).
    congruence.
  - exists (drop (length (x :: p)) t).
    apply (f_equal (take (length (x :: p)))) in Hk.
    rewrite take_app_length in Hk. rewrite take_app_le in Hk by lia.
    transitivity (take (length (x :: p)) t ++ drop (length (x :: p)) t);
      [by rewrite take_drop|].
    by rewrite <- Hk.
Qed.

Lemma length_omap_total {A B} (f : A → option B) (l : list A) :
  (∀ x, x ∈ l → is_Some (f x)) → length (omap f l) = length l.
Proof.
  induction l as [|x l IH]; intros H; [done|]. simpl.
  destruct (H x ltac:(by left)) as [y ->]. simpl. f_equal.
  apply IH. intros z Hz. apply H. by right.
Qed.

Lemma size_evidenceMap (chunks : list TextChunk) (m : gmap jsstring TextChunk) :
  (size (foldl (λ m chunk, <[id chunk := chunk]> m) m chunks)
   ≤ size m + length chunks)%nat.
Proof.
  revert m. induction chunks as [|c chunks IH]; intros m; simpl; [lia|].
  etrans; [apply IH|]. rewrite map_size_insert.
  destruct (m !! id c); unfold Datatypes.id; lia.
Qed.

Lemma length_concat_singletons {A} (ls : list (list A)) :
  Forall (λ l, length l = 1%nat) ls → length (concat ls) = length ls.
Proof.
  induction 1 as [|l ls Hl _ IH]; [done|]. simpl.
  rewrite length_app, Hl, IH. done.
Qed.

(** [runBookmarkContextSummaryPipeline] throws only before the first model
    request: without an attachment id, when the outline cannot be read, or
    when no bookmark has a title.  Past that point it returns: with an
    answer that is never blank (it begins with the fixed summary line),
    one section link for each titled bookmark, at most one used chunk and
    at most one model request for each of them. *)
Theorem runBookmarkContextSummaryPipeline_outcome (resolved : ResolvedPaper)
        (index : PaperIndex) (onProgress : option SummaryProgressHandler)
        (w : World) :
  quiet onProgress →
  let attachmentID := default 0 (itemID <$> attachmentItem resolved) in
  let run := runBookmarkContextSummaryPipeline resolved index onProgress w in
  match run.1 with
  | Ok result =>
    ∃ contexts,
      attachmentID ≠ 0 ∧ pdfSections w attachmentID = Ok contexts
      ∧ titled contexts ≠ []
      ∧ (∃ rest, pipelineAnswer result = lit "TL;DR:" ++ rest)
      ∧ trim (pipelineAnswer result) = pipelineAnswer result
      ∧ 0 ≤ pipelineUsedChunks result ≤ len (titled contexts)
      ∧ len (pipelineSectionLinks result) = len (titled contexts)
      ∧ (llmCalls w ≤ llmCalls run.2 ≤ llmCalls w + length (titled contexts))%nat
  | Throw e =>
    llmCalls run.2 = llmCalls w
    ∧ (attachmentID = 0
       ∧ e = Error "PDF attachment is required for bookmark-context summary."
       ∨ pdfSections w attachmentID = Throw e
       ∨ (∃ contexts, pdfSections w attachmentID = Ok contexts
                      ∧ titled contexts = [])
         ∧ e = Error "No bookmark sections available for summary.")
  end.
Proof.
  intros Hq attachmentID run. subst run.
  unfold runBookmarkContextSummaryPipeline. fold attachmentID.
  case_bool_decide as Hid.
  { cbn [fst snd throw]. split; [done|]. by left. }
  destruct (reportSummaryProgress_quiet onProgress 12
              (utf16 "PDF 목차 컨텍스트 추출") w Hq) as (w1 & Hrep & Hc1 & Hp1).
  rewrite (bind_ok _ _ _ _ _ Hrep).
  assert (Hext : extractSectionContextsFromAttachment attachmentID w1
                 = match pdfSections w attachmentID with
                   | Ok contexts => (Ok contexts, w1)
                   | Throw e => (Throw e, w1)
                   end).
  { unfold extractSectionContextsFromAttachment. run_monad. rewrite Hp1.
    by destruct (pdfSections w attachmentID) as [contexts|[message]]. }
  destruct (pdfSections w attachmentID) as [contexts|e] eqn:Epdf.
  2:{ rewrite (bind_throw _ _ _ _ _ Hext). cbn [fst snd].
      split; [done|]. right. by left. }
  rewrite (bind_ok _ _ _ _ _ Hext).
  pose proof (prepareBookmarkContextSummaryPlan_keys contexts) as Hkeys.
  unfold prepareBookmarkContextSummaryPlan in *. fold (titled contexts) in *.
  cbn [fst snd] in *.
  set (sections := imap planSection (titled contexts)) in *.
  assert (Hlen : length sections = length (titled contexts)).
  { unfold sections. by rewrite length_imap. }
  destruct sections as [|section0 sections0] eqn:Esec.
  { cbn [fst snd throw]. split; [done|]. right. right. split; [|done].
    exists contexts. split; [done|]. by destruct (titled contexts). }
  rewrite <- Esec in *.
  match goal with
  | |- context [draftSections index ?m onProgress ?total sections 0 []] =>
    destruct (draftSections_run index m onProgress total sections 0 [] w1 Hq)
      as (drafts & w2 & Hloop & Hdrafts & Hcalls & Hev)
  end.
  rewrite (bind_ok _ _ _ _ _ Hloop). cbn beta iota. cbn [length] in Hdrafts.
  match goal with
  | |- context [reportSummaryProgress onProgress ?p ?s] =>
    destruct (reportSummaryProgress_quiet onProgress p s w2 Hq)
      as (w3 & Hrep3 & Hc3 & _)
  end.
  rewrite (bind_ok _ _ _ _ _ Hrep3). cbn [mret M_ret fst snd].
  cbn [pipelineAnswer pipelineUsedChunks pipelineSectionLinks].
  exists contexts. split; [done|]. split; [done|].
  split; [intros E; rewrite E in Hlen; by rewrite Esec in Hlen|].
  assert (Hstart : ∃ rest, trim (composeSectionedSummary index sections drafts)
                           = lit "TL;DR:" ++ rest).
  { unfold composeSectionedSummary. cbn [join].
    change (lit "TL;DR: ") with (lit "TL;DR:" ++ lit " ").
    rewrite <- !app_assoc. apply trim_ink_prefix. by repeat constructor. }
  split; [done|]. split; [apply trim_idem|].
  split.
  { split; [lia|]. unfold len. rewrite <- Hlen.
    match goal with |- context [foldl ?f ∅ ?l] =>
      pose proof (size_evidenceMap l ∅) as Hsize
    end.
    rewrite map_size_empty, length_concat_singletons in Hsize.
    - rewrite length_map in Hsize. lia.
    - apply Forall_map. by apply Hev.
  }
  split.
  { unfold len. rewrite <- Hlen. f_equal. apply length_omap_total.
    intros section Hin. destruct (Hkeys section Hin) as [context Hcontext].
    rewrite Hcontext. by eexists. }
  rewrite Hc3. rewrite <- Hlen. lia.
Qed.

Lemma runBookmarkContextSummaryPipeline_outcome_witness :
  ∃ result w',
    runBookmarkContextSummaryPipeline paperPdf indexAlpha (Some showProgress) worldPdf
    = (Ok result, w')
    ∧ pipelineUsedChunks result = 2 ∧ len (pipelineSectionLinks result) = 2.
Proof.
  pose proof (runBookmarkContextSummaryPipeline_outcome paperPdf indexAlpha
                (Some showProgress) worldPdf quiet_showProgress) as H.
  cbv zeta in H.
  destruct (runBookmarkContextSummaryPipeline paperPdf indexAlpha
              (Some showProgress) worldPdf) as [[result|e] w'] eqn:E.
  - exists result, w'. split; [done|]. clear H.
    vm_compute in E. injection E as <- _. split; reflexivity.
  - vm_compute in E. discriminate E.
Defined.

End SummaryPipeline.

Module ProgressClamp.
Import Js Text Store Summary.

Lemma SFcompare_antisym x y :
  SFcompare y x = option_map CompOpp (SFcompare x y).
Proof.
  destruct x as [s1|s1| |s1 m1 e1], y as [s2|s2| |s2 m2 e2]; simpl;
    try done; try (by destruct s1); try (by destruct s2);
    try (by destruct s1, s2).
  pose proof (Pos.compare_cont_antisym m1 m2 Eq) as Hm. simpl in Hm.
  destruct s1, s2; try done; simpl; rewrite (Z.compare_antisym e1 e2);
    destruct (e1 ?= e2)%Z; simpl; try done; rewrite <- Hm;
    by destruct (Pos.compare_cont Eq m1 m2).
Qed.

Lemma ltb_leb x y : (x <? y)%float = true → (x <=? y)%float = true.
Proof.
  rewrite FloatAxioms.ltb_spec, FloatAxioms.leb_spec. unfold SFltb, SFleb.
  by destruct (SFcompare (Prim2SF x) (Prim2SF y)) as [[]|].
Qed.

Lemma ltb_asym x y : (x <? y)%float = true → (y <? x)%float = false.
Proof.
  rewrite !FloatAxioms.ltb_spec. unfold SFltb. rewrite (SFcompare_antisym (Prim2SF x)).
  by destruct (SFcompare (Prim2SF x) (Prim2SF y)) as [[]|].
Qed.

(** A number that is not NaN and neither above nor below zero is a zero. *)
Lemma between_zero x :
  PrimFloat.is_nan x = false → (0 <? x)%float = false → (x <? 0)%float = false →
  x = 0%float ∨ x = (-0)%float.
Proof.
  unfold PrimFloat.is_nan. rewrite FloatAxioms.eqb_spec, !FloatAxioms.ltb_spec.
  change (Prim2SF 0) with (S754_zero false).
  intros Hnan H1 H2. rewrite <- (SF2Prim_Prim2SF x).
  destruct (Prim2SF x) as [s|s| |s m e]; simpl in *.
  - destruct s; [by right | by left].
  - unfold SFltb in *. simpl in *. by destruct s.
  - done.
  - unfold SFltb in *. simpl in *. by destruct s.
Qed.

Lemma is_nan_false x : PrimFloat.is_nan x = false ↔ Prim2SF x ≠ S754_nan.
Proof.
  unfold PrimFloat.is_nan. rewrite FloatAxioms.eqb_spec. unfold SFeqb.
  destruct (Prim2SF x) as [s|s| |s m e]; simpl; try done.
  - by destruct s.
  - destruct s; rewrite Z.compare_refl; simpl;
      rewrite Pos.compare_cont_refl; done.
Qed.

Lemma is_nan_ltb x y :
  (x <? y)%float = true → PrimFloat.is_nan x = false ∧ PrimFloat.is_nan y = false.
Proof.
  rewrite !is_nan_false, FloatAxioms.ltb_spec. unfold SFltb.
  destruct (Prim2SF x), (Prim2SF y); simpl; done.
Qed.

(** [reportSummaryProgress] hands the handler a percentage between 0 and
    100 whatever number it is given: a value inside the range as it is, a
    value below it as 0, a value above it as 100 (and NaN as NaN).
    Without a handler it does nothing. *)
Theorem reportSummaryProgress_clamps (handler : SummaryProgressHandler)
        (percent : float) (stage : jsstring) (w : World) :
  let shown := Math_max 0 (Math_min 100 percent) in
  reportSummaryProgress (Some handler) percent stage w
  = handler (mkProgress shown stage) w
  ∧ reportSummaryProgress None percent stage w = (Ok tt, w)
  ∧ (PrimFloat.is_nan percent = false →
     (0 <=? shown)%float = true ∧ (shown <=? 100)%float = true)
  ∧ ((0 <? percent)%float = true → (percent <? 100)%float = true →
     shown = percent)
  ∧ ((percent <? 0)%float = true → shown = 0%float)
  ∧ ((100 <? percent)%float = true → shown = 100%float).
Proof.
  intros shown. split; [done|]. split; [done|].
  assert (Hmin : PrimFloat.is_nan percent = false →
            Math_min 100 percent = 100%float
            ∨ (Math_min 100 percent = percent ∧ (percent <? 100)%float = true)).
  { intros Hnan. unfold Math_min. rewrite Hnan. cbn [orb PrimFloat.is_nan].
    change (negb (100 =? 100)%float) with false. cbn [orb].
    destruct (100 <? percent)%float; [by left|].
    destruct (percent <? 100)%float; [by right | by left]. }
  split; [|split; [|split]].
  - intros Hnan. subst shown. destruct (Hmin Hnan) as [->|[-> Hlt]].
    + by vm_compute.
    + unfold Math_max. rewrite Hnan.
      change (PrimFloat.is_nan 0) with false. cbn [orb].
      destruct (0 <? percent)%float eqn:E0.
      { split; [by apply ltb_leb | by apply ltb_leb]. }
      destruct (percent <? 0)%float eqn:E1; [by vm_compute|].
      change (PrimFloat.is_zero 0) with true. cbn iota.
      destruct (between_zero percent Hnan E0 E1) as [-> | ->]; by vm_compute.
  - intros H0 H100. destruct (is_nan_ltb _ _ H0) as [_ Hnan]. subst shown.
    assert (Math_min 100 percent = percent) as ->.
    { unfold Math_min. rewrite Hnan.
      change (PrimFloat.is_nan 100) with false. cbn [orb].
      by rewrite (ltb_asym _ _ H100), H100. }
    unfold Math_max. rewrite Hnan. change (PrimFloat.is_nan 0) with false.
    cbn [orb]. by rewrite H0.
  - intros H0. destruct (is_nan_ltb _ _ H0) as [Hnan _]. subst shown.
    assert (H100 : (percent <? 100)%float = true).
    { revert H0. rewrite !FloatAxioms.ltb_spec. unfold SFltb.
      change (Prim2SF 0) with (S754_zero false).
      change (Prim2SF 100) with (S754_finite false 7036874417766400 (-46)).
      destruct (Prim2SF percent) as [s|s| |s m e]; try destruct s;
        intros H0; try discriminate H0; reflexivity. }
    assert (Math_min 100 percent = percent) as ->.
    { unfold Math_min. rewrite Hnan.
      change (PrimFloat.is_nan 100) with false. cbn [orb].
      by rewrite (ltb_asym _ _ H100), H100. }
    unfold Math_max. rewrite Hnan. change (PrimFloat.is_nan 0) with false.
    cbn [orb]. by rewrite (ltb_asym _ _ H0), H0.
  - intros H100. destruct (is_nan_ltb _ _ H100) as [_ Hnan]. subst shown.
    assert (Math_min 100 percent = 100%float) as ->.
    { unfold Math_min. rewrite Hnan.
      change (PrimFloat.is_nan 100) with false. cbn [orb]. by rewrite H100. }
    by vm_compute.
Qed.

End ProgressClamp.
